(** * node-scad-parser: a shallow embedding of the parser front end

    The model follows the sources file by file:
    - [JS]: the few JavaScript and lodash primitives the code relies on
      (slice, times, join, split, trim, number formatting);
    - [Token], [Location], [Loc]: lib/ast/index.js;
    - [Tokens]: the token table of nearley/tokens and the scanner that the
      table is compiled to;
    - [Nodes]: the node classes of ast/nodes over an explicit object store;
    - [Grammar], [SCADParser], [parse], [parseAST], [getToken],
      [getCodeExcerpt], [findTokens], [render]: src/index.js;
    - [registerTokens]: the testers of nearley/tokens;
    - [Printing], [Expressions]: the strings of the nodes and the
      ExpressionNode class of ast/nodes;
    - [Fragment]: a small grammar to run the model on.
    Then come the vocabulary of the statements and the properties.

    Strings are sequences of 8-bit code units; numbers that the code only
    uses as integers are in [Z]. *)

From Stdlib Require Import ZArith Ascii String DecimalString Lia.
From stdpp Require Import base numbers option list strings gmap fin_maps.

Local Open Scope string_scope.
Local Open Scope Z_scope.
Local Open Scope list_scope.

Set Warnings "-register-all,-clear-no-such-hyp".

(** ** JavaScript primitives *)

Module JS.

Definition LF : ascii := "010"%char.
Definition CR : ascii := "013"%char.
Definition DQUOTE : ascii := "034"%char.

(** Line terminators: the characters that the regular expression atom [.]
    does not match (U+2028 and U+2029 are outside the 8-bit range). *)
Definition isLineTerminator (c : ascii) : bool :=
  (c =? LF)%char || (c =? CR)%char.

(** White space in the sense of [String.prototype.trim] and of the
    regular expression class [\s]. *)
Definition isWhiteSpace (c : ascii) : bool :=
  let n := nat_of_ascii c in
  ((9 <=? n) && (n <=? 13) || (n =? 32) || (n =? 160))%nat.

Fixpoint trimStart (s : string) : string :=
  match s with
  | String c s' => if isWhiteSpace c then trimStart s' else s
  | EmptyString => EmptyString
  end.

Fixpoint trimEnd (s : string) : string :=
  match s with
  | String c s' =>
      match trimEnd s' with
      | EmptyString => if isWhiteSpace c then EmptyString else String c EmptyString
      | r => String c r
      end
  | EmptyString => EmptyString
  end.

Definition trim (s : string) : string := trimEnd (trimStart s).

(** [Array.prototype.slice(start, end)] with its treatment of negative
    and out-of-range indices. *)
Definition slice {A} (l : list A) (start end_ : Z) : list A :=
  let len := Z.of_nat (List.length l) in
  let k := if start <? 0 then Z.max (len + start) 0 else Z.min start len in
  let final := if end_ <? 0 then Z.max (len + end_) 0 else Z.min end_ len in
  take (Z.to_nat (final - k)) (drop (Z.to_nat k) l).

(** [_.times(n, () => c).join('')]: no iteration when [n < 1]. *)
Definition times (n : Z) (c : ascii) : string :=
  string_of_list_ascii (replicate (Z.to_nat n) c).

(** [Array.prototype.join] on an array of strings. *)
Definition join (sep : string) (l : list string) : string := String.concat sep l.

(** [String.prototype.split] with the one-character separator LF. *)
Fixpoint splitLines (s : string) : list string :=
  match s with
  | EmptyString => [EmptyString]
  | String c s' =>
      if (c =? LF)%char then EmptyString :: splitLines s'
      else match splitLines s' with
           | h :: t => String c h :: t
           | [] => [String c EmptyString]
           end
  end.

(** [Number.prototype.toString] on an integer. *)
Definition numToString (n : Z) : string := NilZero.string_of_int (Z.to_int n).

Definition strlen (s : string) : Z := Z.of_nat (String.length s).

(** Decomposition of a string at its first line terminator. *)
Fixpoint spanDot (s : string) : string * string :=
  match s with
  | String c s' =>
      if isLineTerminator c then (EmptyString, s)
      else let '(a, b) := spanDot s' in (String c a, b)
  | EmptyString => (EmptyString, EmptyString)
  end.

End JS.

(** ** lib/ast/index.js: tokens as the scanner hands them out, locations *)

Record Token := mkToken {
  t_type : string;
  t_value : string;
  t_offset : Z;
  t_size : Z;
  t_lineBreaks : Z;
  t_line : Z;
  t_col : Z
}.

(** [token.toString()], which [Array.prototype.join] calls on a token:
    the value, or the type when the value is the empty string. *)
Definition tokenToString (t : Token) : string :=
  match t_value t with
  | EmptyString => t_type t
  | v => v
  end.

Record Location := mkLocation {
  loc_offset : Z;
  loc_size : Z;
  loc_lineBreaks : Z;
  loc_line : Z;
  loc_column : Z
}.

Module Loc.

(** [new Location(token)]: a missing token stands for offset 0, size 0,
    line 1, column 1. *)
Definition new (token : option Token) : Location :=
  match token with
  | Some t => mkLocation (t_offset t) (t_size t) (t_lineBreaks t) (t_line t) (t_col t)
  | None => mkLocation 0 0 0 1 1
  end.

Definition toString (l : Location) : string :=
  "[Location: Offset=" +:+ JS.numToString (loc_offset l) +:+
  ", Size=" +:+ JS.numToString (loc_size l) +:+
  ", lineBreaks=" +:+ JS.numToString (loc_lineBreaks l) +:+
  ", Line=" +:+ JS.numToString (loc_line l) +:+
  ", Column=" +:+ JS.numToString (loc_column l) +:+ "]".

End Loc.

(** ** nearley/tokens: the token table and the scanner compiled from it

    [moo.compile(tokens)] turns the table into one scanner.  A string
    literal of the table that a regular expression of the table matches
    as a whole is a keyword of that entry: it is not scanned on its own,
    the entry of the regular expression scans it and the token takes the
    type of the literal's entry when its text is the keyword.  At the
    current position the remaining rules are tried in table order and
    the first one that matches there produces the token; when none
    matches, the rule declared with [moo.error] produces one token of
    its type that holds the rest of the buffer.  A token's value is the
    capture group of its rule when the rule has one, and the matched
    text otherwise; its size is always the length of the matched text. *)

Module Tokens.

(** A match: the matched text, the token value, and what follows. *)
Definition Match : Type := string * string * string.

Definition Matcher : Type := string -> option Match.

Fixpoint lit (l s : string) : option string :=
  match l, s with
  | EmptyString, _ => Some s
  | String a l', String b s' => if (a =? b)%char then lit l' s' else None
  | String _ _, EmptyString => None
  end.

Fixpoint span (p : ascii -> bool) (s : string) : string * string :=
  match s with
  | String c s' =>
      if p c then let '(a, b) := span p s' in (String c a, b)
      else (EmptyString, s)
  | EmptyString => (EmptyString, EmptyString)
  end.

Definition between (lo hi : nat) (c : ascii) : bool :=
  let n := nat_of_ascii c in ((lo <=? n) && (n <=? hi))%nat.

Definition isDigit (c : ascii) : bool := between 48 57 c.
Definition isAlpha (c : ascii) : bool := between 65 90 c || between 97 122 c.
(** First character and following characters of an identifier. *)
Definition isIdentStart (c : ascii) : bool :=
  isAlpha c || (c =? "_")%char || (c =? "$")%char.
Definition isIdentChar (c : ascii) : bool :=
  isAlpha c || isDigit c || (c =? "_")%char.
(** The modifier characters. *)
Definition isModifier (c : ascii) : bool :=
  (c =? "!")%char || (c =? "#")%char || (c =? "*")%char || (c =? "%")%char.
(** Space and tab. *)
Definition isBlank (c : ascii) : bool :=
  (c =? " ")%char || (c =? "009")%char.

(** A string literal of the table, or a regular expression that is one. *)
Definition literal (l : string) : Matcher := fun s =>
  r ← lit l s; Some (l, l, r).

(** The first alternative, in order, that matches. *)
Fixpoint firstOf (ms : list Matcher) : Matcher := fun s =>
  match ms with
  | [] => None
  | m :: ms' => match m s with Some r => Some r | None => firstOf ms' s end
  end.

(** A letter, underscore or dollar, then the longest run of letters,
    digits and underscores. *)
Definition ident (s : string) : option (string * string) :=
  match s with
  | String c s' =>
      if isIdentStart c then let '(a, b) := span isIdentChar s' in Some (String c a, b)
      else None
  | EmptyString => None
  end.

(** The last closing angle bracket of a line (greedy match). *)
Fixpoint lastGt (s : string) : option (string * string) :=
  match s with
  | EmptyString => None
  | String c s' =>
      match lastGt s' with
      | Some (a, b) => Some (String c a, b)
      | None => if (c =? ">")%char then Some (EmptyString, s') else None
      end
  end.

(** The keyword, white space, and a captured non-empty text between angle
    brackets on one line (include, use). *)
Definition angled (kw : string) : Matcher := fun s =>
  r1 ← lit kw s;
  let '(ws, r2) := span JS.isWhiteSpace r1 in
  r3 ← lit "<" r2;
  let '(ln, r4) := JS.spanDot r3 in
  match ln with
  | String c ln' =>
      '(a, b) ← lastGt ln';
      Some (kw +:+ ws +:+ "<" +:+ String c a +:+ ">", String c a, b +:+ r4)
  | EmptyString => None
  end.

(** The keyword, white space, a captured identifier, white space and an
    opening parenthesis (moduleDefinition, functionDefinition). *)
Definition definition (kw : string) : Matcher := fun s =>
  r1 ← lit kw s;
  let '(ws, r2) := span JS.isWhiteSpace r1 in
  '(name, r3) ← ident r2;
  let '(ws', r4) := span JS.isWhiteSpace r3 in
  r5 ← lit "(" r4;
  Some (kw +:+ ws +:+ name +:+ ws' +:+ "(", name, r5).

(** An optional modifier and a name starting with a letter, both captured,
    then white space and an opening parenthesis. *)
Definition actionCall : Matcher := fun s =>
  let '(m, r1) :=
    match s with
    | String c s' => if isModifier c then (String c EmptyString, s') else (EmptyString, s)
    | EmptyString => (EmptyString, s)
    end in
  match r1 with
  | String c r2 =>
      if isAlpha c then
        let '(a, r3) := span isIdentChar r2 in
        let '(ws, r4) := span JS.isWhiteSpace r3 in
        r5 ← lit "(" r4;
        let name := m +:+ String c a in
        Some (name +:+ ws +:+ "(", name, r5)
      else None
  | EmptyString => None
  end.

(** Two slashes, the captured rest of the line, and the LF that ends it. *)
Definition comment : Matcher := fun s =>
  r1 ← lit "//" s;
  let '(t, r2) := JS.spanDot r1 in
  match r2 with
  | String c r3 =>
      if (c =? JS.LF)%char then Some ("//" +:+ t +:+ String JS.LF EmptyString, t, r3)
      else None
  | EmptyString => None
  end.

(** The shortest prefix that a star and a slash follow (lazy match). *)
Fixpoint untilClose (s : string) : option (string * string) :=
  match s with
  | EmptyString => None
  | String c s' =>
      match (if (c =? "*")%char then lit "/" s' else None) with
      | Some r => Some (EmptyString, r)
      | None => '(a, b) ← untilClose s'; Some (String c a, b)
      end
  end.

(** Slash star, the captured shortest text, star slash. *)
Definition mlComment : Matcher := fun s =>
  r1 ← lit "/*" s;
  '(t, r2) ← untilClose r1;
  Some ("/*" +:+ t +:+ "*/", t, r2).

(** A double quote, the captured run of characters other than a double
    quote, and a double quote. *)
Definition stringLit : Matcher := fun s =>
  match s with
  | String c r1 =>
      if (c =? JS.DQUOTE)%char then
        let '(t, r2) := span (fun c => negb (c =? JS.DQUOTE)%char) r1 in
        match r2 with
        | String _ r3 =>
            Some (String JS.DQUOTE t +:+ String JS.DQUOTE EmptyString, t, r3)
        | EmptyString => None
        end
      else None
  | EmptyString => None
  end.

(** The exponent of a number: e or E, an optional sign, one digit or more. *)
Definition exponent (s : string) : option (string * string) :=
  match s with
  | String e r1 =>
      if (e =? "e")%char || (e =? "E")%char then
        let '(sg, r2) :=
          match r1 with
          | String c r => if (c =? "-")%char || (c =? "+")%char
                          then (String c EmptyString, r) else (EmptyString, r1)
          | EmptyString => (EmptyString, r1)
          end in
        match span isDigit r2 with
        | (String d ds, r3) => Some (String e sg +:+ String d ds, r3)
        | (EmptyString, _) => None
        end
      else None
  | EmptyString => None
  end.

(** One digit or more, then optionally: an optional dot, digits, and an
    optional exponent.  Every part after the first digits is optional, so
    the greedy choice at each step is the match. *)
Definition float : Matcher := fun s =>
  match span isDigit s with
  | (String d ds, r1) =>
      let '(dot, r2) :=
        match r1 with
        | String c r => if (c =? ".")%char then (String c EmptyString, r) else (EmptyString, r1)
        | EmptyString => (EmptyString, r1)
        end in
      let '(frac, r3) := span isDigit r2 in
      let '(ex, r4) :=
        match exponent r3 with
        | Some (e, r) => (e, r)
        | None => (EmptyString, r3)
        end in
      let t := String d ds +:+ dot +:+ frac +:+ ex in
      Some (t, t, r4)
  | (EmptyString, _) => None
  end.

(** An identifier. *)
Definition identifier : Matcher := fun s =>
  '(a, r) ← ident s; Some (a, a, r).

(** Blanks, then a semicolon. *)
Definition eos : Matcher := fun s =>
  let '(ws, r1) := span isBlank s in
  r2 ← lit ";" r1;
  Some (ws +:+ ";", ws +:+ ";", r2).

(** One blank or more. *)
Definition whitespace : Matcher := fun s =>
  match span isBlank s with
  | (String c ws, r) => Some (String c ws, String c ws, r)
  | (EmptyString, _) => None
  end.

(** What an entry of the table matches: string literals, or a regular
    expression. *)
Inductive Pattern :=
| Literals (words : list string)
| RegExp (m : Matcher).

Record Entry := mkEntry {
  entry_type : string;
  entry_match : Pattern;
  entry_lineBreaks : bool
}.

(** The table, in the order of the source. *)
Definition tokens : list Entry :=
  [ mkEntry "include" (RegExp (angled "include")) true;
    mkEntry "use" (RegExp (angled "use")) true;
    mkEntry "moduleDefinition" (RegExp (definition "module")) true;
    mkEntry "functionDefinition" (RegExp (definition "function")) true;
    mkEntry "actionCall" (RegExp actionCall) true;
    mkEntry "comment" (RegExp comment) true;
    mkEntry "mlComment" (RegExp mlComment) true;
    mkEntry "comma" (Literals [","]) false;
    mkEntry "seperator" (Literals [":"]) false;
    mkEntry "lvect" (Literals ["["]) false;
    mkEntry "rvect" (Literals ["]"]) false;
    mkEntry "lparent" (Literals ["("]) false;
    mkEntry "rparent" (Literals [")"]) false;
    mkEntry "lblock" (Literals ["{"]) false;
    mkEntry "rblock" (Literals ["}"]) false;
    mkEntry "bool" (Literals ["true"; "false"]) false;
    mkEntry "operator1" (RegExp (firstOf [literal "*"; literal "/"; literal "%"])) false;
    mkEntry "operator2" (RegExp (firstOf [literal "+"; literal "-"])) false;
    mkEntry "operator3"
      (RegExp (firstOf [literal "<"; literal "<="; literal "=="; literal "!=";
                        literal ">="; literal ">"; literal "&&"; literal "||"])) false;
    mkEntry "assign" (Literals ["="]) false;
    mkEntry "identifier" (RegExp identifier) false;
    mkEntry "string" (RegExp stringLit) false;
    mkEntry "float" (RegExp float) false;
    mkEntry "eol" (RegExp (literal (String JS.LF EmptyString))) true;
    mkEntry "eos" (RegExp eos) false;
    mkEntry "whitespace" (RegExp whitespace) false ].

(** A rule of the compiled scanner: its type, what it matches, whether
    it counts line breaks, and its keywords, each with the type that a
    token takes when its text is the keyword. *)
Record Rule := mkRule {
  rule_type : string;
  rule_match : Matcher;
  rule_lineBreaks : bool;
  rule_keywords : list (string * string)
}.

(** A regular expression matches a word as a whole. *)
Definition matchesWhole (m : Matcher) (word : string) : bool :=
  match m word with
  | Some (text, _, EmptyString) => String.eqb text word
  | _ => false
  end.

(** The entry that takes a literal as its keyword: the first entry of
    the table with a regular expression that matches it as a whole. *)
Definition keywordOwner (entries : list Entry) (word : string) : option string :=
  entry_type <$>
    List.find (fun e => match entry_match e with
                        | RegExp m => matchesWhole m word
                        | Literals _ => false
                        end) entries.

Definition keywordsOf (entries : list Entry) (owner : string) : list (string * string) :=
  flat_map (fun e =>
              match entry_match e with
              | Literals words =>
                  omap (fun word =>
                          match keywordOwner entries word with
                          | Some o => if String.eqb o owner then Some (word, entry_type e)
                                      else None
                          | None => None
                          end) words
              | RegExp _ => []
              end) entries.

(** The rule of an entry; an entry whose literals are all keywords has
    none.  (Of several literals that an entry keeps, the longer ones are
    tried first; no entry of this table keeps more than one.) *)
Definition compileEntry (entries : list Entry) (e : Entry) : option Rule :=
  match entry_match e with
  | RegExp m =>
      Some (mkRule (entry_type e) m (entry_lineBreaks e) (keywordsOf entries (entry_type e)))
  | Literals words =>
      match List.filter (fun word => match keywordOwner entries word with
                                     | Some _ => false
                                     | None => true
                                     end) words with
      | [] => None
      | words' => Some (mkRule (entry_type e) (firstOf (map literal words'))
                               (entry_lineBreaks e) [])
      end
  end.

Definition compile (entries : list Entry) : list Rule :=
  omap (compileEntry entries) entries.

(** The rules of the scanner of src/index.js. *)
Definition rules : list Rule := compile tokens.

(** The type of a token of a rule, given its text. *)
Definition tokenType (r : Rule) (text : string) : string :=
  match List.find (fun kw => String.eqb (fst kw) text) (rule_keywords r) with
  | Some kw => snd kw
  | None => rule_type r
  end.

(** The type of the rule declared with [moo.error]. *)
Definition errorType : string := "LexerError".

(** The scanner's state: what is left of the buffer, and the position
    of its first character. *)
Record Lexer := mkLexer {
  lx_rest : string;
  lx_index : Z;
  lx_line : Z;
  lx_col : Z
}.

(** [lexer.reset(code)] *)
Definition reset (code : string) (_ : Lexer) : Lexer := mkLexer code 0 1 1.

Fixpoint firstRule (rules : list Rule) (s : string) : option (Rule * Match) :=
  match rules with
  | [] => None
  | r :: rules' =>
      match rule_match r s with
      | Some m => Some (r, m)
      | None => firstRule rules' s
      end
  end.

(** Number of LF in a text, and the index just after the last one
    (1 when there is none). *)
Fixpoint countNL (s : string) (pos : Z) (acc : Z * Z) : Z * Z :=
  match s with
  | EmptyString => acc
  | String c s' =>
      countNL s' (pos + 1) (if (c =? JS.LF)%char then (fst acc + 1, pos + 1) else acc)
  end.

(** [lexer.next()]: nothing at the end of the buffer, the next token
    otherwise. *)
Definition next (lx : Lexer) : option (Token * Lexer) :=
  match lx_rest lx with
  | EmptyString => None
  | String _ _ =>
      let '(ty, breaks, (text, val, rest)) :=
        match firstRule rules (lx_rest lx) with
        | Some (r, (text, val, rest)) =>
            (tokenType r text, rule_lineBreaks r, (text, val, rest))
        | None => (errorType, true, (lx_rest lx, lx_rest lx, EmptyString))
        end in
      let '(lb, nl) := if breaks then countNL text 0 (0, 1) else (0, 1) in
      let sz := JS.strlen text in
      let token := mkToken ty val (lx_index lx) sz lb (lx_line lx) (lx_col lx) in
      Some (token,
            mkLexer rest (lx_index lx + sz) (lx_line lx + lb)
                    (if lb =? 0 then lx_col lx + sz else sz - nl + 1))
  end.

(** The tokens that the calls of [next] yield from a state on, each with
    the state it leaves. *)
Fixpoint unfold (fuel : nat) (lx : Lexer) : list (Token * Lexer) :=
  match fuel with
  | O => []
  | S fuel' =>
      match next lx with
      | None => []
      | Some (t, lx') => (t, lx') :: unfold fuel' lx'
      end
  end.

Definition stream (lx : Lexer) : list (Token * Lexer) :=
  unfold (S (String.length (lx_rest lx))) lx.

Definition tokenize (code : string) : list Token :=
  map fst (stream (mkLexer code 0 1 1)).

End Tokens.

(** ** ast/nodes: the node classes, over an explicit object store

    Node objects are mutable and hold references to each other (children
    down, parent up), so they live in a store and are named by their
    index in it.  The payloads that the value classes of ast/values
    provide (literals, expressions, parameter lists) are kept abstract:
    they are the type parameter [Value]; an ExpressionNode is such a
    payload, it is never an entry of a children list. *)

Module Nodes.

Abbreviation ref := nat.

Section Classes.
Context {Value : Type}.

(** The class of an object and the fields its constructor adds. *)
Inductive Fields :=
| FNode
| FRoot
| FComment (text : string) (multiline : bool)
| FVariable (name : string) (value : Value)
| FInclude (file : string)
| FUse (file : string)
| FModule (name : string) (params : Value)
| FForLoop (params : Value)
| FAction (name modifier : string) (params : Value) (label : option string)
| FFunction (name : string) (params expression : Value).

(** The fields of the base class; a property that was never assigned
    reads as [None] (children as the empty list). *)
Record Obj := mkObj {
  children : list ref;
  parent : option ref;
  location : option Location;
  fields : Fields
}.

Definition set_children (cs : list ref) (o : Obj) : Obj :=
  mkObj cs (parent o) (location o) (fields o).
Definition push_child (c : ref) (o : Obj) : Obj :=
  mkObj (children o ++ [c]) (parent o) (location o) (fields o).
Definition set_parent (p : ref) (o : Obj) : Obj :=
  mkObj (children o) (Some p) (location o) (fields o).
Definition set_location (l : option Location) (o : Obj) : Obj :=
  mkObj (children o) (parent o) l (fields o).
Definition set_fields (f : Fields) (o : Obj) : Obj :=
  mkObj (children o) (parent o) (location o) f.
Definition set_label (l : string) (o : Obj) : Obj :=
  match fields o with
  | FAction n m p _ => set_fields (FAction n m p (Some l)) o
  | _ => o
  end.

(** [new]: the object exists, without properties, before the
    constructor body runs. *)
Definition alloc (h : list Obj) : ref * list Obj :=
  (List.length h, h ++ [mkObj [] None None FNode]).

(** [_.filter(children, x => !!x)]: an array entry is a node or is
    [null]/[undefined]. *)
Definition truthy (arr : list (option ref)) : list ref := omap id arr.

(** The body of [Node.constructor(children, token)]; [children] is
    [None] when the argument is not an array. *)
Definition Node_constructor (this : ref) (children : option (list (option ref)))
    (token : option Token) (h : list Obj) : list Obj :=
  let h1 :=
    match children with
    | Some arr =>
        let cs := truthy arr in
        let h' := foldl (fun h child => alter (set_parent this) child h) h cs in
        alter (set_children cs) this h'
    | None => alter (set_children []) this h
    end in
  alter (set_location (match token with
                       | Some _ => Some (Loc.new token)
                       | None => None
                       end)) this h1.

(** [Node.setChildren(children)] *)
Definition setChildren (this : ref) (children : list (option ref)) (h : list Obj) : list Obj :=
  let cs := truthy children in
  let h0 := alter (set_children []) this h in
  foldl (fun h child => alter (set_parent this) child (alter (push_child child) this h)) h0 cs.

(** [ActionNode.setLabel(label)] *)
Definition setLabel (this : ref) (label : string) (h : list Obj) : list Obj :=
  alter (set_label label) this h.

(** A subclass constructor: [super(children, token)], then its own
    fields. *)
Definition construct (f : Fields) (children : option (list (option ref)))
    (token : option Token) (h : list Obj) : ref * list Obj :=
  let '(this, h0) := alloc h in
  (this, alter (set_fields f) this (Node_constructor this children token h0)).

Definition new_Node children token := construct FNode children token.

Definition new_RootNode (children : option (list (option ref))) :=
  construct FRoot children None.

(** [this.text = multiline ? text : text.trim()] *)
Definition new_CommentNode (token : option Token) (text : string) (multiline : bool) :=
  construct (FComment (if multiline then text else JS.trim text) multiline) None token.

Definition new_VariableNode (token : option Token) (name : string) (value : Value) :=
  construct (FVariable name value) None token.

Definition new_IncludeNode (token : option Token) (file : string) :=
  construct (FInclude file) None token.

Definition new_UseNode (token : option Token) (file : string) :=
  construct (FUse file) None token.

Definition new_ModuleNode (token : option Token) (name : string) (params : Value)
    (block : option (list (option ref))) :=
  construct (FModule name params) block token.

Definition new_ForLoopNode (token : option Token) (params : Value)
    (block : option (list (option ref))) :=
  construct (FForLoop params) block token.

(** The match of the unanchored expression of [ActionNode]: one optional
    modifier character (first group), then the longest run of characters
    other than line terminators (second group).  Both parts may be
    empty, so the match is found at index 0; the third component is what
    follows the match. *)
Definition actionMatch (name : string) : string * string * string :=
  let '(g1, r) :=
    match name with
    | String c s' =>
        if Tokens.isModifier c then (String c EmptyString, s') else (EmptyString, name)
    | EmptyString => (EmptyString, name)
    end in
  let '(g2, after) := JS.spanDot r in
  (g1, g2, after).

(** [name.replace(re, '$2')] and [name.replace(re, '$1')]: the match
    is replaced by the group, the text after it stays. *)
Definition actionName (name : string) : string :=
  let '(_, g2, after) := actionMatch name in g2 +:+ after.
Definition actionModifier (name : string) : string :=
  let '(g1, _, after) := actionMatch name in g1 +:+ after.

Definition new_ActionNode (token : option Token) (name : string) (params : Value) :=
  construct (FAction (actionName name) (actionModifier name) params None) None token.

Definition new_FunctionNode (token : option Token) (name : string)
    (params expression : Value) :=
  construct (FFunction name params expression) None token.

(** *** Reductions *)

(** Modelled from the spec: the reduction actions of the grammar (the
    compiled grammar nearley/grammar is not part of the sources).  Each
    completed production instantiates one node from the results of its
    sub-productions; a block is an array whose entries are statements or
    null.  A script records which constructor a reduction calls and
    with what; an action call may then receive a label and a block
    through its setters. *)
Inductive Script :=
| SComment (token : option Token) (text : string) (multiline : bool)
| SVariable (token : option Token) (name : string) (value : Value)
| SInclude (token : option Token) (file : string)
| SUse (token : option Token) (file : string)
| SModule (token : option Token) (name : string) (params : Value)
    (block : option (list (option Script)))
| SForLoop (token : option Token) (params : Value)
    (block : option (list (option Script)))
| SAction (token : option Token) (name : string) (params : Value)
    (label : option string) (block : option (list (option Script)))
| SFunction (token : option Token) (name : string) (params expression : Value).

(** Modelled from the spec: the order in which the reductions of
    nearley/grammar run, the sub-results first, left to right, then the
    node that holds them. *)
Fixpoint run (s : Script) (h : list Obj) : ref * list Obj :=
  let runBlock :=
    fix runBlock (l : list (option Script)) (h : list Obj) : list (option ref) * list Obj :=
      match l with
      | [] => ([], h)
      | None :: l' => let '(rs, h') := runBlock l' h in (None :: rs, h')
      | Some s :: l' =>
          let '(r, h1) := run s h in
          let '(rs, h2) := runBlock l' h1 in (Some r :: rs, h2)
      end in
  let runArg (b : option (list (option Script))) (h : list Obj) :=
    match b with
    | Some l => let '(rs, h') := runBlock l h in (Some rs, h')
    | None => (None, h)
    end in
  match s with
  | SComment token text multiline => new_CommentNode token text multiline h
  | SVariable token name value => new_VariableNode token name value h
  | SInclude token file => new_IncludeNode token file h
  | SUse token file => new_UseNode token file h
  | SModule token name params block =>
      let '(arg, h1) := runArg block h in new_ModuleNode token name params arg h1
  | SForLoop token params block =>
      let '(arg, h1) := runArg block h in new_ForLoopNode token params arg h1
  | SAction token name params label block =>
      let '(arg, h1) := runArg block h in
      let '(this, h2) := new_ActionNode token name params h1 in
      let h3 := match label with Some l => setLabel this l h2 | None => h2 end in
      (this, match arg with Some rs => setChildren this rs h3 | None => h3 end)
  | SFunction token name params expression =>
      new_FunctionNode token name params expression h
  end.

Fixpoint runBlock (l : list (option Script)) (h : list Obj) : list (option ref) * list Obj :=
  match l with
  | [] => ([], h)
  | None :: l' => let '(rs, h') := runBlock l' h in (None :: rs, h')
  | Some s :: l' =>
      let '(r, h1) := run s h in
      let '(rs, h2) := runBlock l' h1 in (Some r :: rs, h2)
  end.

Definition runArg (b : option (list (option Script))) (h : list Obj) :
    option (list (option ref)) * list Obj :=
  match b with
  | Some l => let '(rs, h') := runBlock l h in (Some rs, h')
  | None => (None, h)
  end.

(** *** Trees as values

    What a tree of node objects looks like from its root, without
    object identities and back-references. *)
Inductive Tree := TNode (f : Fields) (loc : option Location) (sub : list Tree).

Definition tokenLocation (token : option Token) : option Location :=
  match token with Some _ => Some (Loc.new token) | None => None end.

Fixpoint denote (s : Script) : Tree :=
  let denoteArg (b : option (list (option Script))) : list Tree :=
    match b with
    | Some l =>
        (fix go (l : list (option Script)) : list Tree :=
           match l with
           | [] => []
           | None :: l' => go l'
           | Some s :: l' => denote s :: go l'
           end) l
    | None => []
    end in
  match s with
  | SComment token text multiline =>
      TNode (FComment (if multiline then text else JS.trim text) multiline)
            (tokenLocation token) []
  | SVariable token name value => TNode (FVariable name value) (tokenLocation token) []
  | SInclude token file => TNode (FInclude file) (tokenLocation token) []
  | SUse token file => TNode (FUse file) (tokenLocation token) []
  | SModule token name params block =>
      TNode (FModule name params) (tokenLocation token) (denoteArg block)
  | SForLoop token params block =>
      TNode (FForLoop params) (tokenLocation token) (denoteArg block)
  | SAction token name params label block =>
      TNode (FAction (actionName name) (actionModifier name) params label)
            (tokenLocation token) (denoteArg block)
  | SFunction token name params expression =>
      TNode (FFunction name params expression) (tokenLocation token) []
  end.

Fixpoint denoteBlock (l : list (option Script)) : list Tree :=
  match l with
  | [] => []
  | None :: l' => denoteBlock l'
  | Some s :: l' => denote s :: denoteBlock l'
  end.

Definition denoteArg (b : option (list (option Script))) : list Tree :=
  match b with Some l => denoteBlock l | None => [] end.

(** [tree_at h par r t]: in store [h] the object [r] is the root of a
    tree of shape [t], its parent property is [par], and every node
    below it has the node that lists it as a child for parent. *)
Inductive tree_at (h : list Obj) : option ref -> ref -> Tree -> Prop :=
| tree_at_node par r f loc cs ts :
    h !! r = Some (mkObj cs par loc f) ->
    Forall2 (tree_at h (Some r)) cs ts ->
    tree_at h par r (TNode f loc ts).

(** Nodes reachable from a root through children lists. *)
Inductive reachable (h : list Obj) (root : ref) : ref -> Prop :=
| reach_root : reachable h root root
| reach_child p o c :
    reachable h root p -> h !! p = Some o -> c ∈ children o -> reachable h root c.

End Classes.

Arguments Fields : clear implicits.
Arguments Obj : clear implicits.
Arguments Script : clear implicits.
Arguments Tree : clear implicits.

(** The store: the objects allocated so far, in allocation order. *)
Abbreviation Heap Value := (list (Obj Value)).

End Nodes.

(** ** src/index.js: the SCADParser class *)

(** The compiled grammar, as nearley runs it: a fresh parser state,
    [feed] of one token (which throws, [None], when no derivation can
    continue with that token), and the results of the derivations that
    are complete.  A result is the array that the reductions built for
    the program: its statements, in order, with null entries where a
    reduction returned none. *)
Record Grammar (Value : Type) := mkGrammar {
  PState : Type;
  start : PState;
  feed : PState -> Token -> option PState;
  results : PState -> list (list (option (Nodes.Script Value)))
}.

Arguments PState {Value}.
Arguments start {Value}.
Arguments feed {Value}.
Arguments results {Value}.

(** Arguments of the entry point: a string, or none. *)
Inductive Arg := Undefined | Null | Str (s : string).

Definition isString (a : Arg) : bool :=
  match a with Str _ => true | _ => false end.

(** The property key that an argument selects in a cache. *)
Definition toKey (a : Arg) : string :=
  match a with Undefined => "undefined" | Null => "null" | Str s => s end.

(** What a call can throw. *)
Inductive Exn :=
| Error (message : string)
| LexerError (message : string) (location : Location)
| ParserError (message : string) (lastTokens : list Token)
    (location : Location) (excerpt : string)
| TypeError
| FsError.

Inductive Outcome (A : Type) :=
| Return (a : A)
| Throw (e : Exn).

Arguments Return {A}.
Arguments Throw {A}.

(** The fields of an instance ([results] stays null and is not kept).
    The three caches are arrays that the code uses as maps from file
    names.  A cache is modelled by the map of the values that were
    stored under names.  An array does not store a value under the
    names length and __proto__ as it does under the others (assigning
    to length resizes the array or throws a RangeError, assigning to
    __proto__ replaces the prototype or does nothing): the model does
    not follow the code at these two names, and the statements that
    depend on what is stored under the name of the file are made for
    the other names. *)
Record SCADParser := mkSCADParser {
  ignoredTokens : list string;
  cache : gmap string Nodes.ref;
  codeCache : gmap string string;
  tokenCache : gmap string (list Token)
}.

(** [new SCADParser()] *)
Definition new_SCADParser : SCADParser :=
  mkSCADParser ["whitespace"; "eol"] ∅ ∅ ∅.

Definition with_cache (f : gmap string Nodes.ref -> gmap string Nodes.ref)
    (p : SCADParser) : SCADParser :=
  mkSCADParser (ignoredTokens p) (f (cache p)) (codeCache p) (tokenCache p).
Definition with_codeCache (f : gmap string string -> gmap string string)
    (p : SCADParser) : SCADParser :=
  mkSCADParser (ignoredTokens p) (cache p) (f (codeCache p)) (tokenCache p).
Definition with_tokenCache (f : gmap string (list Token) -> gmap string (list Token))
    (p : SCADParser) : SCADParser :=
  mkSCADParser (ignoredTokens p) (cache p) (codeCache p) (f (tokenCache p)).

(** [_.each(collection, iteratee)]: left to right, until the iteratee
    returns false.  The iteratee acts on the variables it closes over. *)
Fixpoint each {A S : Type} (l : list A) (iteratee : A -> S -> S * bool) (s : S) : S :=
  match l with
  | [] => s
  | x :: l' =>
      let '(s', continue) := iteratee x s in
      if continue then each l' iteratee s' else s'
  end.

(** [getToken(column, line, file)] *)
Definition getToken (column line : Z) (file : string) (this : SCADParser) : option Token :=
  let out := None in
  each (default [] (tokenCache this !! file))
       (fun token out =>
          if (line =? t_line token) &&
             ((column >=? t_col token) && (column <? t_col token + t_size token))
          then (Some token, false)
          else (out, true))
       out.

Definition NL : string := String JS.LF EmptyString.
Definition QUOTE : string := String JS.DQUOTE EmptyString.

(** [pad(n, width)], with the default filler 0. *)
Definition pad (n width : Z) : string :=
  let n := JS.numToString n in
  if JS.strlen n >=? width then n
  else JS.times (width - JS.strlen n) "0" +:+ n.

(** [drawMarker(indent)] for the given location. *)
Definition drawMarker (location : Location) (indent : Z) : string :=
  JS.times indent " " +:+ JS.times (loc_column location + 1) " "
  +:+ "^" +:+ JS.times (loc_size location - 2) "-" +:+ "^".

(** [getCodeExcerpt(file, location, lines)]; [None] when the file has
    no cached code (the call then throws a TypeError). *)
Definition getCodeExcerpt (file : string) (location : Location) (lines : Z)
    (this : SCADParser) : option string :=
  src ← codeCache this !! file;
  let code := JS.splitLines src in
  let start := loc_line location - (lines + 2) in
  let start := if start <? 0 then 0 else start in
  let end_ := loc_line location + (lines - 1) in
  let end_ := if end_ >=? Z.of_nat (List.length code)
              then Z.of_nat (List.length code) - 1 else end_ in
  let code := JS.slice code start (loc_line location + (lines - 1)) in
  let width := JS.strlen (JS.numToString end_) in
  Some (JS.join NL
    (imap (fun index line =>
       let index := Z.of_nat index in
       if negb (index =? loc_line location - 1)
       then pad (index + start + 1) width +:+ ": " +:+ line
       else pad (index + start + 1) width +:+ ": " +:+ line +:+ NL
            +:+ drawMarker location width)
     code)).

(** The global state a parse acts on: the node objects, the one scanner
    of the module, and, as history, the tokens the scanner has produced
    and the tokens that were fed to a parser. *)
Record World (Value : Type) := mkWorld {
  heap : Nodes.Heap Value;
  lexer : Tokens.Lexer;
  lexLog : list Token;
  feedLog : list Token
}.

Arguments mkWorld {Value}.
Arguments heap {Value}.
Arguments lexer {Value}.
Arguments lexLog {Value}.
Arguments feedLog {Value}.

Section Parser.
Context {Value : Type}.
Variable G : Grammar Value.
(** [fs.readFileSync(path, 'utf8')]; [None] when it throws. *)
Variable readFileSync : string -> option string.

Inductive LoopResult :=
| Finished (parser : PState G)
| Threw.

(** The loop of [parse] over the tokens the scanner yields, each with
    the scanner's state after it. *)
Fixpoint feedLoop (toks : list (Token * Tokens.Lexer)) (parser : PState G)
    (file : string) (this : SCADParser) (w : World Value) :
    LoopResult * SCADParser * World Value :=
  match toks with
  | [] => (Finished parser, this, w)
  | (token, lx) :: toks' =>
      let w := mkWorld (heap w) lx (lexLog w ++ [token]) (feedLog w) in
      if existsb (String.eqb (t_type token)) (ignoredTokens this)
      then feedLoop toks' parser file this w
      else
        let this := with_tokenCache (alter (fun c => c ++ [token]) file) this in
        let w := mkWorld (heap w) (lexer w) (lexLog w) (feedLog w ++ [token]) in
        match feed G parser token with
        | Some parser' => feedLoop toks' parser' file this w
        | None => (Threw, this, w)
        end
  end.

(** The [catch] block of [parse].  It reads [this.tokenCache[file]],
    which [parse] has set, and calls [getCodeExcerpt], which throws when
    the file has no cached code. *)
Definition parse_catch (file : string) (this : SCADParser) : Exn :=
  match tokenCache this !! file with
  | None => TypeError
  | Some captured =>
      let last_ := last captured in
      if match last_ with
         | Some l => String.eqb (t_type l) "LexerError"
         | None => false
         end
      then
        let location := Loc.new last_ in
        match getCodeExcerpt file location 3 this with
        | None => TypeError
        | Some excerpt =>
            LexerError ("Lexer error:" +:+ NL
                        +:+ match last_ with Some l => t_value l | None => "undefined" end
                        +:+ " " +:+ Loc.toString location +:+ NL
                        +:+ "Excerpt:" +:+ NL +:+ NL +:+ excerpt)
                       location
        end
      else
        let location := Loc.new last_ in
        match getCodeExcerpt file location 3 this with
        | None => TypeError
        | Some excerpt =>
            let n := Z.of_nat (List.length captured) in
            let lastTokens := JS.slice captured (n - 3) n in
            ParserError ("Parser error: Unexpected token '"
                         +:+ match last_ with Some l => t_value l | None => "undefined" end
                         +:+ "' (Type: "
                         +:+ match last_ with Some l => t_type l | None => "undefined" end
                         +:+ ", " +:+ Loc.toString location +:+ ")" +:+ NL
                         +:+ "Last tokens: [" +:+ QUOTE
                         +:+ JS.join (QUOTE +:+ ", " +:+ QUOTE)
                                     (map tokenToString lastTokens)
                         +:+ QUOTE +:+ "]" +:+ NL
                         +:+ "Excerpt:" +:+ NL +:+ NL +:+ excerpt)
                        lastTokens location excerpt
        end
  end.

(** [parse(code, file)].  The reductions of the grammar, which build the
    nodes, are not in the sources: the model has them as the scripts of
    a result and runs these when the result is taken.  The node objects
    that reductions build while tokens are fed, among them those of a
    parse that fails later, are not in the model: of the store, the
    statements say which trees stand in it, not which objects it does
    not hold. *)
Definition parse (code file : string) (this : SCADParser) (w : World Value) :
    Outcome Nodes.ref * SCADParser * World Value :=
  let this := with_tokenCache (insert file []) this in
  let parser := start G in
  let w := mkWorld (heap w) (Tokens.reset code (lexer w)) (lexLog w) (feedLog w) in
  match feedLoop (Tokens.stream (lexer w)) parser file this w with
  | (Finished parser, this, w) =>
      let '(arg, h) := Nodes.runArg (head (results G parser)) (heap w) in
      let '(root, h) := Nodes.new_RootNode arg h in
      (Return root, this, mkWorld h (lexer w) (lexLog w) (feedLog w))
  | (Threw, this, w) => (Throw (parse_catch file this), this, w)
  end.

(** [parseAST(file, code = null)] *)
Definition parseAST (file code : Arg) (this : SCADParser) (w : World Value) :
    Outcome Nodes.ref * SCADParser * World Value :=
  let code := match code with Undefined => Null | _ => code end in
  if negb (isString file) && negb (isString code)
  then (Throw (Error "You have to pass either code or file parameter!"), this, w)
  else
    let key := toKey file in
    let source :=
      match code with
      | Str (String c s) => Return (String c s)
      | _ =>
          match file with
          | Str path =>
              match readFileSync path with
              | Some src => Return src
              | None => Throw FsError
              end
          | _ => Throw TypeError
          end
      end in
    match source with
    | Throw e => (Throw e, this, w)
    | Return src =>
        let this := with_codeCache (insert key src) this in
        match parse src key this w with
        | (Return root, this, w) => (Return root, with_cache (insert key root) this, w)
        | (Throw e, this, w) => (Throw e, this, w)
        end
    end.

End Parser.

(** ** src/index.js: findTokens and render *)

(** A string argument in a condition: the string when it is not empty,
    nothing for the empty string, null and undefined. *)
Definition truthyString (a : Arg) : option string :=
  match a with
  | Str (String c s) => Some (String c s)
  | _ => None
  end.

(** [findTokens(value = null, type = null, file)]: the filter object
    gets a property for each argument that is truthy, and [_.filter]
    keeps the tokens whose properties equal those of the filter object;
    over a missing list it yields the empty list. *)
Definition findTokens (value type : Arg) (file : string) (this : SCADParser) : list Token :=
  let find_value := truthyString value in
  let find_type := truthyString type in
  List.filter
    (fun token =>
       match find_value with Some v => String.eqb (t_value token) v | None => true end &&
       match find_type with Some ty => String.eqb (t_type token) ty | None => true end)
    (default [] (tokenCache this !! file)).

(** The options of [render] that the code reads.  An option that is
    not given is undefined. *)
Record RenderOptions := mkRenderOptions {
  binaryPath : Arg;
  outputFile : Arg;
  colorScheme : Arg;
  inputFile : Arg
}.

(** What [render] hands back: a promise of the outcome of a command
    that has been started, or a promise that a file is written and the
    command started once it is. *)
Inductive Job :=
| Exec (command : string)
| WriteThenExec (path data command : string).

Section Render.
(** [path.basename] on a string. *)
Variable basename : string -> string.

(** [_.merge] of the defaults and the options: an option that is
    undefined leaves the default. *)
Definition mergeOptions (options : RenderOptions) : RenderOptions :=
  mkRenderOptions
    (match binaryPath options with
     | Undefined => Str "/usr/bin/openscad"
     | given => given
     end)
    (outputFile options) (colorScheme options) (inputFile options).

(** The command of the inner [render(options)]; a value that is not a
    string is concatenated as its name. *)
Definition commandLine (options : RenderOptions) : string :=
  toKey (binaryPath options) +:+ " -o " +:+ toKey (outputFile options)
  +:+ " --colorscheme=" +:+ toKey (colorScheme options)
  +:+ " " +:+ toKey (inputFile options).

Definition with_inputFile (f : Arg) (o : RenderOptions) : RenderOptions :=
  mkRenderOptions (binaryPath o) (outputFile o) (colorScheme o) f.

(** [render(code, file, options)]; [path.basename] throws a TypeError
    on an argument that is not a string; without code and file the
    method returns undefined. *)
Definition render (code file : Arg) (options : RenderOptions) : Outcome (option Job) :=
  let _options := mergeOptions options in
  match truthyString code, truthyString file with
  | None, Some _ =>
      Return (Some (Exec (commandLine (with_inputFile file _options))))
  | Some _, _ =>
      match file with
      | Str f =>
          let tmpFile :=
            "/tmp/" +:+ match basename f with
                        | EmptyString => "scad-parser_tmp.scad"
                        | name => name
                        end in
          Return (Some (WriteThenExec tmpFile "utf8"
                          (commandLine (with_inputFile (Str tmpFile) _options))))
      | _ => Throw TypeError
      end
  | None, None => Return None
  end.

End Render.

(** ** nearley/tokens: registerTokens *)

(** The keys of the token table, in its order, each with its keywords
    when its value is an array. *)
Definition tableKeys : list (string * list string) :=
  [ ("include", []); ("use", []); ("moduleDefinition", []); ("functionDefinition", []);
    ("actionCall", []); ("comment", []); ("mlComment", []); ("comma", []);
    ("seperator", []); ("lvect", []); ("rvect", []); ("lparent", []); ("rparent", []);
    ("lblock", []); ("rblock", []); ("bool", ["true"; "false"]); ("operator1", []);
    ("operator2", []); ("operator3", []); ("assign", []); ("identifier", []);
    ("string", []); ("float", []); ("eol", []); ("eos", []); ("whitespace", []);
    ("LexerError", []) ].

(** A tester: an object with a [test] method on tokens. *)
Definition Tester : Type := Token -> bool.

(** [registerTokens()], on the global object: for each key, a tester
    for each keyword under the name key_keyword, then the tester of the
    key. *)
Definition registerTokens (global : gmap string Tester) : gmap string Tester :=
  foldl (fun global '(key, keywords) =>
           let global :=
             foldl (fun global keyword =>
                      <[key +:+ "_" +:+ keyword :=
                          fun tok => String.eqb (t_type tok) key
                                     && String.eqb (t_value tok) keyword]> global)
                   global keywords in
           <[key := fun tok => String.eqb (t_type tok) key]> global)
        global tableKeys.

(** ** ast/nodes: the strings of nodes

    The [toString] methods of the node classes, over the object store.
    A value or an expression held by a node is an object of a value
    class (or an ExpressionNode), and a list of parameters is an array
    or null; what printing needs of them is the interface [ValueView]. *)

Module Printing.
Import Nodes.

(** [s.replace(pattern, replacement)] with a string pattern: the first
    occurrence is replaced. *)
Fixpoint replaceFirst (pattern replacement s : string) : string :=
  match Tokens.lit pattern s with
  | Some rest => replacement +:+ rest
  | None =>
      match s with
      | String c s' => String c (replaceFirst pattern replacement s')
      | EmptyString => EmptyString
      end
  end.

(** [/\n/.test(s)] *)
Fixpoint hasLF (s : string) : bool :=
  match s with
  | String c s' => (c =? JS.LF)%char || hasLF s'
  | EmptyString => false
  end.

(** The value classes of ast/values as the printing of nodes uses
    them: the string of a value, the name of its class, and for a list
    of parameters whether it is null and its length. *)
Class ValueView (Value : Type) := {
  Value_toString : Value -> string;
  Value_className : Value -> string;
  Value_isNull : Value -> bool;
  Value_length : Value -> Z
}.

Section ToString.
Context {Value : Type} {view : ValueView Value}.

(** [this.constructor.name] *)
Definition className (f : Fields Value) : string :=
  match f with
  | FNode => "Node"
  | FRoot => "RootNode"
  | FComment _ _ => "CommentNode"
  | FVariable _ _ => "VariableNode"
  | FInclude _ => "IncludeNode"
  | FUse _ => "UseNode"
  | FModule _ _ => "ModuleNode"
  | FForLoop _ => "ForLoopNode"
  | FAction _ _ _ _ => "ActionNode"
  | FFunction _ _ _ => "FunctionNode"
  end.

(** [indentToString(count)] *)
Definition indentToString (count : Z) : string := JS.times (count * 2) " ".

(** The [children] option of [toString]: missing, a string, an array
    of nodes, or an object of a value class. *)
Inductive ChildrenOption :=
| NoChildren
| Text (s : string)
| NodeArray (l : list ref)
| ValueObject (v : Value).

(** The array branch of [childrenToString]: each child printed one
    level deeper and followed by a line feed. *)
Fixpoint printArray (print : ref -> option Z -> option string) (indentCount : Z)
    (l : list ref) : option string :=
  match l with
  | [] => Some EmptyString
  | child :: l' =>
      s ← print child (Some (indentCount + 1));
      rest ← printArray print indentCount l';
      Some (s +:+ NL +:+ rest)
  end.

(** [childrenToString(options)]; [print] is the [toString] of a child. *)
Definition childrenToString (print : ref -> option Z -> option string) (indentCount : Z)
    (children : ChildrenOption) : option string :=
  let indent := indentToString indentCount in
  match children with
  | Text s =>
      Some (if hasLF s then replaceFirst NL (NL +:+ indent) s +:+ indent else s)
  | NodeArray l =>
      match l with
      | [] => Some EmptyString
      | _ => s ← printArray print indentCount l; Some (NL +:+ s +:+ indent)
      end
  | ValueObject v => Some (Value_toString v)
  | NoChildren => Some "(null)"
  end.

(** [paramsToString(params)]: the properties in their order. *)
Definition paramsToString (params : list (string * string)) : string :=
  JS.join EmptyString
    (map (fun '(name, val) => " " +:+ name +:+ "=" +:+ QUOTE +:+ val +:+ QUOTE) params).

(** [Node.toString(options)], for an object of class [name]. *)
Definition Node_toString (print : ref -> option Z -> option string) (name : string)
    (indentCount : Z) (params : list (string * string)) (children : ChildrenOption) :
    option string :=
  let indent := indentToString indentCount in
  let tag := replaceFirst "Node" EmptyString name in
  body ← childrenToString print indentCount children;
  Some (indent +:+ "<" +:+ tag +:+ paramsToString params +:+ ">" +:+ body
        +:+ "</" +:+ tag +:+ ">").

(** The property [params] of the printed parameters: present when the
    list is not null and not empty. *)
Definition listedParams (params : Value) : list (string * string) :=
  if negb (Value_isNull params) && (Value_length params >? 0)
  then [("params", Value_toString params)] else [].

(** The [toString] of each class; [options] is the indent of the
    options object, or nothing when the method is called without
    argument. *)
Definition toStringOf (print : ref -> option Z -> option string) (o : Obj Value)
    (options : option Z) : option string :=
  let indent := default 0 options in
  let name := className (fields o) in
  match fields o with
  | FNode | FForLoop _ =>
      Node_toString print name indent []
        (match options with None => NodeArray [] | Some _ => NoChildren end)
  | FRoot => Node_toString print name indent [] (NodeArray (children o))
  | FComment text _ => Node_toString print name indent [] (Text text)
  | FVariable vname value =>
      Node_toString print name indent
        [("name", vname); ("type", Value_className value)] (ValueObject value)
  | FInclude file | FUse file => Node_toString print name indent [] (Text file)
  | FModule mname params =>
      Node_toString print name indent
        (("name", mname) :: listedParams params) (NodeArray (children o))
  | FAction aname modifier params label =>
      Node_toString print name indent
        ([("name", aname); ("label", default "undefined" label); ("modifier", modifier)]
         ++ listedParams params)
        (NodeArray (children o))
  | FFunction fname params expression =>
      Node_toString print name indent
        (("name", fname) :: listedParams params) (ValueObject expression)
  end.

(** [node.toString(options)] in a store; the depth of the calls is
    bounded by [fuel]. *)
Fixpoint toString (fuel : nat) (h : list (Obj Value)) (this : ref) (options : option Z) :
    option string :=
  match fuel with
  | O => None
  | S fuel' => o ← h !! this; toStringOf (toString fuel' h) o options
  end.

End ToString.
End Printing.

(** ** ast/nodes: ExpressionNode

    The objects of this class refer to their operands, which are
    objects of the value classes or other ExpressionNodes; they live in
    a store of their own.  Of the fields of the base class they use
    [parent] only: their children are always the empty array and their
    location is null. *)

Module Expressions.
Import Nodes Printing.

Section Classes.
Context {Value : Type} {view : ValueView Value}.

Inductive Operand :=
| OValue (v : Value)
| OExpr (r : ref).

(** The fields of an ExpressionNode; [None] stands for null. *)
Record ExprObj := mkExprObj {
  e_parent : option ref;
  leftExpression : Operand;
  rightExpression : option Operand;
  operator : option string;
  negative : bool
}.

Definition set_e_parent (p : ref) (o : ExprObj) : ExprObj :=
  mkExprObj (Some p) (leftExpression o) (rightExpression o) (operator o) (negative o).

Definition set_negative (neg : bool) (o : ExprObj) : ExprObj :=
  mkExprObj (e_parent o) (leftExpression o) (rightExpression o) (operator o) neg.

(** [new ExpressionNode(leftExpression, rightExpression = null,
    operator = null, negative = false)]: an operand whose class is
    ExpressionNode gets the new object for parent. *)
Definition new_ExpressionNode (left : Operand) (right : option Operand)
    (op : option string) (neg : bool) (h : list ExprObj) : ref * list ExprObj :=
  let this := List.length h in
  let h := h ++ [mkExprObj None left right op neg] in
  let h := match left with
           | OExpr l => alter (set_e_parent this) l h
           | OValue _ => h
           end in
  let h := match right with
           | Some (OExpr r) => alter (set_e_parent this) r h
           | _ => h
           end in
  (this, h).

(** [setNegative(neg)] *)
Definition setNegative (this : ref) (neg : bool) (h : list ExprObj) : list ExprObj :=
  alter (set_negative neg) this h.

(** An operand in a template literal: its string; a [toString] that
    returns undefined prints as that word. *)
Definition operandString (print : ref -> option (option string)) (x : Operand) :
    option string :=
  match x with
  | OValue v => Some (Value_toString v)
  | OExpr r => default "undefined" <$> print r
  end.

(** The body of [toString()]; the result is [None] when the method
    returns undefined. *)
Definition toStringOf (print : ref -> option (option string)) (o : ExprObj) :
    option (option string) :=
  let sign := if negative o then "- " else EmptyString in
  match rightExpression o with
  | None =>
      l ← operandString print (leftExpression o);
      Some (Some (sign +:+ l))
  | Some rhs =>
      match operator o with
      | Some op =>
          l ← operandString print (leftExpression o);
          r ← operandString print rhs;
          Some (Some (sign +:+ "(" +:+ l +:+ op +:+ r +:+ ")"))
      | None => Some None
      end
  end.

(** [expression.toString()] in a store; the depth of the calls is
    bounded by [fuel]. *)
Fixpoint toString (fuel : nat) (h : list ExprObj) (this : ref) : option (option string) :=
  match fuel with
  | O => None
  | S fuel' => o ← h !! this; toStringOf (toString fuel' h) o
  end.

End Classes.

Arguments Operand : clear implicits.
Arguments ExprObj : clear implicits.

End Expressions.

(** ** A grammar fragment

    The compiled grammar (nearley/grammar) is not part of the sources.
    This instance follows the statement productions of the
    specification for the statements whose reductions need no value
    class: a comment token alone, an include or use token alone, and a
    variable definition, an identifier, the assignment sign, the tokens
    of an expression and the end of the statement. *)

Module Fragment.

Inductive Pending :=
| Idle
| AfterName (name : Token)
| InValue (name : Token) (text : string).

Record State := mkState {
  completed : list (option (Nodes.Script string));
  pending : Pending
}.

Definition isValueToken (t : Token) : bool :=
  existsb (String.eqb (t_type t))
    ["float"; "string"; "bool"; "identifier"; "operator1"; "operator2";
     "operator3"; "lvect"; "rvect"; "lparent"; "rparent"; "comma"; "seperator"].

Definition hasType (ty : string) (t : Token) : bool := String.eqb (t_type t) ty.

Definition reduce (st : State) (s : Nodes.Script string) : option State :=
  Some (mkState (completed st ++ [Some s]) Idle).

(** Modelled from the spec: the statement productions of nearley/grammar
    for comments, include, use and variable definitions.  At the start of
    a statement an identifier can only be continued by the assignment
    sign; the expression is kept as its source text. *)
Definition feed (st : State) (t : Token) : option State :=
  match pending st with
  | Idle =>
      if hasType "comment" t then reduce st (Nodes.SComment (Some t) (t_value t) false)
      else if hasType "mlComment" t then reduce st (Nodes.SComment (Some t) (t_value t) true)
      else if hasType "include" t then reduce st (Nodes.SInclude (Some t) (t_value t))
      else if hasType "use" t then reduce st (Nodes.SUse (Some t) (t_value t))
      else if hasType "identifier" t then Some (mkState (completed st) (AfterName t))
      else None
  | AfterName name =>
      if hasType "assign" t then Some (mkState (completed st) (InValue name EmptyString))
      else None
  | InValue name text =>
      if hasType "eos" t then
        match text with
        | EmptyString => None
        | _ => reduce st (Nodes.SVariable (Some name) (t_value name) text)
        end
      else if isValueToken t then Some (mkState (completed st) (InValue name (text +:+ t_value t)))
      else None
  end.

(** Modelled from the spec: the results of nearley/grammar, one
    derivation when the statements read so far are complete. *)
Definition results (st : State) : list (list (option (Nodes.Script string))) :=
  match pending st with
  | Idle => [completed st]
  | _ => []
  end.

Definition grammar : Grammar string :=
  mkGrammar string State (mkState [] Idle) feed results.

(** No file system. *)
Definition noFiles (path : string) : option string := None.

Definition world0 : World string :=
  mkWorld [] (Tokens.mkLexer EmptyString 0 1 1) [] [].

End Fragment.

(** * The vocabulary of the statements *)

(** ** Tokens and positions *)

(** The condition under which a token covers a position. *)
Definition covers (column line : Z) (t : Token) : Prop :=
  line = t_line t /\ t_col t <= column < t_col t + t_size t.

(** A token is kept when its type is not among the ignored ones. *)
Definition kept (this : SCADParser) (t : Token) : bool :=
  negb (existsb (String.eqb (t_type t)) (ignoredTokens this)).

(** Feeding tokens one after the other to a parser state. *)
Fixpoint feeds {Value : Type} (G : Grammar Value) (parser : PState G)
    (toks : list Token) : option (PState G) :=
  match toks with
  | [] => Some parser
  | t :: toks' =>
      match feed G parser t with
      | Some parser' => feeds G parser' toks'
      | None => None
      end
  end.

(** The last token captured is an unrecognized-input token. *)
Definition lastIsLexerError (captured : list Token) : bool :=
  match last captured with
  | Some l => String.eqb (t_type l) "LexerError"
  | None => false
  end.

(** The catch block, given the tokens captured for the file and the
    cached code of the file: a LexerError when the last captured token
    is an unrecognized-input token, a ParserError otherwise; both carry
    the location of the last captured token, the ParserError also the
    excerpt and [captured.slice(length - 3, length)]. *)
Definition classified (captured : list Token) (e : Exn) : Prop :=
  match e with
  | LexerError msg location =>
      lastIsLexerError captured = true /\
      location = Loc.new (last captured) /\
      String.prefix "Lexer error:" msg = true
  | ParserError msg lastTokens location excerpt =>
      lastIsLexerError captured = false /\
      location = Loc.new (last captured) /\
      lastTokens = JS.slice captured (Z.of_nat (List.length captured) - 3)
                            (Z.of_nat (List.length captured)) /\
      String.prefix "Parser error:" msg = true
  | _ => False
  end.

Definition tokMyVar : Token := mkToken "identifier" "myVar" 0 5 0 1 1.
Definition tokModule : Token := mkToken "identifier" "module" 6 6 0 1 7.
Definition tokSemi : Token := mkToken "eos" " ;" 12 2 0 1 13.
Definition tokGarbage : Token := mkToken "LexerError" "&%!;" 0 4 0 1 1.


(** ** Texts *)

(** What trimming means: white space only is removed, at both ends,
    until the text starts and ends with another character. *)
Fixpoint allWhite (s : string) : bool :=
  match s with
  | String c s' => JS.isWhiteSpace c && allWhite s'
  | EmptyString => true
  end.

Definition firstChar (s : string) : option ascii :=
  match s with String c _ => Some c | EmptyString => None end.

Fixpoint lastChar (s : string) : option ascii :=
  match s with
  | String c EmptyString => Some c
  | String _ s' => lastChar s'
  | EmptyString => None
  end.

Definition notWhite (c : option ascii) : Prop :=
  match c with Some c => JS.isWhiteSpace c = false | None => True end.

(** The modifier and the name as the specification words them: the
    leading character when it is one of the four modifiers, and the rest. *)
Definition leadingModifier (text : string) : string :=
  match text with
  | String c _ => if Tokens.isModifier c then String c EmptyString else EmptyString
  | EmptyString => EmptyString
  end.

Definition stripModifier (text : string) : string :=
  match text with
  | String c s => if Tokens.isModifier c then s else text
  | EmptyString => EmptyString
  end.

(** A text without line terminator. *)
Fixpoint singleLine (s : string) : bool :=
  match s with
  | String c s' => negb (JS.isLineTerminator c) && singleLine s'
  | EmptyString => true
  end.

(** The text of an action call that continues on the next line. *)
Definition actionOverTwoLines : string := "!a" +:+ NL +:+ "(".

(** Ten lines of source, the text of line n being ln. *)
Definition tenLines : string :=
  JS.join NL ["l1"; "l2"; "l3"; "l4"; "l5"; "l6"; "l7"; "l8"; "l9"; "l10"].

(** Ten lines of source, the sixth of which does not parse. *)
Definition sixthLineFails : string :=
  JS.join NL ["// 1"; "// 2"; "// 3"; "// 4"; "// 5"; "myVar module ;";
              "// 7"; "// 8"; "// 9"; "// 10"].

Definition excerptOf (src : string) (location : Location) : option (list string) :=
  JS.splitLines <$>
    getCodeExcerpt "f.scad" location 3
      (mkSCADParser ["whitespace"; "eol"] ∅ {[ "f.scad" := src ]} ∅).

(** ** The scanner *)

Module TokenSpec.
Import Tokens.

(** A matcher is sound when what it returns splits its input after a
    non-empty matched text. *)
Definition sound (m : Matcher) : Prop :=
  forall s text v rest,
    m s = Some (text, v, rest) -> s = text +:+ rest /\ text <> EmptyString.

End TokenSpec.

(** ** The node store *)

Module NodeSpec.
Import Nodes.
Local Open Scope nat_scope.

Section Store.
Context {Value : Type}.
Implicit Types (h : Heap Value) (o : Obj Value) (this i c : ref) (cs : list ref).

(** The joint effect of an attachment on the object at index [i]:
    [this] lists the children, each child points back to [this]. *)
Definition attached (this : ref) (cs : list ref) (i : ref) (o : Obj Value) : Obj Value :=
  mkObj (if decide (i = this) then cs else children o)
        (if decide (i ∈ cs) then Some this else parent o)
        (location o) (fields o).

(** *** Trees with their extent in the store

    A tree built by a reduction occupies an interval of the store that
    ends at its root; the trees of a block occupy consecutive intervals. *)
Inductive tree_in (h : Heap Value) : nat -> option ref -> ref -> Tree Value -> Prop :=
| tree_in_node lo par r f loc cs ts :
    h !! r = Some (mkObj cs par loc f) ->
    block_in h (Some r) lo r cs ts ->
    tree_in h lo par r (TNode f loc ts)
with block_in (h : Heap Value) :
    option ref -> nat -> nat -> list ref -> list (Tree Value) -> Prop :=
| block_in_nil p lo hi : lo <= hi -> block_in h p lo hi [] []
| block_in_cons p lo hi c cs t ts :
    lo <= c -> c < hi ->
    tree_in h lo p c t ->
    block_in h p (S c) hi cs ts ->
    block_in h p lo hi (c :: cs) (t :: ts).

Definition AllBlock (P : Script Value -> Prop)
    (block : option (list (option (Script Value)))) : Prop :=
  match block with
  | Some l => Forall (fun e => match e with Some s => P s | None => True end) l
  | None => True
  end.

(** [built h r h' t]: from store [h], a reduction has allocated the
    tree [t], with root [r] the last object of [h'], and has left the
    objects of [h] as they were. *)
Definition built (h : Heap Value) (r : ref) (h' : Heap Value) (t : Tree Value) : Prop :=
  List.length h' = S r /\ List.length h <= r /\
  (forall i, i < List.length h -> h' !! i = h !! i) /\
  tree_in h' (List.length h) None r t.

Definition built_block (h : Heap Value) (cs : list ref) (h' : Heap Value)
    (ts : list (Tree Value)) : Prop :=
  List.length h <= List.length h' /\
  (forall i, i < List.length h -> h' !! i = h !! i) /\
  block_in h' None (List.length h) (List.length h') cs ts.

Definition run_ok (s : Script Value) : Prop :=
  forall h, built h (run s h).1 (run s h).2 (denote s).

End Store.
End NodeSpec.

(** ** The loop of parse *)

Module ParseSpecs.
Import Nodes NodeSpec.

Section Specs.
Context {Value : Type}.
Variable G : Grammar Value.

(** What one run of the loop does, in terms of the tokens it has taken
    from the scanner. *)
Inductive LoopSpec (toks : list (Token * Tokens.Lexer)) (parser : PState G)
    (file : string) (this : SCADParser) (w : World Value)
    (res : LoopResult G) (this' : SCADParser) (w' : World Value) : Prop :=
| LoopSpec_intro (consumed : list Token) :
    consumed `prefix_of` map fst toks ->
    lexLog w' = lexLog w ++ consumed ->
    feedLog w' = feedLog w ++ List.filter (kept this) consumed ->
    heap w' = heap w ->
    tokenCache this' =
      alter (fun c => c ++ List.filter (kept this) consumed) file (tokenCache this) ->
    ignoredTokens this' = ignoredTokens this ->
    cache this' = cache this ->
    codeCache this' = codeCache this ->
    match res with
    | Finished _ parser' =>
        consumed = map fst toks /\
        feeds G parser (List.filter (kept this) consumed) = Some parser'
    | Threw _ =>
        exists pre t parser0,
          List.filter (kept this) consumed = pre ++ [t] /\
          feeds G parser pre = Some parser0 /\ feed G parser0 t = None
    end ->
    LoopSpec toks parser file this w res this' w'.

(** What one call of [parse] does. *)
Inductive ParseSpec (code file : string) (this : SCADParser) (w : World Value)
    (out : Outcome ref) (this' : SCADParser) (w' : World Value) : Prop :=
| ParseSpec_intro (consumed : list Token) :
    consumed `prefix_of` Tokens.tokenize code ->
    lexLog w' = lexLog w ++ consumed ->
    feedLog w' = feedLog w ++ List.filter (kept this) consumed ->
    tokenCache this' = <[file := List.filter (kept this) consumed]> (tokenCache this) ->
    ignoredTokens this' = ignoredTokens this ->
    cache this' = cache this ->
    codeCache this' = codeCache this ->
    match out with
    | Return root =>
        consumed = Tokens.tokenize code /\
        exists parser',
          feeds G (start G) (List.filter (kept this) consumed) = Some parser' /\
          built (heap w) root (heap w')
                (TNode FRoot None (denoteArg (head (results G parser'))))
    | Throw e =>
        heap w' = heap w /\ e = parse_catch file this' /\
        exists pre t parser0,
          List.filter (kept this) consumed = pre ++ [t] /\
          feeds G (start G) pre = Some parser0 /\ feed G parser0 t = None
    end ->
    ParseSpec code file this w out this' w'.

End Specs.
End ParseSpecs.

(** ** The scanner: offsets, lines and columns *)

(** Tokens that follow each other without gap from an offset on, each
    at least one character long. *)
Fixpoint tiled (from : Z) (toks : list Token) : Prop :=
  match toks with
  | [] => True
  | t :: toks' => t_offset t = from /\ 1 <= t_size t /\ tiled (from + t_size t) toks'
  end.

Definition sizes (toks : list Token) : Z := foldr (fun t n => t_size t + n) 0 toks.

(** The line and the column reached after a text, from a line and a
    column: a line feed starts the next line at column 1, any other
    character moves one column on. *)
Fixpoint advance (s : string) (p : Z * Z) : Z * Z :=
  match s with
  | EmptyString => p
  | String c s' =>
      advance s' (if (c =? JS.LF)%char then (fst p + 1, 1) else (fst p, snd p + 1))
  end.

(** A text without line feed. *)
Fixpoint noLF (s : string) : bool :=
  match s with
  | String c s' => negb (c =? JS.LF)%char && noLF s'
  | EmptyString => true
  end.

(** The first [n] characters of a text. *)
Definition before (n : Z) (code : string) : string := substring 0 (Z.to_nat n) code.

(** A matcher whose matched texts hold no line feed. *)
Definition quiet (m : Tokens.Matcher) : Prop :=
  forall s text v rest, m s = Some (text, v, rest) -> noLF text = true.

(** One token ends before another starts: on an earlier line, or on the
    same line at columns that lie before it. *)
Definition precedes (t1 t2 : Token) : Prop :=
  t_line t1 < t_line t2 \/
  (t_line t1 = t_line t2 /\ t_col t1 + t_size t1 <= t_col t2).

(** Tokens in the order of their positions. *)
Fixpoint ordered (toks : list Token) : Prop :=
  match toks with
  | [] => True
  | t :: toks' => Forall (precedes t) toks' /\ ordered toks'
  end.

(** Tokens of the examples. *)
Definition tokA : Token := mkToken "identifier" "a" 0 1 0 1 1.
Definition tokTrue : Token := mkToken "bool" "true" 0 4 0 1 1.
Definition tokAmp : Token := mkToken "LexerError" "&" 1 1 0 1 2.
Definition tokX : Token := mkToken "identifier" "x" 4 1 0 1 5.
Definition tokCube : Token := mkToken "actionCall" "#cube" 0 6 0 1 1.
Definition tokB : Token := mkToken "identifier" "b" 2 1 0 2 1.
Definition tokOne : Token := mkToken "float" "1" 4 1 0 1 5.

(** The text a, a line feed, b. *)
Definition twoLines : string := "a" +:+ NL +:+ "b".

(** ** The entry point and the excerpt *)

(** The names under which an array stores a value like any object:
    all but length and __proto__. *)
Definition plainKey (key : string) : bool :=
  negb (String.eqb key "length") && negb (String.eqb key "__proto__").

(** The text that [parseAST] parses: the code when it is a non-empty
    string, the content of the file otherwise. *)
Definition sourceOf (readFileSync : string -> option string) (file code : Arg) :
    Outcome string :=
  match code with
  | Str (String c s) => Return (String c s)
  | _ =>
      match file with
      | Str path =>
          match readFileSync path with
          | Some src => Return src
          | None => Throw FsError
          end
      | _ => Throw TypeError
      end
  end.

(** A line of an excerpt: the line number, padded, a colon, a blank,
    and the text of the line. *)
Definition numbered (width k : Z) (line : string) : string :=
  pad k width +:+ ": " +:+ line.

(** Consecutive lines, numbered from [k] on. *)
Definition numberedFrom (width k : Z) (ls : list string) : list string :=
  imap (fun i line => numbered width (k + Z.of_nat i) line) ls.

(** The width of the line numbers of an excerpt around line [L] of a
    text of [n] lines. *)
Definition excerptWidth (n L : Z) : Z :=
  JS.strlen (JS.numToString (if L + 2 >=? n then n - 1 else L + 2)).

(** An instance that has cached the ten lines for a file. *)
Definition withTenLines : SCADParser :=
  mkSCADParser ["whitespace"; "eol"] ∅ {[ "f.scad" := tenLines ]} ∅.

(** ** The testers *)

(** The registrations of [registerTokens], one after the other. *)
Definition registrations : list (string * Tester) :=
  flat_map (fun '(key, keywords) =>
              map (fun keyword =>
                     (key +:+ "_" +:+ keyword,
                      fun tok => String.eqb (t_type tok) key
                                 && String.eqb (t_value tok) keyword)) keywords
              ++ [(key, fun tok : Token => String.eqb (t_type tok) key)])
           tableKeys.

(** ** Stores and trees of nodes *)

(** Three nodes without links. *)
Definition threeNodes : Nodes.Heap string :=
  (Nodes.new_Node None None
     (Nodes.new_Node None None (Nodes.new_Node None None []).2).2).2.

(** A comment, and a loop over it. *)
Definition loopOverComment : Nodes.Heap string :=
  (Nodes.new_ForLoopNode None "[i]" (Some [Some 0%nat])
     (Nodes.new_CommentNode None "body" false []).2).2.

(** Two comments of the same text. *)
Definition twoComments : Nodes.Heap string :=
  (Nodes.new_CommentNode None "x" false (Nodes.new_CommentNode None "x" false []).2).2.

Section Shapes.
Context {Value : Type}.

(** The height of a tree: the number of nodes on its longest branch. *)
Fixpoint height (t : Nodes.Tree Value) : nat :=
  match t with
  | Nodes.TNode _ _ ts => S (foldr (fun t n => Nat.max (height t) n) 0%nat ts)
  end.

End Shapes.

(** Values that are printed as they are written. *)
Definition string_view : Printing.ValueView string :=
  {| Printing.Value_toString := id;
     Printing.Value_className := fun _ => "String";
     Printing.Value_isNull := fun _ => false;
     Printing.Value_length := fun v => JS.strlen v |}.

(** ** Stores of expressions *)

Module ExprSpec.
Import Nodes Printing Expressions.

Section Spec.
Context {Value : Type}.

(** An operand that exists: a value, or an expression of the store
    older than [bound]. *)
Definition operand_below (bound : nat) (x : Operand Value) : Prop :=
  match x with
  | OValue _ => True
  | OExpr r => (r < bound)%nat
  end.

(** A store as the constructor leaves it: the operands of every
    expression were there before it. *)
Definition bottom_up (h : list (ExprObj Value)) : Prop :=
  forall i o, h !! i = Some o ->
    operand_below i (leftExpression o) /\
    match rightExpression o with Some x => operand_below i x | None => True end.

(** An operand that is the expression [i]. *)
Definition refers (i : ref) (x : Operand Value) : bool :=
  match x with
  | OValue _ => false
  | OExpr r => bool_decide (r = i)
  end.

(** Two objects that differ by their parent at most. *)
Definition same_expression (o o' : ExprObj Value) : Prop :=
  leftExpression o' = leftExpression o /\ rightExpression o' = rightExpression o /\
  operator o' = operator o /\ negative o' = negative o.

End Spec.
End ExprSpec.

(** The product of a and b. *)
Definition product : list (Expressions.ExprObj string) :=
  (Expressions.new_ExpressionNode (Expressions.OValue "a")
     (Some (Expressions.OValue "b")) (Some "*") false []).2.

(** Two operands without operator. *)
Definition noOperator : list (Expressions.ExprObj string) :=
  (Expressions.new_ExpressionNode (Expressions.OValue "a")
     (Some (Expressions.OValue "b")) None false []).2.

(** * Properties *)

(** ** The model at work *)

Example trim_ex : JS.trim " Single line comment" = "Single line comment".
Proof. reflexivity. Qed.

Example slice_ex : JS.slice [1;2] (-1) 2 = [2].
Proof. reflexivity. Qed.

Example num_ex : JS.numToString 120 = "120" /\ JS.numToString 0 = "0" /\ JS.numToString (-8) = "-8".
Proof. repeat split; reflexivity. Qed.

Example lex_ex1 :
  map (fun t => (t_type t, t_value t)) (Tokens.tokenize "myVar module ;") =
  [("identifier", "myVar"); ("whitespace", " "); ("identifier", "module"); ("eos", " ;")].
Proof. vm_compute. reflexivity. Qed.

Example lex_ex2 :
  Tokens.tokenize "&%!;" = [mkToken "LexerError" "&%!;" 0 4 0 1 1].
Proof. vm_compute. reflexivity. Qed.

Example lex_ex3 :
  map (fun t => (t_type t, t_value t, t_line t, t_col t))
      (Tokens.tokenize ("// Single line comment" +:+ String JS.LF "a = 1.5e3;")) =
  [("comment", " Single line comment", 1, 1); ("identifier", "a", 2, 1);
   ("whitespace", " ", 2, 2); ("assign", "=", 2, 3); ("whitespace", " ", 2, 4);
   ("float", "1.5e3", 2, 5); ("eos", ";", 2, 10)].
Proof. vm_compute. reflexivity. Qed.

Example lex_ex4 :
  map (fun t => (t_type t, t_value t))
      (Tokens.tokenize "include <file.scad>; color(1) cube([1,2]);") =
  [("include", "file.scad"); ("eos", ";"); ("whitespace", " ");
   ("actionCall", "color"); ("float", "1"); ("rparent", ")"); ("whitespace", " ");
   ("actionCall", "cube"); ("lvect", "["); ("float", "1"); ("comma", ",");
   ("float", "2"); ("rvect", "]"); ("rparent", ")"); ("eos", ";")].
Proof. vm_compute. reflexivity. Qed.

Example fragment_ex1 :
  let '(r, this, w) :=
    parseAST Fragment.grammar Fragment.noFiles (Str "a.scad")
      (Str ("// one" +:+ NL +:+ "x = 1+2;")) new_SCADParser Fragment.world0 in
  r = Return 2%nat /\
  map Nodes.fields (heap w) =
    [Nodes.FComment "one" false; Nodes.FVariable "x" "1+2"; Nodes.FRoot] /\
  map Nodes.parent (heap w) = [Some 2%nat; Some 2%nat; None] /\
  map Nodes.children (heap w) = [[]; []; [0%nat; 1%nat]] /\
  cache this !! "a.scad" = Some 2%nat.
Proof. vm_compute. repeat split; reflexivity. Qed.

Example fragment_ex2 :
  (parseAST Fragment.grammar Fragment.noFiles (Str "parser_error.scad")
     (Str "myVar module ;") new_SCADParser Fragment.world0).1.1 =
  Throw (ParserError
    ("Parser error: Unexpected token 'module' (Type: identifier, "
     +:+ "[Location: Offset=6, Size=6, lineBreaks=0, Line=1, Column=7])" +:+ NL
     +:+ "Last tokens: [" +:+ QUOTE +:+ "module" +:+ QUOTE +:+ "]" +:+ NL
     +:+ "Excerpt:" +:+ NL +:+ NL
     +:+ "1: myVar module ;" +:+ NL
     +:+ "         ^----^")
    [mkToken "identifier" "module" 6 6 0 1 7]
    (mkLocation 6 6 0 1 7)
    ("1: myVar module ;" +:+ NL +:+ "         ^----^")).
Proof. vm_compute. reflexivity. Qed.


(** ** getToken *)

Lemma covers_test column line t :
  (line =? t_line t) && ((column >=? t_col t) && (column <? t_col t + t_size t)) = true
  <-> covers column line t.
Proof. unfold covers. rewrite !andb_true_iff. lia. Qed.

(** The iteration of [getToken] over a list: it stops at the first
    covering token and otherwise keeps what it had. *)
Lemma getToken_each column line (toks : list Token) (out : option Token) :
  let r := each toks
       (fun token out =>
          if (line =? t_line token) &&
             ((column >=? t_col token) && (column <? t_col token + t_size token))
          then (Some token, false)
          else (out, true)) out in
  (exists l1 t l2, toks = l1 ++ t :: l2 /\ covers column line t /\
     Forall (fun t' => ~ covers column line t') l1 /\ r = Some t)
  \/ (Forall (fun t' => ~ covers column line t') toks /\ r = out).
Proof.
  cbv zeta. induction toks as [|t toks IH]; simpl.
  - right. split; [constructor | reflexivity].
  - destruct ((line =? t_line t) &&
              ((column >=? t_col t) && (column <? t_col t + t_size t))) eqn:E.
    + left. exists [], t, toks. apply covers_test in E.
      split; [reflexivity | split; [exact E | split; [constructor | reflexivity]]].
    + assert (~ covers column line t) as Hn.
      { intros H. apply covers_test in H. congruence. }
      destruct IH as [(l1 & t' & l2 & -> & Hc & Hall & Hr) | [Hall Hr]].
      * left. exists (t :: l1), t', l2.
        split; [reflexivity | split; [exact Hc | split; [constructor; assumption | exact Hr]]].
      * right. split; [constructor; assumption | exact Hr].
Qed.

(** C8: for every file identifier, line and column, [getToken] returns
    the first token of the file's cached list that covers the position
    (same line, column within the token), and null when no cached token
    covers it; a file without cached tokens has none. *)
Theorem getToken_first_covering (column line : Z) (file : string) (this : SCADParser) :
  let toks := default [] (tokenCache this !! file) in
  match getToken column line file this with
  | Some t =>
      exists l1 l2, toks = l1 ++ t :: l2 /\ covers column line t /\
                     Forall (fun t' => ~ covers column line t') l1
  | None => Forall (fun t' => ~ covers column line t') toks
  end.
Proof.
  intros toks. unfold getToken. fold toks.
  destruct (getToken_each column line toks None)
    as [(l1 & t & l2 & Heq & Hc & Hall & Hr) | [Hall Hr]]; simpl in Hr; rewrite Hr.
  - exists l1, l2. auto.
  - exact Hall.
Qed.

(** ** parseAST: the guard on the arguments *)

(** C9: called with neither a string [code] nor a string [file],
    [parseAST] throws the invalid-invocation error and leaves the
    instance (its three caches) and the world (scanner, node objects,
    history of scanned and fed tokens) as they were. *)
Theorem parseAST_invalid_invocation {Value : Type} (G : Grammar Value)
    (readFileSync : string -> option string)
    (file code : Arg) (this : SCADParser) (w : World Value) :
  isString file = false -> isString code = false ->
  parseAST G readFileSync file code this w =
    (Throw (Error "You have to pass either code or file parameter!"), this, w).
Proof.
  intros Hf Hc. unfold parseAST.
  destruct file; try discriminate; destruct code; try discriminate; reflexivity.
Qed.

Lemma parseAST_invalid_invocation_witness :
  parseAST Fragment.grammar Fragment.noFiles Undefined Undefined
           new_SCADParser Fragment.world0 =
    (Throw (Error "You have to pass either code or file parameter!"),
     new_SCADParser, Fragment.world0).
Proof.
  apply (parseAST_invalid_invocation Fragment.grammar Fragment.noFiles
           Undefined Undefined new_SCADParser Fragment.world0); reflexivity.
Defined.

(** ** The node store: what the constructor and [setChildren] do to it *)

Module NodeFacts.
Import Nodes NodeSpec.
Local Open Scope nat_scope.

Section Facts.
Context {Value : Type}.
Implicit Types (h : Heap Value) (o : Obj Value) (this i c : ref) (cs : list ref).

Ltac obj_cases :=
  unfold attached, set_parent, set_children, push_child, set_location; simpl;
  repeat case_decide; subst;
  try match goal with
      | |- context [@lookup ?K ?A ?M ?L ?i ?h] =>
          is_var h; destruct (@lookup K A M L i h) as [[]|]
      end;
  simpl; rewrite ?app_nil_r, <- ?app_assoc; simpl;
  try reflexivity; try congruence; try (exfalso; set_solver).

Lemma parents_fold_lookup this cs h i :
  foldl (fun h child => alter (set_parent this) child h) h cs !! i =
  if decide (i ∈ cs) then set_parent this <$> h !! i else h !! i.
Proof.
  revert h. induction cs as [|c cs IH]; intros h; simpl.
  - obj_cases.
  - rewrite IH, list_lookup_alter. obj_cases.
Qed.

Lemma children_fold_lookup this cs h i :
  foldl (fun h child => alter (set_parent this) child (alter (push_child child) this h))
        h cs !! i =
  (fun o => mkObj (if decide (i = this) then children o ++ cs else children o)
                  (if decide (i ∈ cs) then Some this else parent o)
                  (location o) (fields o)) <$> h !! i.
Proof.
  revert h. induction cs as [|c cs IH]; intros h; simpl.
  - obj_cases.
  - rewrite IH, !list_lookup_alter. obj_cases.
Qed.

(** The constructor of the base class, object by object. *)
Lemma Node_constructor_lookup this children token h i :
  Node_constructor this children token h !! i =
  (fun o => set_location (if decide (i = this) then tokenLocation token else location o)
                         (attached this (default [] (truthy <$> children)) i o)) <$> h !! i.
Proof.
  unfold Node_constructor.
  destruct children as [arr|]; simpl.
  - rewrite !list_lookup_alter, !parents_fold_lookup.
    destruct token; obj_cases.
  - rewrite !list_lookup_alter. destruct token; obj_cases.
Qed.

(** [setChildren], object by object. *)
Lemma setChildren_lookup this children h i :
  setChildren this children h !! i = attached this (truthy children) i <$> h !! i.
Proof.
  unfold setChildren. rewrite children_fold_lookup, !list_lookup_alter. obj_cases.
Qed.

Lemma parents_fold_length this cs h :
  List.length (foldl (fun h child => alter (set_parent this) child h) h cs) = List.length h.
Proof.
  revert h. induction cs as [|c cs IH]; intros h; simpl; [reflexivity|].
  rewrite IH. apply length_alter.
Qed.

Lemma Node_constructor_length this children token h :
  List.length (Node_constructor this children token h) = List.length h.
Proof.
  unfold Node_constructor. cbv zeta. rewrite length_alter.
  destruct children; rewrite length_alter; [apply parents_fold_length | reflexivity].
Qed.

Lemma setChildren_length this children h :
  List.length (setChildren this children h) = List.length h.
Proof.
  unfold setChildren. cbv zeta.
  rewrite <- (length_alter (set_children []) h this).
  generalize (alter (set_children []) this h) as h0.
  generalize (truthy children) as cs.
  induction cs as [|c cs IH]; intros h0; simpl; [reflexivity|].
  rewrite IH, !length_alter. reflexivity.
Qed.


(** [new C(...)]: the new object is the last of the store; every older
    object keeps its fields, and gets the new object for parent exactly
    when it is one of the children. *)
Lemma construct_fst f children token h :
  (construct f children token h).1 = List.length h.
Proof. reflexivity. Qed.

Lemma construct_length f children token h :
  List.length (construct f children token h).2 = S (List.length h).
Proof.
  unfold construct, alloc; simpl.
  rewrite length_alter, Node_constructor_length, length_app; simpl. lia.
Qed.

Lemma construct_lookup_old f children token h i :
  i < List.length h ->
  (construct f children token h).2 !! i =
  if decide (i ∈ default [] (truthy <$> children))
  then set_parent (List.length h) <$> h !! i else h !! i.
Proof.
  intros Hi. unfold construct, alloc; simpl.
  rewrite list_lookup_alter_ne by lia.
  rewrite Node_constructor_lookup, lookup_app_l by assumption.
  destruct (h !! i) as [[]|]; unfold attached, set_location, set_parent; simpl;
    repeat case_decide; try reflexivity; lia.
Qed.

Lemma construct_lookup_new f children token h :
  Forall (fun c => c < List.length h) (default [] (truthy <$> children)) ->
  (construct f children token h).2 !! List.length h =
  Some (mkObj (default [] (truthy <$> children)) None (tokenLocation token) f).
Proof.
  intros Hcs. unfold construct, alloc; simpl.
  rewrite list_lookup_alter_eq, Node_constructor_lookup, list_lookup_middle by reflexivity.
  unfold attached, set_location, set_fields; simpl.
  repeat case_decide; try reflexivity; try congruence.
  rewrite Forall_forall in Hcs.
  match goal with H : _ ∈ _ |- _ => apply Hcs in H; lia end.
Qed.

Scheme tree_in_mut := Minimality for tree_in Sort Prop
  with block_in_mut := Minimality for block_in Sort Prop.

Lemma block_in_bounds h p lo hi cs ts :
  block_in h p lo hi cs ts -> lo <= hi /\ Forall (fun c => lo <= c < hi) cs.
Proof.
  induction 1 as [q a b Hle|q a b c cs' t ts' Hlo Hhi Ht Hb [IH1 IH2]].
  - split; [assumption | constructor].
  - split; [lia|]. constructor; [lia|].
    eapply Forall_impl; [exact IH2|]. simpl. intros; lia.
Qed.

Lemma tree_in_frame h lo par r t :
  tree_in h lo par r t ->
  forall h', (forall i, lo <= i <= r -> h' !! i = h !! i) -> tree_in h' lo par r t.
Proof.
  revert lo par r t.
  apply (tree_in_mut _ h
    (fun lo par r t =>
       forall h', (forall i, lo <= i <= r -> h' !! i = h !! i) -> tree_in h' lo par r t)
    (fun p lo hi cs ts =>
       forall h', (forall i, lo <= i < hi -> h' !! i = h !! i) -> block_in h' p lo hi cs ts)).
  - intros lo par r f loc cs ts Hr Hb IH h' Hsame.
    apply block_in_bounds in Hb as Hbd. destruct Hbd as [Hle _].
    econstructor.
    + rewrite Hsame by lia. exact Hr.
    + apply IH. intros i Hi. apply Hsame. lia.
  - intros p lo hi Hle h' _. constructor. assumption.
  - intros p lo hi c cs t ts Hlo Hhi Ht IHt Hb IHb h' Hsame.
    constructor; try assumption.
    + apply IHt. intros i Hi. apply Hsame. lia.
    + apply IHb. intros i Hi. apply Hsame. lia.
Qed.

Lemma block_in_frame h p lo hi cs ts :
  block_in h p lo hi cs ts ->
  forall h', (forall i, lo <= i < hi -> h' !! i = h !! i) -> block_in h' p lo hi cs ts.
Proof.
  induction 1 as [q a b Hle|q a b c cs' t ts' Hlo Hhi Ht Hb IH]; intros h' Hsame.
  - constructor. assumption.
  - constructor; try assumption.
    + eapply tree_in_frame; [exact Ht|]. intros i Hi. apply Hsame. lia.
    + apply IH. intros i Hi. apply Hsame. lia.
Qed.

(** Attaching a block: the roots get their parent, nothing else in the
    extent of the block changes. *)
Lemma block_in_attach h p0 lo hi cs ts :
  block_in h p0 lo hi cs ts ->
  forall h' p,
    (forall i, lo <= i < hi ->
       h' !! i = if decide (i ∈ cs) then set_parent p <$> h !! i else h !! i) ->
    block_in h' (Some p) lo hi cs ts.
Proof.
  induction 1 as [q a b Hle|q a b c cs' t ts' Hlo Hhi Ht Hb IH]; intros h' p Hnew.
  - constructor. assumption.
  - apply block_in_bounds in Hb as Hbd. destruct Hbd as [_ Hcs].
    rewrite Forall_forall in Hcs.
    constructor; try assumption.
    + inversion Ht as [lo' par r f loc cs1 ts1 Hr Hsub]; subst.
      econstructor.
      * rewrite Hnew by lia. rewrite decide_True by set_solver.
        rewrite Hr. reflexivity.
      * eapply block_in_frame; [exact Hsub|].
        intros i Hi. rewrite Hnew by lia.
        rewrite decide_False; [reflexivity|].
        intros Hin. apply elem_of_cons in Hin as [->|Hin]; [lia|].
        apply Hcs in Hin. lia.
    + apply IH. intros i Hi. rewrite Hnew by lia.
      destruct (decide (i ∈ cs')) as [Hin|Hin].
      * rewrite decide_True by set_solver. reflexivity.
      * rewrite decide_False; [reflexivity|].
        intros Hin'. apply elem_of_cons in Hin' as [->|Hin']; [lia | contradiction].
Qed.

Lemma tree_in_at h lo par r t : tree_in h lo par r t -> tree_at h par r t.
Proof.
  revert lo par r t.
  apply (tree_in_mut _ h
    (fun lo par r t => tree_at h par r t)
    (fun p lo hi cs ts => Forall2 (tree_at h p) cs ts)).
  - intros lo par r f loc cs ts Hr _ IH. econstructor; eassumption.
  - constructor.
  - intros p lo hi c cs t ts _ _ _ IHt _ IHb. constructor; assumption.
Qed.

Lemma block_in_at h p lo hi cs ts :
  block_in h p lo hi cs ts -> Forall2 (tree_at h p) cs ts.
Proof.
  induction 1; constructor; eauto using tree_in_at.
Qed.


(** *** Running a script builds the tree that the script denotes *)

Lemma Script_nested_ind (P : Script Value -> Prop) :
  (forall token text multiline, P (SComment token text multiline)) ->
  (forall token name value, P (SVariable token name value)) ->
  (forall token file, P (SInclude token file)) ->
  (forall token file, P (SUse token file)) ->
  (forall token name params block,
      AllBlock P block -> P (SModule token name params block)) ->
  (forall token params block,
      AllBlock P block -> P (SForLoop token params block)) ->
  (forall token name params label block,
      AllBlock P block -> P (SAction token name params label block)) ->
  (forall token name params expression,
      P (SFunction token name params expression)) ->
  forall s, P s.
Proof.
  intros H1 H2 H3 H4 H5 H6 H7 H8.
  fix IH 1. intros s.
  destruct s as [token text multiline|token name value|token file|token file
                |token name params block|token params block
                |token name params label block|token name params expression].
  - apply H1.
  - apply H2.
  - apply H3.
  - apply H4.
  - apply H5. destruct block as [l|]; simpl; [|exact I].
    revert l. fix IHl 1. intros [|[s'|] l]; constructor;
      [apply IH | apply IHl | exact I | apply IHl].
  - apply H6. destruct block as [l|]; simpl; [|exact I].
    revert l. fix IHl 1. intros [|[s'|] l]; constructor;
      [apply IH | apply IHl | exact I | apply IHl].
  - apply H7. destruct block as [l|]; simpl; [|exact I].
    revert l. fix IHl 1. intros [|[s'|] l]; constructor;
      [apply IH | apply IHl | exact I | apply IHl].
  - apply H8.
Qed.


Lemma construct_built f arg token h0 h1 ts :
  built_block h0 (default [] (truthy <$> arg)) h1 ts ->
  built h0 (construct f arg token h1).1 (construct f arg token h1).2
        (TNode f (tokenLocation token) ts).
Proof.
  intros (Hlen & Hold & Hblock).
  apply block_in_bounds in Hblock as Hbd. destruct Hbd as [_ Hcs].
  rewrite construct_fst.
  split; [apply construct_length|]. split; [assumption|]. split.
  - intros i Hi. rewrite construct_lookup_old by lia.
    rewrite decide_False; [apply Hold; assumption|].
    intros Hin. rewrite Forall_forall in Hcs. apply Hcs in Hin. lia.
  - econstructor.
    + apply construct_lookup_new. eapply Forall_impl; [exact Hcs|]. simpl. intros; lia.
    + eapply block_in_attach; [exact Hblock|].
      intros i Hi. apply construct_lookup_old. lia.
Qed.

Lemma runBlock_built l :
  Forall (fun e => match e with Some s => run_ok s | None => True end) l ->
  forall h, built_block h (truthy (runBlock l h).1) (runBlock l h).2 (denoteBlock l).
Proof.
  induction 1 as [|[s|] l Hs Hl IH]; intros h; simpl.
  - split; [lia|]. split; [reflexivity|]. constructor. lia.
  - specialize (Hs h). destruct (run s h) as [r h1] eqn:Hrun. simpl in Hs.
    destruct Hs as (Hlen1 & Hle1 & Hold1 & Htree1).
    specialize (IH h1). destruct (runBlock l h1) as [rs h2] eqn:Hrest. simpl in *.
    destruct IH as (Hle2 & Hold2 & Hblock2).
    split; [lia|]. split.
    + intros i Hi. rewrite Hold2 by lia. apply Hold1. assumption.
    + constructor; [lia | lia | |].
      * eapply tree_in_frame; [exact Htree1|]. intros i Hi. apply Hold2. lia.
      * rewrite <- Hlen1. exact Hblock2.
  - specialize (IH h). destruct (runBlock l h) as [rs h2] eqn:Hrest. simpl in *.
    exact IH.
Qed.

Lemma runArg_built block :
  AllBlock run_ok block ->
  forall h, built_block h (default [] (truthy <$> (runArg block h).1))
                        (runArg block h).2 (denoteArg block).
Proof.
  intros Hall h. destruct block as [l|]; simpl in *.
  - pose proof (runBlock_built l Hall h) as Hb.
    destruct (runBlock l h) as [rs h1]. exact Hb.
  - split; [lia|]. split; [reflexivity|]. constructor. lia.
Qed.

(** An action call: the constructor, then the two setters. *)
Lemma action_built token name params label arg h0 h1 ts :
  built_block h0 (default [] (truthy <$> arg)) h1 ts ->
  let this := (new_ActionNode token name params h1).1 in
  let h2 := (new_ActionNode token name params h1).2 in
  let h3 := match label with Some l => setLabel this l h2 | None => h2 end in
  let h4 := match arg with Some rs => setChildren this rs h3 | None => h3 end in
  built h0 this h4
        (TNode (FAction (actionName name) (actionModifier name) params label)
               (tokenLocation token) ts).
Proof.
  intros (Hlen & Hold & Hblock) this h2 h3 h4.
  apply block_in_bounds in Hblock as Hbd. destruct Hbd as [_ Hcs].
  rewrite Forall_forall in Hcs.
  assert (this = List.length h1) as Hthis by reflexivity.
  assert (List.length h2 = S this) as Hlen2 by apply construct_length.
  assert (forall i, i < this -> h2 !! i = h1 !! i) as Hold2.
  { intros i Hi. unfold h2, new_ActionNode. rewrite construct_lookup_old by lia.
    reflexivity. }
  assert (h2 !! this = Some (mkObj [] None (tokenLocation token)
            (FAction (actionName name) (actionModifier name) params None))) as Hnew2.
  { unfold h2, new_ActionNode. rewrite Hthis.
    apply (construct_lookup_new _ None). constructor. }
  assert (List.length h3 = S this) as Hlen3.
  { unfold h3, setLabel. destruct label; rewrite ?length_alter; assumption. }
  assert (forall i, i < this -> h3 !! i = h1 !! i) as Hold3.
  { intros i Hi. unfold h3, setLabel. destruct label.
    - rewrite list_lookup_alter_ne by lia. apply Hold2. assumption.
    - apply Hold2. assumption. }
  assert (h3 !! this = Some (mkObj [] None (tokenLocation token)
            (FAction (actionName name) (actionModifier name) params label))) as Hnew3.
  { unfold h3, setLabel. destruct label.
    - rewrite list_lookup_alter_eq, Hnew2. reflexivity.
    - assumption. }
  split; [|split; [lia|split]].
  - unfold h4. destruct arg; rewrite ?setChildren_length; assumption.
  - intros i Hi. unfold h4. destruct arg as [rs|]; simpl in *.
    + rewrite setChildren_lookup, Hold3 by lia.
      rewrite <- (Hold i Hi).
      destruct (h1 !! i) as [[]|]; unfold attached; simpl; [|reflexivity].
      rewrite decide_False by lia. rewrite decide_False; [reflexivity|].
      intros Hin. apply Hcs in Hin. lia.
    + rewrite Hold3 by lia. apply Hold. assumption.
  - unfold h4. destruct arg as [rs|]; simpl in *.
    + econstructor.
      * rewrite setChildren_lookup, Hnew3. unfold attached; simpl.
        rewrite decide_True by reflexivity. rewrite decide_False; [reflexivity|].
        intros Hin. apply Hcs in Hin. lia.
      * rewrite <- Hthis in Hblock.
        eapply block_in_attach; [exact Hblock|].
        intros i Hi. rewrite setChildren_lookup, Hold3 by lia.
        destruct (h1 !! i) as [[]|]; unfold attached, set_parent; simpl;
          repeat case_decide; try reflexivity; lia.
    + inversion Hblock; subst. econstructor; [exact Hnew3|].
      constructor. lia.
Qed.

(** Every script builds, bottom-up, the tree it denotes. *)
Lemma run_built (s : Script Value) : run_ok s.
Proof.
  induction s as [token text multiline|token name value|token file|token file
                 |token name params block IH|token params block IH
                 |token name params label block IH|token name params expression]
    using Script_nested_ind; intros h.
  - apply (construct_built _ None). split; [lia|]. split; [reflexivity|]. constructor; lia.
  - apply (construct_built _ None). split; [lia|]. split; [reflexivity|]. constructor; lia.
  - apply (construct_built _ None). split; [lia|]. split; [reflexivity|]. constructor; lia.
  - apply (construct_built _ None). split; [lia|]. split; [reflexivity|]. constructor; lia.
  - pose proof (runArg_built block IH h) as Hb.
    change (run (SModule token name params block) h)
      with (let '(arg, h1) := runArg block h in new_ModuleNode token name params arg h1).
    destruct (runArg block h) as [arg h1]. apply construct_built. exact Hb.
  - pose proof (runArg_built block IH h) as Hb.
    change (run (SForLoop token params block) h)
      with (let '(arg, h1) := runArg block h in new_ForLoopNode token params arg h1).
    destruct (runArg block h) as [arg h1]. apply construct_built. exact Hb.
  - pose proof (runArg_built block IH h) as Hb.
    change (run (SAction token name params label block) h)
      with (let '(arg, h1) := runArg block h in
            let '(this, h2) := new_ActionNode token name params h1 in
            let h3 := match label with Some l => setLabel this l h2 | None => h2 end in
            (this, match arg with Some rs => setChildren this rs h3 | None => h3 end)).
    destruct (runArg block h) as [arg h1].
    pose proof (action_built token name params label arg h h1 _ Hb) as Ha.
    destruct (new_ActionNode token name params h1) as [this h2]. exact Ha.
  - apply (construct_built _ None). split; [lia|]. split; [reflexivity|]. constructor; lia.
Qed.

End Facts.
End NodeFacts.

(** ** The scanner: every token consumes input, so [next] reaches the end *)

Module TokenFacts.
Import Tokens TokenSpec.
Local Open Scope nat_scope.

Lemma append_cons (x : ascii) (a b : string) : String x a +:+ b = String x (a +:+ b).
Proof. reflexivity. Qed.

Lemma append_nil_l (b : string) : EmptyString +:+ b = b.
Proof. reflexivity. Qed.

Lemma append_assoc (a b c : string) : (a +:+ b) +:+ c = a +:+ (b +:+ c).
Proof.
  induction a as [|x a IH]; rewrite ?append_nil_l, ?append_cons;
    [reflexivity | f_equal; exact IH].
Qed.

Lemma append_nil_r (a : string) : a +:+ EmptyString = a.
Proof.
  induction a as [|x a IH]; rewrite ?append_nil_l, ?append_cons;
    [reflexivity | f_equal; exact IH].
Qed.

Lemma length_append (a b : string) :
  String.length (a +:+ b) = String.length a + String.length b.
Proof.
  induction a as [|x a IH]; rewrite ?append_nil_l, ?append_cons; simpl;
    [reflexivity | rewrite IH; reflexivity].
Qed.

(** Normal form of a concatenation: nested to the right, constructors
    outside. *)
Ltac str_norm :=
  repeat first [rewrite append_assoc | rewrite append_cons | rewrite append_nil_l].

Lemma lit_sound l s r : lit l s = Some r -> s = l +:+ r.
Proof.
  revert s. induction l as [|a l IH]; intros [|b s] H; simpl in *; str_norm;
    try congruence.
  destruct (Ascii.eqb_spec a b) as [->|]; [|discriminate].
  rewrite (IH _ H). reflexivity.
Qed.

Lemma span_sound p s a b : span p s = (a, b) -> s = a +:+ b.
Proof.
  revert a b. induction s as [|c s IH]; intros a b H; simpl in *.
  - inversion H. reflexivity.
  - destruct (p c).
    + destruct (span p s) as [a' b']. inversion H; subst. str_norm.
      rewrite (IH a' b) by reflexivity. reflexivity.
    + inversion H. reflexivity.
Qed.

Lemma spanDot_sound s a b : JS.spanDot s = (a, b) -> s = a +:+ b.
Proof.
  revert a b. induction s as [|c s IH]; intros a b H; simpl in *.
  - inversion H. reflexivity.
  - destruct (JS.isLineTerminator c).
    + inversion H. reflexivity.
    + destruct (JS.spanDot s) as [a' b']. inversion H; subst. str_norm.
      rewrite (IH a' b) by reflexivity. reflexivity.
Qed.

Lemma lastGt_sound s a b : lastGt s = Some (a, b) -> s = a +:+ ">" +:+ b.
Proof.
  revert a b. induction s as [|c s IH]; intros a b H; simpl in *; [discriminate|].
  destruct (lastGt s) as [[a' b']|].
  - inversion H; subst. str_norm. rewrite (IH a' b) by reflexivity. reflexivity.
  - destruct (Ascii.eqb_spec c ">") as [->|]; [|discriminate].
    inversion H. reflexivity.
Qed.

Lemma untilClose_cons c s :
  untilClose (String c s) =
  match (if (c =? "*")%char then lit "/" s else None) with
  | Some r => Some (EmptyString, r)
  | None => '(a, b) ← untilClose s; Some (String c a, b)
  end.
Proof. reflexivity. Qed.

Lemma untilClose_sound s a b : untilClose s = Some (a, b) -> s = a +:+ "*/" +:+ b.
Proof.
  revert a b. induction s as [|c s IH]; intros a b H; [discriminate|].
  rewrite untilClose_cons in H.
  destruct (if (c =? "*")%char then lit "/" s else None) as [r|] eqn:E.
  - inversion H; subst. destruct (Ascii.eqb_spec c "*") as [->|]; [|discriminate].
    apply lit_sound in E. rewrite E. str_norm. reflexivity.
  - destruct (untilClose s) as [[a' b']|]; [|discriminate].
    simpl in H. inversion H; subst. str_norm.
    rewrite (IH a' b) by reflexivity. reflexivity.
Qed.

Lemma ident_sound s a b : ident s = Some (a, b) -> s = a +:+ b /\ a <> EmptyString.
Proof.
  destruct s as [|c s]; simpl; [discriminate|].
  destruct (isIdentStart c); [|discriminate].
  destruct (span isIdentChar s) as [a' b'] eqn:E. intros H; inversion H; subst.
  apply span_sound in E. subst. split; [reflexivity | discriminate].
Qed.

Lemma exponent_sound s e r : exponent s = Some (e, r) -> s = e +:+ r.
Proof.
  destruct s as [|x r1]; simpl; [discriminate|].
  destruct ((x =? "e")%char || (x =? "E")%char); [|discriminate].
  destruct (match r1 with
            | String c r0 => if (c =? "-")%char || (c =? "+")%char
                             then (String c EmptyString, r0) else (EmptyString, r1)
            | EmptyString => (EmptyString, r1)
            end) as [sg r2] eqn:Esg.
  assert (r1 = sg +:+ r2) as ->.
  { destruct r1 as [|c r0]; [inversion Esg; reflexivity|].
    destruct ((c =? "-")%char || (c =? "+")%char); inversion Esg; reflexivity. }
  destruct (span isDigit r2) as [[|d ds] r3] eqn:Ed; [discriminate|].
  intros H; inversion H; subst. apply span_sound in Ed. subst.
  str_norm. reflexivity.
Qed.

Lemma literal_sound c l : sound (literal (String c l)).
Proof.
  intros s text v rest H. unfold literal in H.
  destruct (lit (String c l) s) as [r|] eqn:E; cbn [mbind option_bind] in H; [|discriminate].
  inversion H; subst. apply lit_sound in E. split; [assumption | discriminate].
Qed.

Lemma firstOf_sound ms : Forall sound ms -> sound (firstOf ms).
Proof.
  induction 1 as [|m ms Hm Hms IH]; intros s text v rest H; simpl in H; [discriminate|].
  destruct (m s) as [[[t' v'] r']|] eqn:E.
  - inversion H; subst. eapply Hm; eassumption.
  - eapply IH; eassumption.
Qed.

Lemma angled_sound c kw : sound (angled (String c kw)).
Proof.
  intros s text v rest H. unfold angled in H.
  destruct (lit (String c kw) s) as [r1|] eqn:E1; cbn [mbind option_bind] in H; [|discriminate].
  destruct (span JS.isWhiteSpace r1) as [ws r2] eqn:E2.
  destruct (lit "<" r2) as [r3|] eqn:E3; cbn [mbind option_bind] in H; [|discriminate].
  destruct (JS.spanDot r3) as [ln r4] eqn:E4.
  destruct ln as [|x ln']; [discriminate|].
  destruct (lastGt ln') as [[a b]|] eqn:E5; cbn [mbind option_bind] in H; [|discriminate].
  inversion H; subst.
  apply lit_sound in E1, E3. apply span_sound in E2. apply spanDot_sound in E4.
  apply lastGt_sound in E5. subst.
  split; [|discriminate]. str_norm. reflexivity.
Qed.

Lemma definition_sound c kw : sound (definition (String c kw)).
Proof.
  intros s text v rest H. unfold definition in H.
  destruct (lit (String c kw) s) as [r1|] eqn:E1; cbn [mbind option_bind] in H; [|discriminate].
  destruct (span JS.isWhiteSpace r1) as [ws r2] eqn:E2.
  destruct (ident r2) as [[name r3]|] eqn:E3; cbn [mbind option_bind] in H; [|discriminate].
  destruct (span JS.isWhiteSpace r3) as [ws' r4] eqn:E4.
  destruct (lit "(" r4) as [r5|] eqn:E5; cbn [mbind option_bind] in H; [|discriminate].
  inversion H; subst.
  apply lit_sound in E1, E5. apply span_sound in E2, E4.
  apply ident_sound in E3 as [E3 _]. subst.
  split; [|discriminate]. str_norm. reflexivity.
Qed.

Lemma actionCall_sound : sound actionCall.
Proof.
  intros s text v rest H. unfold actionCall in H.
  destruct (match s with
            | String c s' => if isModifier c then (String c EmptyString, s')
                             else (EmptyString, s)
            | EmptyString => (EmptyString, s)
            end) as [m r1] eqn:Em.
  assert (s = m +:+ r1) as ->.
  { destruct s as [|c s']; [inversion Em; reflexivity|].
    destruct (isModifier c); inversion Em; reflexivity. }
  destruct r1 as [|c r2]; [discriminate|].
  destruct (isAlpha c); [|discriminate].
  destruct (span isIdentChar r2) as [a r3] eqn:E3.
  destruct (span JS.isWhiteSpace r3) as [ws r4] eqn:E4.
  destruct (lit "(" r4) as [r5|] eqn:E5; cbn [mbind option_bind] in H; [|discriminate].
  inversion H; subst.
  apply lit_sound in E5. apply span_sound in E3, E4. subst.
  split.
  - str_norm. reflexivity.
  - destruct m; discriminate.
Qed.

Lemma comment_sound : sound comment.
Proof.
  intros s text v rest H. unfold comment in H.
  destruct (lit "//" s) as [r1|] eqn:E1; cbn [mbind option_bind] in H; [|discriminate].
  destruct (JS.spanDot r1) as [t r2] eqn:E2.
  destruct r2 as [|c r3]; [discriminate|].
  destruct (Ascii.eqb_spec c JS.LF) as [->|]; [|discriminate].
  inversion H; subst. apply lit_sound in E1. apply spanDot_sound in E2. subst.
  split; [|discriminate]. str_norm. reflexivity.
Qed.

Lemma mlComment_sound : sound mlComment.
Proof.
  intros s text v rest H. unfold mlComment in H.
  destruct (lit "/*" s) as [r1|] eqn:E1; cbn [mbind option_bind] in H; [|discriminate].
  destruct (untilClose r1) as [[t r2]|] eqn:E2; cbn [mbind option_bind] in H; [|discriminate].
  inversion H; subst. apply lit_sound in E1. apply untilClose_sound in E2. subst.
  split; [|discriminate]. str_norm. reflexivity.
Qed.

Lemma span_stop p s a c b : span p s = (a, String c b) -> p c = false.
Proof.
  revert a. induction s as [|x s IH]; intros a H; simpl in H; [inversion H|].
  destruct (p x) eqn:Ex.
  - destruct (span p s) as [a' b'] eqn:E. inversion H; subst. eapply IH. reflexivity.
  - inversion H; subst. assumption.
Qed.

Lemma stringLit_sound : sound stringLit.
Proof.
  intros s text v rest H. unfold stringLit in H.
  destruct s as [|c r1]; [discriminate|].
  destruct (Ascii.eqb_spec c JS.DQUOTE) as [->|]; [|discriminate].
  destruct (span (fun c => negb (c =? JS.DQUOTE)%char) r1) as [t r2] eqn:E.
  destruct r2 as [|q r3]; [discriminate|].
  inversion H; subst.
  apply span_stop in E as Eq. apply span_sound in E. subst.
  apply negb_false_iff in Eq. apply Ascii.eqb_eq in Eq. subst.
  split; [|discriminate]. str_norm. reflexivity.
Qed.

Lemma float_sound : sound float.
Proof.
  intros s text v rest H. unfold float in H.
  destruct (span isDigit s) as [[|d ds] r1] eqn:E1; [discriminate|].
  destruct (match r1 with
            | String c r => if (c =? ".")%char then (String c EmptyString, r)
                            else (EmptyString, r1)
            | EmptyString => (EmptyString, r1)
            end) as [dot r2] eqn:Edot.
  assert (r1 = dot +:+ r2) as ->.
  { destruct r1 as [|c r]; [inversion Edot; reflexivity|].
    destruct ((c =? ".")%char); inversion Edot; reflexivity. }
  destruct (span isDigit r2) as [frac r3] eqn:E3.
  destruct (match exponent r3 with
            | Some (e, r) => (e, r)
            | None => (EmptyString, r3)
            end) as [ex r4] eqn:Eex.
  assert (r3 = ex +:+ r4) as ->.
  { destruct (exponent r3) as [[e r]|] eqn:Ee; inversion Eex; subst.
    - apply exponent_sound in Ee. assumption.
    - reflexivity. }
  inversion H; subst. apply span_sound in E1, E3. subst.
  split; [|discriminate]. str_norm. reflexivity.
Qed.

Lemma identifier_sound : sound identifier.
Proof.
  intros s text v rest H. unfold identifier in H.
  destruct (ident s) as [[a r]|] eqn:E; cbn [mbind option_bind] in H; [|discriminate].
  inversion H; subst. apply ident_sound in E. assumption.
Qed.

Lemma eos_sound : sound eos.
Proof.
  intros s text v rest H. unfold eos in H.
  destruct (span isBlank s) as [ws r1] eqn:E1.
  destruct (lit ";" r1) as [r2|] eqn:E2; cbn [mbind option_bind] in H; [|discriminate].
  inversion H; subst. apply span_sound in E1. apply lit_sound in E2. subst.
  split; [str_norm; reflexivity | destruct ws; discriminate].
Qed.

Lemma whitespace_sound : sound whitespace.
Proof.
  intros s text v rest H. unfold whitespace in H.
  destruct (span isBlank s) as [[|c ws] r] eqn:E; [discriminate|].
  inversion H; subst. apply span_sound in E. split; [assumption | discriminate].
Qed.

(** The rules that the table is compiled to: the two boolean literals
    are keywords of the identifier rule, every other entry is a rule. *)
Lemma rules_eq :
  rules =
  [ mkRule "include" (angled "include") true [];
    mkRule "use" (angled "use") true [];
    mkRule "moduleDefinition" (definition "module") true [];
    mkRule "functionDefinition" (definition "function") true [];
    mkRule "actionCall" actionCall true [];
    mkRule "comment" comment true [];
    mkRule "mlComment" mlComment true [];
    mkRule "comma" (firstOf [literal ","]) false [];
    mkRule "seperator" (firstOf [literal ":"]) false [];
    mkRule "lvect" (firstOf [literal "["]) false [];
    mkRule "rvect" (firstOf [literal "]"]) false [];
    mkRule "lparent" (firstOf [literal "("]) false [];
    mkRule "rparent" (firstOf [literal ")"]) false [];
    mkRule "lblock" (firstOf [literal "{"]) false [];
    mkRule "rblock" (firstOf [literal "}"]) false [];
    mkRule "operator1" (firstOf [literal "*"; literal "/"; literal "%"]) false [];
    mkRule "operator2" (firstOf [literal "+"; literal "-"]) false [];
    mkRule "operator3"
      (firstOf [literal "<"; literal "<="; literal "=="; literal "!=";
                literal ">="; literal ">"; literal "&&"; literal "||"]) false [];
    mkRule "assign" (firstOf [literal "="]) false [];
    mkRule "identifier" identifier false [("true", "bool"); ("false", "bool")];
    mkRule "string" stringLit false [];
    mkRule "float" float false [];
    mkRule "eol" (literal (String JS.LF EmptyString)) true [];
    mkRule "eos" eos false [];
    mkRule "whitespace" whitespace false [] ].
Proof. reflexivity. Qed.

#[global] Opaque rules.

(** Every rule of the scanner is sound. *)
Lemma rules_sound : Forall (fun r => sound (rule_match r)) rules.
Proof.
  rewrite rules_eq.
  repeat (apply Forall_cons; cbn [rule_match]; split;
          [first [ apply angled_sound | apply definition_sound | apply actionCall_sound
                 | apply comment_sound | apply mlComment_sound | apply literal_sound
                 | apply stringLit_sound | apply float_sound | apply identifier_sound
                 | apply eos_sound | apply whitespace_sound
                 | apply firstOf_sound;
                   repeat (apply List.Forall_cons; [apply literal_sound|]);
                   apply List.Forall_nil ] |]).
  constructor.
Qed.

Lemma firstRule_sound rules s r text v rest :
  Forall (fun r => sound (rule_match r)) rules ->
  firstRule rules s = Some (r, (text, v, rest)) ->
  s = text +:+ rest /\ text <> EmptyString.
Proof.
  induction 1 as [|r0 rules Hr Hrules IH]; simpl; [discriminate|].
  destruct (rule_match r0 s) as [[[t' v'] r']|] eqn:E.
  - intros H; inversion H; subst. eapply Hr. eassumption.
  - exact IH.
Qed.

(** [next] leaves strictly less of the buffer. *)
Lemma next_consumes lx t lx' :
  next lx = Some (t, lx') ->
  String.length (lx_rest lx') < String.length (lx_rest lx).
Proof.
  unfold next. destruct (lx_rest lx) as [|c s] eqn:Erest; [discriminate|].
  destruct (firstRule rules (String c s)) as [[r [[text v] rest]]|] eqn:E.
  - apply firstRule_sound in E as [Eq Hne]; [|apply rules_sound].
    destruct (if rule_lineBreaks r then countNL text 0%Z (0%Z, 1%Z) else (0%Z, 1%Z)).
    intros H; inversion H; subst; cbn [lx_rest].
    rewrite Eq, length_append. destruct text; [congruence | simpl; lia].
  - destruct (countNL (String c s) 0%Z (0%Z, 1%Z)).
    intros H; inversion H; subst; simpl. lia.
Qed.

Lemma unfold_fuel f1 f2 lx :
  String.length (lx_rest lx) < f1 -> String.length (lx_rest lx) < f2 ->
  unfold f1 lx = unfold f2 lx.
Proof.
  revert f2 lx. induction f1 as [|f1 IH]; intros f2 lx H1 H2; [lia|].
  destruct f2 as [|f2]; [lia|]. simpl.
  destruct (next lx) as [[t lx']|] eqn:E; [|reflexivity].
  apply next_consumes in E. f_equal. apply IH; lia.
Qed.

(** The stream of tokens is the iteration of [next] until it returns
    nothing. *)
Lemma stream_next lx :
  stream lx =
  match next lx with
  | Some (t, lx') => (t, lx') :: stream lx'
  | None => []
  end.
Proof.
  unfold stream at 1. simpl.
  destruct (next lx) as [[t lx']|] eqn:E; [|reflexivity].
  apply next_consumes in E. f_equal. apply unfold_fuel; lia.
Qed.

End TokenFacts.

(** ** parse: what the loop consumes, captures and feeds *)

Module ParseFacts.
Import Nodes NodeSpec NodeFacts ParseSpecs.

Section Facts.
Context {Value : Type}.
Variable G : Grammar Value.
Variable readFileSync : string -> option string.


Lemma alter_app_twice (m : gmap string (list Token)) file (l1 l2 : list Token) :
  alter (fun c => c ++ l2) file (alter (fun c => c ++ l1) file m) =
  alter (fun c => c ++ (l1 ++ l2)) file m.
Proof.
  apply map_eq. intros k. destruct (decide (file = k)) as [->|Hne].
  - rewrite !lookup_alter_eq. destruct (m !! k); simpl; [|reflexivity].
    rewrite <- app_assoc. reflexivity.
  - rewrite !lookup_alter_ne by assumption. reflexivity.
Qed.

Lemma alter_app_nil (m : gmap string (list Token)) file :
  alter (fun c => c ++ []) file m = m.
Proof.
  apply map_eq. intros k. destruct (decide (file = k)) as [->|Hne].
  - rewrite lookup_alter_eq. destruct (m !! k); simpl; [|reflexivity].
    rewrite app_nil_r. reflexivity.
  - rewrite lookup_alter_ne by assumption. reflexivity.
Qed.

Lemma filter_kept_ignored this token l :
  existsb (String.eqb (t_type token)) (ignoredTokens this) = true ->
  List.filter (kept this) (token :: l) = List.filter (kept this) l.
Proof. intros E. simpl. unfold kept at 1. rewrite E. reflexivity. Qed.

Lemma filter_kept_kept this token l :
  existsb (String.eqb (t_type token)) (ignoredTokens this) = false ->
  List.filter (kept this) (token :: l) = token :: List.filter (kept this) l.
Proof. intros E. simpl. unfold kept at 1. rewrite E. reflexivity. Qed.

Lemma feedLoop_spec toks parser file this w :
  LoopSpec G toks parser file this w
    (feedLoop G toks parser file this w).1.1
    (feedLoop G toks parser file this w).1.2
    (feedLoop G toks parser file this w).2.
Proof.
  revert parser this w. induction toks as [|[token lx] toks IH]; intros parser this w.
  - simpl. apply LoopSpec_intro with (consumed := []); simpl;
      rewrite ?app_nil_r, ?alter_app_nil; try reflexivity.
    split; reflexivity.
  - cbn [feedLoop heap lexer lexLog feedLog].
    destruct (existsb (String.eqb (t_type token)) (ignoredTokens this)) eqn:Eign.
    + destruct (IH parser this
                  (mkWorld (heap w) lx (lexLog w ++ [token]) (feedLog w)))
        as [cons Hpre Hlex Hfeed Hheap Htok Hign Hcache Hcode Hres].
      apply LoopSpec_intro with (consumed := token :: cons);
        rewrite ?(filter_kept_ignored _ _ _ Eign); try assumption.
      * apply prefix_cons. assumption.
      * rewrite Hlex. simpl. rewrite <- app_assoc. reflexivity.
      * destruct ((feedLoop G toks parser file this
                     (mkWorld (heap w) lx (lexLog w ++ [token]) (feedLog w))).1.1).
        -- destruct Hres as [-> Hf]. split; [reflexivity | assumption].
        -- assumption.
    + set (this1 := with_tokenCache (alter (fun c => c ++ [token]) file) this).
      set (w1 := mkWorld (heap w) lx (lexLog w ++ [token]) (feedLog w ++ [token])).
      destruct (feed G parser token) as [parser'|] eqn:Efeed.
      * destruct (IH parser' this1 w1)
          as [cons Hpre Hlex Hfeed Hheap Htok Hign Hcache Hcode Hres].
        change (kept this1) with (kept this) in *.
        apply LoopSpec_intro with (consumed := token :: cons);
          rewrite ?(filter_kept_kept _ _ _ Eign); try assumption.
        -- apply prefix_cons. assumption.
        -- rewrite Hlex. simpl. rewrite <- app_assoc. reflexivity.
        -- rewrite Hfeed. simpl. rewrite <- app_assoc. reflexivity.
        -- rewrite Htok. simpl. apply alter_app_twice.
        -- destruct ((feedLoop G toks parser' file this1 w1).1.1).
           ++ destruct Hres as [-> Hf]. split; [reflexivity|].
              simpl. rewrite Efeed. assumption.
           ++ destruct Hres as (pre & t & p0 & Heq & Hf & Hnone).
              exists (token :: pre), t, p0. rewrite Heq. simpl. rewrite Efeed.
              repeat split; assumption.
      * apply LoopSpec_intro with (consumed := [token]);
          rewrite ?(filter_kept_kept _ _ _ Eign); simpl; try reflexivity.
        -- apply prefix_cons. apply prefix_nil.
        -- exists [], token, parser. repeat split. assumption.
Qed.

Lemma parse_spec code file this w :
  ParseSpec G code file this w
    (parse G code file this w).1.1
    (parse G code file this w).1.2
    (parse G code file this w).2.
Proof.
  unfold parse. cbn [heap lexer lexLog feedLog].
  set (this0 := with_tokenCache (insert file []) this).
  set (w0 := mkWorld (heap w) (Tokens.reset code (lexer w)) (lexLog w) (feedLog w)).
  destruct (feedLoop_spec (Tokens.stream (Tokens.reset code (lexer w)))
              (start G) file this0 w0)
    as [cons Hpre Hlex Hfeed Hheap Htok Hign Hcache Hcode Hres].
  change (kept this0) with (kept this) in *.
  destruct (feedLoop G (Tokens.stream (Tokens.reset code (lexer w)))
              (start G) file this0 w0) as [[res this1] w1].
  cbn [fst snd] in *.
  assert (tokenCache this1 = <[file := List.filter (kept this) cons]> (tokenCache this))
    as Htok'.
  { rewrite Htok. unfold this0; simpl. rewrite alter_insert_eq. reflexivity. }
  destruct res as [parser'|].
  - destruct Hres as [-> Hf].
    pose proof (runArg_built (head (results G parser'))) as Hb.
    destruct (runArg (head (results G parser')) (heap w1)) as [arg h1] eqn:Earg.
    destruct (new_RootNode arg h1) as [root h2] eqn:Eroot.
    cbn [fst snd heap lexer lexLog feedLog].
    apply ParseSpec_intro
      with (consumed := map fst (Tokens.stream (Tokens.reset code (lexer w))));
      try assumption.
    split; [reflexivity|]. exists parser'. split; [assumption|].
    assert (AllBlock run_ok (head (results G parser'))) as Hall.
    { destruct (head (results G parser')) as [l|]; simpl; [|exact I].
      apply Forall_forall. intros [s|] _; [apply run_built | exact I]. }
    specialize (Hb Hall (heap w1)). rewrite Earg in Hb. cbn [fst snd] in Hb.
    pose proof (construct_built FRoot arg None (heap w1) h1 _ Hb) as Hc.
    unfold new_RootNode in Eroot. rewrite Eroot in Hc. cbn [fst snd] in Hc.
    unfold w0 in Hheap. cbn [heap] in Hheap. rewrite Hheap in Hc. exact Hc.
  - cbn [fst snd heap lexer lexLog feedLog].
    apply ParseSpec_intro with (consumed := cons); try assumption.
    split; [assumption|]. split; [reflexivity | assumption].
Qed.

End Facts.
End ParseFacts.

(** ** Node construction and setChildren: what is attached *)

Section Attachment.
Context {Value : Type}.
Implicit Types (h : Nodes.Heap Value).

(** C10: the children stored by Node construction and by [setChildren]
    are exactly the non-null entries of the supplied array, in their
    order; their number is the number of non-null entries, whatever the
    length of the array. *)
Theorem children_are_the_non_null_entries
    (f : Nodes.Fields Value) (arr : list (option Nodes.ref)) (token : option Token)
    h (this : Nodes.ref) :
  is_Some (h !! this) ->
  (exists o,
     (Nodes.construct f (Some arr) token h).2 !! (Nodes.construct f (Some arr) token h).1
       = Some o /\
     Some <$> Nodes.children o = filter is_Some arr /\
     List.length (Nodes.children o) = List.length (filter is_Some arr)) /\
  (exists o,
     Nodes.setChildren this arr h !! this = Some o /\
     Some <$> Nodes.children o = filter is_Some arr /\
     List.length (Nodes.children o) = List.length (filter is_Some arr)).
Proof.
  intros [o0 Ho0].
  assert (Some <$> Nodes.truthy arr = filter is_Some arr) as Htruthy.
  { unfold Nodes.truthy. induction arr as [|[c|] arr IH]; simpl.
    - reflexivity.
    - rewrite filter_cons_True by (eexists; reflexivity). f_equal. exact IH.
    - rewrite filter_cons_False by (intros [? ?]; discriminate). exact IH. }
  assert (List.length (Nodes.truthy arr) = List.length (filter is_Some arr)) as Hlen.
  { rewrite <- Htruthy, length_fmap. reflexivity. }
  split.
  - unfold Nodes.construct, Nodes.alloc; simpl.
    rewrite list_lookup_alter_eq, NodeFacts.Node_constructor_lookup,
      list_lookup_middle by reflexivity.
    simpl. eexists. split; [reflexivity|]. simpl.
    rewrite decide_True by reflexivity. split; assumption.
  - rewrite NodeFacts.setChildren_lookup, Ho0. simpl.
    eexists. split; [reflexivity|]. simpl.
    rewrite decide_True by reflexivity. split; assumption.
Qed.

End Attachment.

Lemma children_are_the_non_null_entries_witness :
  let h := (Nodes.construct (Value:=string) Nodes.FNode None None
              (Nodes.construct Nodes.FNode None None []).2).2 in
  is_Some (h !! 1%nat) /\
  (exists o,
     Nodes.setChildren 1%nat [None; Some 0%nat; None] h !! 1%nat = Some o /\
     Some <$> Nodes.children o = filter is_Some [None; Some 0%nat; None] /\
     List.length (Nodes.children o) = List.length (filter is_Some [None; Some 0%nat; None])).
Proof.
  intros h.
  assert (is_Some (h !! 1%nat)) as Hs by (eexists; reflexivity).
  split; [exact Hs|].
  exact (proj2 (children_are_the_non_null_entries Nodes.FNode
                  [None; Some 0%nat; None] None h 1%nat Hs)).
Defined.

(** ** CommentNode: the stored text *)

Lemma trimStart_spec s :
  exists a, s = a +:+ JS.trimStart s /\ allWhite a = true /\
            notWhite (firstChar (JS.trimStart s)).
Proof.
  induction s as [|c s (a & Heq & Ha & Hn)]; simpl.
  - exists EmptyString. repeat split.
  - destruct (JS.isWhiteSpace c) eqn:Ec.
    + exists (String c a). rewrite TokenFacts.append_cons, <- Heq. simpl.
      rewrite Ec, Ha. auto.
    + exists EmptyString. simpl. auto.
Qed.

Lemma trimEnd_spec s :
  exists b, s = JS.trimEnd s +:+ b /\ allWhite b = true /\
            notWhite (lastChar (JS.trimEnd s)) /\
            (notWhite (firstChar s) -> notWhite (firstChar (JS.trimEnd s))).
Proof.
  induction s as [|c s (b & Heq & Hb & Hn & Hf)]; simpl.
  - exists EmptyString. auto.
  - destruct (JS.trimEnd s) as [|x r] eqn:Er.
    + destruct (JS.isWhiteSpace c) eqn:Ec.
      * exists (String c b). rewrite TokenFacts.append_nil_l in *. simpl.
        rewrite Ec, Hb, <- Heq. repeat split; auto; try (intros; congruence).
      * exists b. rewrite TokenFacts.append_cons, <- Heq. simpl. auto.
    + exists b. rewrite TokenFacts.append_cons, <- Heq. simpl in *.
      repeat split; auto; try (destruct r; assumption).
Qed.

(** C6: a CommentNode built with [multiline = false] stores the trimmed
    text: the captured text without the white space at its two ends; a
    CommentNode built with [multiline = true] stores the captured text
    as it is.  The flag is stored as given. *)
Theorem CommentNode_text {Value : Type} (token : option Token) (text : string)
    (multiline : bool) (h : Nodes.Heap Value) :
  exists stored,
    (Nodes.new_CommentNode token text multiline h).2
      !! (Nodes.new_CommentNode token text multiline h).1 =
    Some (Nodes.mkObj [] None (Nodes.tokenLocation token)
            (Nodes.FComment stored multiline)) /\
    if multiline then stored = text
    else stored = JS.trim text /\
         exists a b, text = a +:+ stored +:+ b /\
                     allWhite a = true /\ allWhite b = true /\
                     notWhite (firstChar stored) /\ notWhite (lastChar stored).
Proof.
  exists (if multiline then text else JS.trim text). split.
  - unfold Nodes.new_CommentNode. rewrite NodeFacts.construct_fst.
    apply (NodeFacts.construct_lookup_new _ None). constructor.
  - destruct multiline; [reflexivity|]. split; [reflexivity|].
    unfold JS.trim.
    destruct (trimStart_spec text) as (a & Ha & Hwa & Hfa).
    destruct (trimEnd_spec (JS.trimStart text)) as (b & Hb & Hwb & Hlb & Hfb).
    exists a, b. rewrite <- Hb, <- Ha. repeat split; auto.
Qed.

(** ** ActionNode: modifier and name *)

Lemma spanDot_singleLine s : singleLine s = true -> JS.spanDot s = (s, EmptyString).
Proof.
  induction s as [|c s IH]; simpl; [reflexivity|].
  destruct (JS.isLineTerminator c); simpl; [discriminate|].
  intros H. rewrite (IH H). reflexivity.
Qed.

Lemma singleLine_tail c s : singleLine (String c s) = true -> singleLine s = true.
Proof. simpl. intros H. apply andb_true_iff in H. tauto. Qed.

Lemma modifier_strip text : leadingModifier text +:+ stripModifier text = text.
Proof.
  destruct text as [|c s]; simpl; [reflexivity|].
  destruct (Tokens.isModifier c); reflexivity.
Qed.

(** On a text without line terminator the two [replace] calls of the
    constructor yield the leading modifier character, when there is
    one, and the rest of the text. *)
Lemma actionMatch_singleLine text :
  singleLine text = true ->
  Nodes.actionMatch text = (leadingModifier text, stripModifier text, EmptyString).
Proof.
  intros Hline. unfold Nodes.actionMatch, leadingModifier, stripModifier.
  destruct text as [|c s]; [reflexivity|]. cbv beta iota.
  destruct (Tokens.isModifier c) eqn:Ec.
  - rewrite (spanDot_singleLine s) by (eapply singleLine_tail; eassumption).
    reflexivity.
  - rewrite (spanDot_singleLine _ Hline). reflexivity.
Qed.

Lemma leadingModifier_cases text :
  leadingModifier text ∈ [EmptyString; "!"; "#"; "*"; "%"].
Proof.
  apply list_elem_of_In. destruct text as [|c s]; [left; reflexivity|].
  unfold leadingModifier. destruct (Tokens.isModifier c) eqn:Ec; [|left; reflexivity].
  destruct c as [[] [] [] [] [] [] [] []]; try discriminate Ec; cbn; tauto.
Qed.

(** The expression of the constructor is not anchored at its end and
    its dot stops at a line terminator: on a text with a line
    terminator, which the scanner matches as an action call but never
    hands out as the value of a token, [replace] keeps what follows the
    first line. *)
Example ActionNode_text_over_two_lines :
  Tokens.actionCall actionOverTwoLines = Some (actionOverTwoLines, "!a", EmptyString) /\
  (Nodes.new_ActionNode None actionOverTwoLines "[]" []).2 !! 0%nat =
    Some (Nodes.mkObj [] None None
            (Nodes.FAction ("a" +:+ NL +:+ "(") ("!" +:+ NL +:+ "(") "[]" None)).
Proof. vm_compute. split; reflexivity. Qed.

(** The value of an action-call token, the capture group of its rule,
    has no line terminator. *)
Lemma span_identChar_singleLine s a b :
  Tokens.span Tokens.isIdentChar s = (a, b) -> singleLine a = true.
Proof.
  revert a b. induction s as [|c s IH]; intros a b H; simpl in H.
  - inversion H. reflexivity.
  - destruct (Tokens.isIdentChar c) eqn:Ec.
    + destruct (Tokens.span Tokens.isIdentChar s) as [a' b'] eqn:E.
      inversion H; subst. simpl. rewrite (IH a' b) by reflexivity.
      destruct c as [[] [] [] [] [] [] [] []]; (discriminate || reflexivity).
    + inversion H. reflexivity.
Qed.

Lemma actionCall_value_singleLine s text name rest :
  Tokens.actionCall s = Some (text, name, rest) -> singleLine name = true.
Proof.
  unfold Tokens.actionCall.
  destruct (match s with
            | String c s' => if Tokens.isModifier c then (String c EmptyString, s')
                             else (EmptyString, s)
            | EmptyString => (EmptyString, s)
            end) as [m r1] eqn:Em.
  assert (singleLine m = true) as Hm.
  { destruct s as [|c s']; [inversion Em; reflexivity|].
    destruct (Tokens.isModifier c) eqn:Ec; inversion Em; subst; [|reflexivity].
    destruct c as [[] [] [] [] [] [] [] []]; (discriminate || reflexivity). }
  destruct r1 as [|c r2]; [discriminate|].
  destruct (Tokens.isAlpha c) eqn:Ec; [|discriminate].
  destruct (Tokens.span Tokens.isIdentChar r2) as [a r3] eqn:E3.
  destruct (Tokens.span JS.isWhiteSpace r3) as [ws r4].
  destruct (Tokens.lit "(" r4) as [r5|]; cbn [mbind option_bind]; [|discriminate].
  intros H; inversion H; subst.
  apply span_identChar_singleLine in E3.
  assert (singleLine (String c a) = true) as Hca.
  { simpl. rewrite E3.
    destruct c as [[] [] [] [] [] [] [] []]; (discriminate || reflexivity). }
  clear -Hm Hca. induction m as [|x m IH]; [exact Hca|].
  rewrite TokenFacts.append_cons. simpl in *.
  apply andb_true_iff in Hm as [-> Hm]. simpl. apply IH. assumption.
Qed.

(** ** getCodeExcerpt *)

(** C2 at a location on line 6 (column 1, width 2): the excerpt starts
    four lines above the failing line and ends two lines below it, and
    the marker stands under line 7. *)
Theorem getCodeExcerpt_line_6 :
  excerptOf tenLines (mkLocation 15 2 0 6 1) =
  Some ["2: l2"; "3: l3"; "4: l4"; "5: l5"; "6: l6"; "7: l7"; "   ^^"; "8: l8"].
Proof. vm_compute. reflexivity. Qed.

(** On lines 1 to 5 the window starts at the first line and the marker
    is under the failing line; from line 8 on there is no marker. *)
Example getCodeExcerpt_line_2 :
  excerptOf tenLines (mkLocation 3 2 0 2 1) =
  Some ["1: l1"; "2: l2"; "   ^^"; "3: l3"; "4: l4"].
Proof. vm_compute. reflexivity. Qed.

Example getCodeExcerpt_line_5 :
  excerptOf tenLines (mkLocation 12 2 0 5 1) =
  Some ["1: l1"; "2: l2"; "3: l3"; "4: l4"; "5: l5"; "   ^^"; "6: l6"; "7: l7"].
Proof. vm_compute. reflexivity. Qed.

Example getCodeExcerpt_line_8 :
  excerptOf tenLines (mkLocation 21 2 0 8 1) =
  Some ["4: l4"; "5: l5"; "6: l6"; "7: l7"; "8: l8"; "9: l9"; "10: l10"].
Proof. vm_compute. reflexivity. Qed.

(** ** parse: the tokens fed, the errors raised, the tree built *)

Example stream_parser_error lx :
  map fst (Tokens.stream (Tokens.reset "myVar module ;" lx)) =
  [tokMyVar; mkToken "whitespace" " " 5 1 0 1 6; tokModule; tokSemi].
Proof. vm_compute. reflexivity. Qed.

Example stream_lexer_error lx :
  map fst (Tokens.stream (Tokens.reset "&%!;" lx)) = [tokGarbage].
Proof. vm_compute. reflexivity. Qed.

Section ParseClaims.
Context {Value : Type}.
Variable G : Grammar Value.
Variable readFileSync : string -> option string.


End ParseClaims.

(** ** The tree that parse returns *)

Section TreeClaims.
Context {Value : Type}.
Variable G : Grammar Value.
Implicit Types (h : Nodes.Heap Value).

(** Attachment at construction: every attached child that is an object
    of the store has the new node for parent afterwards. *)
Lemma Node_constructor_sets_parent (this : Nodes.ref) arr token h c o :
  c ∈ Nodes.truthy arr ->
  Nodes.Node_constructor this (Some arr) token h !! c = Some o ->
  Nodes.parent o = Some this.
Proof.
  intros Hin. rewrite NodeFacts.Node_constructor_lookup. simpl.
  destruct (h !! c) as [o0|]; simpl; [|discriminate].
  intros H; inversion H; subst; simpl. rewrite decide_True by assumption. reflexivity.
Qed.

(** Attachment by [setChildren]: the same. *)
Lemma setChildren_sets_parent (this : Nodes.ref) arr h c o :
  c ∈ Nodes.truthy arr ->
  Nodes.setChildren this arr h !! c = Some o ->
  Nodes.parent o = Some this.
Proof.
  intros Hin. rewrite NodeFacts.setChildren_lookup.
  destruct (h !! c) as [o0|]; simpl; [|discriminate].
  intros H; inversion H; subst; simpl. rewrite decide_True by assumption. reflexivity.
Qed.

Lemma tree_at_child h par p t o c :
  Nodes.tree_at h par p t -> h !! p = Some o -> c ∈ Nodes.children o ->
  exists t', Nodes.tree_at h (Some p) c t'.
Proof.
  intros Ht Ho Hc. inversion Ht as [par' r f loc cs ts Hr Hsub]; subst.
  rewrite Hr in Ho. inversion Ho; subst. simpl in Hc.
  apply list_elem_of_lookup in Hc as [i Hi].
  destruct (Forall2_lookup_l _ _ _ _ _ Hsub Hi) as (t' & _ & Ht').
  exists t'. exact Ht'.
Qed.

Lemma tree_at_reachable h par r t n :
  Nodes.tree_at h par r t -> Nodes.reachable h r n ->
  exists par' t', Nodes.tree_at h par' n t'.
Proof.
  intros Ht. induction 1 as [|p o c Hp (par' & t' & IH) Ho Hc].
  - eauto.
  - destruct (tree_at_child _ _ _ _ _ _ IH Ho Hc) as [tc Htc]. eauto.
Qed.

Lemma tree_at_parent h par r t :
  Nodes.tree_at h par r t -> exists o, h !! r = Some o /\ Nodes.parent o = par.
Proof. inversion 1; subst. eexists. split; [eassumption | reflexivity]. Qed.

(** C3: in the tree that [parse] returns, the root has no parent; every
    node listed as a child of a reachable node has that node for parent,
    so every reachable node other than the root has exactly one parent
    among the reachable nodes, the one that lists it; and the children
    of each node are the non-null results of the reductions in their
    order (the tree has the shape that the results denote). *)
Theorem parse_tree_parent_back_references (code file : string) (this : SCADParser)
    (w : World Value) (root : Nodes.ref) (this' : SCADParser) (w' : World Value) :
  parse G code file this w = (Return root, this', w') ->
  (exists parser',
     feeds G (start G) (List.filter (kept this) (Tokens.tokenize code)) = Some parser' /\
     Nodes.tree_at (heap w') None root
       (Nodes.TNode Nodes.FRoot None (Nodes.denoteArg (head (results G parser'))))) /\
  (exists o, heap w' !! root = Some o /\ Nodes.parent o = None) /\
  (forall p o c,
     Nodes.reachable (heap w') root p -> heap w' !! p = Some o ->
     c ∈ Nodes.children o ->
     exists oc, heap w' !! c = Some oc /\ Nodes.parent oc = Some p) /\
  (forall n,
     Nodes.reachable (heap w') root n -> n <> root ->
     exists p op on,
       Nodes.reachable (heap w') root p /\ heap w' !! p = Some op /\
       n ∈ Nodes.children op /\
       heap w' !! n = Some on /\ Nodes.parent on = Some p /\
       forall q oq, Nodes.reachable (heap w') root q -> heap w' !! q = Some oq ->
                    n ∈ Nodes.children oq -> q = p).
Proof.
  intros Hparse.
  pose proof (ParseFacts.parse_spec G code file this w) as Hspec.
  rewrite Hparse in Hspec. cbn [fst snd] in Hspec.
  destruct Hspec as [lexed Hpre Hlex Hfeed Htok Hign Hcache Hcode (-> & parser' & Hf & Hb)].
  destruct Hb as (_ & _ & _ & Htree). apply NodeFacts.tree_in_at in Htree.
  assert (forall p o c,
            Nodes.reachable (heap w') root p -> heap w' !! p = Some o ->
            c ∈ Nodes.children o ->
            exists oc, heap w' !! c = Some oc /\ Nodes.parent oc = Some p) as Hback.
  { intros p o c Hp Ho Hc.
    destruct (tree_at_reachable _ _ _ _ _ Htree Hp) as (par' & t' & Ht').
    destruct (tree_at_child _ _ _ _ _ _ Ht' Ho Hc) as [tc Htc].
    apply tree_at_parent in Htc. exact Htc. }
  split; [exists parser'; split; assumption|].
  split; [apply tree_at_parent in Htree; exact Htree|].
  split; [exact Hback|].
  intros n Hn Hne. destruct Hn as [|p o c Hp Ho Hc]; [congruence|].
  destruct (Hback p o c Hp Ho Hc) as (oc & Hoc & Hpar).
  exists p, o, oc. repeat split; try assumption.
  intros q oq Hq Hoq Hcq.
  destruct (Hback q oq c Hq Hoq Hcq) as (oc' & Hoc' & Hpar').
  congruence.
Qed.


End TreeClaims.

Lemma parse_tree_parent_back_references_witness :
  let code := "// one" +:+ NL +:+ "x = 1+2;" in
  let r := parse Fragment.grammar code "a.scad" new_SCADParser Fragment.world0 in
  r.1.1 = Return 2%nat /\
  (exists o, heap r.2 !! 2%nat = Some o /\ Nodes.parent o = None) /\
  (forall p o c,
     Nodes.reachable (heap r.2) 2%nat p -> heap r.2 !! p = Some o ->
     c ∈ Nodes.children o ->
     exists oc, heap r.2 !! c = Some oc /\ Nodes.parent oc = Some p).
Proof.
  intros code r.
  assert (parse Fragment.grammar code "a.scad" new_SCADParser Fragment.world0 =
          (Return 2%nat, r.1.2, r.2)) as Hparse by (vm_compute; reflexivity).
  split; [vm_compute; reflexivity|].
  pose proof (parse_tree_parent_back_references Fragment.grammar code "a.scad"
                new_SCADParser Fragment.world0 2%nat r.1.2 r.2 Hparse)
    as (_ & Hroot & Hback & _).
  split; [exact Hroot | exact Hback].
Defined.


(** ** parse: how a failure is reported *)

Section ErrorClaims.
Context {Value : Type}.
Variable G : Grammar Value.
Variable readFileSync : string -> option string.

Lemma parse_catch_classified (file : string) (this : SCADParser)
    (captured : list Token) (src : string) :
  tokenCache this !! file = Some captured ->
  codeCache this !! file = Some src ->
  classified captured (parse_catch file this).
Proof.
  intros Htok Hcode. unfold parse_catch. rewrite Htok.
  assert (exists excerpt,
            getCodeExcerpt file (Loc.new (last captured)) 3 this = Some excerpt)
    as [excerpt Hex].
  { unfold getCodeExcerpt. rewrite Hcode. cbn [mbind option_bind].
    eexists. reflexivity. }
  rewrite Hex. unfold classified, lastIsLexerError.
  destruct (match last captured with
            | Some l => String.eqb (t_type l) "LexerError"
            | None => false
            end).
  - split; [reflexivity|]. split; reflexivity.
  - split; [reflexivity|]. split; [reflexivity|]. split; reflexivity.
Qed.

(** Every failure of a parse started by [parseAST] on a non-empty code,
    for a file whose name is neither length nor __proto__, is
    classified: a LexerError exactly when the last token captured for
    the file is an unrecognized-input token, a ParserError otherwise.
    The captured tokens are the kept tokens of the text up to the first
    one that the parser rejects. *)
Lemma parseAST_failure_classified (file : Arg) (c : ascii) (s : string)
    (this : SCADParser) (w : World Value) (e : Exn)
    (this' : SCADParser) (w' : World Value) :
  plainKey (toKey file) = true ->
  parseAST G readFileSync file (Str (String c s)) this w = (Throw e, this', w') ->
  exists captured,
    tokenCache this' !! toKey file = Some captured /\ classified captured e /\
    captured `prefix_of` List.filter (kept this) (Tokens.tokenize (String c s)) /\
    exists pre t parser0,
      captured = pre ++ [t] /\
      feeds G (start G) pre = Some parser0 /\ feed G parser0 t = None.
Proof.
  intros _. unfold parseAST. cbn [isString negb andb].
  rewrite andb_false_r.
  set (this0 := with_codeCache (insert (toKey file) (String c s)) this).
  pose proof (ParseFacts.parse_spec G (String c s) (toKey file) this0 w) as Hspec.
  destruct (parse G (String c s) (toKey file) this0 w) as [[out this1] w1].
  cbn [fst snd] in Hspec.
  destruct Hspec as [lexed Hpre _ _ Htok _ _ Hcode Hres].
  destruct out as [root|e0]; [discriminate|].
  intros H; inversion H; subst. destruct Hres as (_ & -> & Hrej).
  change (kept this0) with (kept this) in *.
  assert (tokenCache this' !! toKey file = Some (List.filter (kept this) lexed))
    as Htok' by (rewrite Htok; apply lookup_insert_eq).
  assert (codeCache this' !! toKey file = Some (String c s)) as Hcode'.
  { rewrite Hcode. unfold this0; simpl. apply lookup_insert_eq. }
  exists (List.filter (kept this) lexed). split; [assumption|].
  split; [eapply parse_catch_classified; eassumption|].
  split; [|exact Hrej].
  destruct Hpre as [k ->]. rewrite List.filter_app. apply prefix_app_r. reflexivity.
Qed.

(** When such a parse returns, the parser has accepted every kept token
    of the text. *)
Lemma parseAST_success_accepts (file : Arg) (c : ascii) (s : string)
    (this : SCADParser) (w : World Value) (root : Nodes.ref)
    (this' : SCADParser) (w' : World Value) :
  parseAST G readFileSync file (Str (String c s)) this w = (Return root, this', w') ->
  exists parser',
    feeds G (start G) (List.filter (kept this) (Tokens.tokenize (String c s)))
    = Some parser'.
Proof.
  unfold parseAST. cbn [isString negb andb].
  rewrite andb_false_r.
  set (this0 := with_codeCache (insert (toKey file) (String c s)) this).
  pose proof (ParseFacts.parse_spec G (String c s) (toKey file) this0 w) as Hspec.
  destruct (parse G (String c s) (toKey file) this0 w) as [[out this1] w1].
  cbn [fst snd] in Hspec.
  destruct Hspec as [lexed _ _ _ _ _ _ _ Hres].
  destruct out as [r|e0]; [|discriminate].
  intros _. destruct Hres as (-> & parser' & Hf & _).
  exists parser'. exact Hf.
Qed.

Lemma kept_parser_error :
  List.filter (kept new_SCADParser) (Tokens.tokenize "myVar module ;") =
  [tokMyVar; tokModule; tokSemi].
Proof. vm_compute. reflexivity. Qed.

Lemma kept_lexer_error :
  List.filter (kept new_SCADParser) (Tokens.tokenize "&%!;") = [tokGarbage].
Proof. vm_compute. reflexivity. Qed.

(** The input [&%!;]: its one token is an unrecognized-input token; a
    grammar that has no use for such a token rejects it, and the
    failure is a LexerError. *)
Lemma lexer_error_example (w : World Value) :
  feed G (start G) tokGarbage = None ->
  exists msg this' w',
    parseAST G readFileSync (Str "lexer_error.scad") (Str "&%!;") new_SCADParser w =
    (Throw (LexerError msg (mkLocation 0 4 0 1 1)), this', w') /\
    String.prefix "Lexer error:" msg = true.
Proof.
  intros H.
  destruct (parseAST G readFileSync (Str "lexer_error.scad") (Str "&%!;")
              new_SCADParser w) as [[[root|e] this'] w'] eqn:E.
  - apply parseAST_success_accepts in E as [p Hp].
    rewrite kept_lexer_error in Hp. simpl in Hp. rewrite H in Hp. discriminate.
  - apply parseAST_failure_classified in E
      as (captured & _ & Hclass & Hpre & pre & t & p0 & -> & Hf & Hnone);
      [|reflexivity].
    rewrite kept_lexer_error in Hpre.
    destruct Hpre as [k Hk]. destruct pre as [|x pre].
    + simpl in Hk. inversion Hk; subst.
      destruct e; simpl in Hclass; try contradiction.
      * destruct Hclass as (_ & -> & Hmsg). eexists _, _, _. split; [reflexivity|].
        exact Hmsg.
      * destruct Hclass as (Hl & _). discriminate.
    + simpl in Hk. inversion Hk; subst. destruct pre; discriminate.
Qed.

(** The input [myVar module ;]: none of its tokens is an
    unrecognized-input token, so wherever the grammar rejects it the
    failure is a ParserError. *)
Lemma parser_error_example (w : World Value) :
  feeds G (start G) [tokMyVar; tokModule; tokSemi] = None ->
  exists msg lastTokens location excerpt this' w',
    parseAST G readFileSync (Str "parser_error.scad") (Str "myVar module ;")
             new_SCADParser w =
    (Throw (ParserError msg lastTokens location excerpt), this', w') /\
    String.prefix "Parser error:" msg = true.
Proof.
  intros H.
  destruct (parseAST G readFileSync (Str "parser_error.scad") (Str "myVar module ;")
              new_SCADParser w) as [[[root|e] this'] w'] eqn:E.
  - apply parseAST_success_accepts in E as [p Hp].
    rewrite kept_parser_error in Hp. congruence.
  - apply parseAST_failure_classified in E
      as (captured & _ & Hclass & Hpre & pre & t & p0 & -> & Hf & Hnone);
      [|reflexivity].
    rewrite kept_parser_error in Hpre. destruct Hpre as [k Hk].
    assert (lastIsLexerError (pre ++ [t]) = false) as Hlast.
    { unfold lastIsLexerError. rewrite last_snoc.
      destruct pre as [|a [|b [|c0 pre]]]; simpl in Hk; inversion Hk; subst;
        try reflexivity.
      destruct pre; discriminate. }
    destruct e; simpl in Hclass; try contradiction.
    + destruct Hclass as (Hl & _). congruence.
    + destruct Hclass as (_ & _ & _ & Hmsg).
      eexists _, _, _, _, _, _. split; [reflexivity | exact Hmsg].
Qed.

(** C1 on the input [myVar module ;], with a grammar that accepts an
    identifier at the start of a statement and rejects an identifier
    after it: two tokens have been captured when the parse fails, and
    the ParserError carries one, because [slice(2 - 3, 2)] counts its
    negative start from the end. *)
Theorem ParserError_after_two_tokens (w : World Value) (p1 : PState G) :
  feed G (start G) tokMyVar = Some p1 ->
  feed G p1 tokModule = None ->
  exists msg location excerpt this' w',
    parseAST G readFileSync (Str "parser_error.scad") (Str "myVar module ;")
             new_SCADParser w =
    (Throw (ParserError msg [tokModule] location excerpt), this', w') /\
    tokenCache this' !! "parser_error.scad" = Some [tokMyVar; tokModule] /\
    JS.slice [tokMyVar; tokModule] (2 - 3) 2 = [tokModule].
Proof.
  intros H1 H2.
  destruct (parseAST G readFileSync (Str "parser_error.scad") (Str "myVar module ;")
              new_SCADParser w) as [[[root|e] this'] w'] eqn:E.
  - apply parseAST_success_accepts in E as [p Hp].
    rewrite kept_parser_error in Hp. simpl in Hp. rewrite H1, H2 in Hp. discriminate.
  - apply parseAST_failure_classified in E
      as (captured & Htok & Hclass & Hpre & pre & t & p0 & -> & Hf & Hnone);
      [|reflexivity].
    rewrite kept_parser_error in Hpre. destruct Hpre as [k Hk].
    assert (pre = [tokMyVar] /\ t = tokModule) as [-> ->].
    { destruct pre as [|a [|b [|c0 pre]]]; simpl in Hk; inversion Hk; subst;
        simpl in Hf.
      - inversion Hf; subst. congruence.
      - split; reflexivity.
      - rewrite H1, H2 in Hf. discriminate.
      - destruct pre; discriminate. }
    destruct e; simpl in Hclass; try contradiction.
    + destruct Hclass as (Hl & _). discriminate.
    + destruct Hclass as (_ & -> & -> & _).
      eexists _, _, _, _, _. split; [reflexivity|]. split; [exact Htok | reflexivity].
Qed.

End ErrorClaims.

Lemma ParserError_after_two_tokens_witness :
  exists msg location excerpt this' w',
    parseAST Fragment.grammar Fragment.noFiles (Str "parser_error.scad")
             (Str "myVar module ;") new_SCADParser Fragment.world0 =
    (Throw (ParserError msg [tokModule] location excerpt), this', w') /\
    tokenCache this' !! "parser_error.scad" = Some [tokMyVar; tokModule] /\
    JS.slice [tokMyVar; tokModule] (2 - 3) 2 = [tokModule].
Proof.
  exact (ParserError_after_two_tokens Fragment.grammar Fragment.noFiles Fragment.world0
           (Fragment.mkState [] (Fragment.AfterName tokMyVar)) eq_refl eq_refl).
Defined.

Example lexer_error_fragment :
  exists msg this' w',
    parseAST Fragment.grammar Fragment.noFiles (Str "lexer_error.scad") (Str "&%!;")
             new_SCADParser Fragment.world0 =
    (Throw (LexerError msg (mkLocation 0 4 0 1 1)), this', w') /\
    String.prefix "Lexer error:" msg = true.
Proof. apply lexer_error_example. reflexivity. Qed.

(** A parse that fails on the sixth of ten lines, through the entry
    point: the excerpt of the error and the tokens it carries. *)
Example excerpt_through_parseAST :
  match (parseAST Fragment.grammar Fragment.noFiles (Str "f.scad") (Str sixthLineFails)
           new_SCADParser Fragment.world0).1.1 with
  | Throw (ParserError _ lastTokens location excerpt) =>
      Some (map t_value lastTokens, loc_line location, JS.splitLines excerpt)
  | _ => None
  end =
  Some ([" 5"; "myVar"; "module"], 6,
        ["2: // 2"; "3: // 3"; "4: // 4"; "5: // 5"; "6: myVar module ;";
         "7: // 7"; "         ^----^"; "8: // 8"]).
Proof. vm_compute. reflexivity. Qed.

(** In the text of a ParserError the last tokens are joined by their
    [toString]: a token with an empty value, such as an empty string
    literal, stands there under its type. *)
Example ParserError_text_of_an_empty_token :
  match (parseAST Fragment.grammar Fragment.noFiles (Str "f.scad")
           (Str ("x = " +:+ QUOTE +:+ QUOTE +:+ " {")) new_SCADParser Fragment.world0).1.1 with
  | Throw (ParserError msg lastTokens _ _) =>
      Some (map t_value lastTokens, nth 1 (JS.splitLines msg) EmptyString)
  | _ => None
  end =
  Some (["="; EmptyString; "{"],
        "Last tokens: [" +:+ QUOTE +:+ "=" +:+ QUOTE +:+ ", " +:+ QUOTE +:+ "string"
        +:+ QUOTE +:+ ", " +:+ QUOTE +:+ "{" +:+ QUOTE +:+ "]").
Proof. vm_compute. reflexivity. Qed.

(** * Further properties *)

(** ** The scanner: how the tokens lie in the text *)

Module ScanFacts.
Import Tokens TokenSpec TokenFacts.

Lemma firstRule_elem rules s r m :
  firstRule rules s = Some (r, m) -> r ∈ rules /\ rule_match r s = Some m.
Proof.
  induction rules as [|r0 rules IH]; simpl; [discriminate|].
  destruct (rule_match r0 s) as [m0|] eqn:E.
  - intros H; inversion H; subst. split; [left | assumption].
  - intros H. destruct (IH H). split; [right|]; assumption.
Qed.

(** What one call of [next] returns. *)
Lemma next_inv lx t lx' :
  next lx = Some (t, lx') ->
  exists text,
    lx_rest lx = text +:+ lx_rest lx' /\ text <> EmptyString /\
    t_offset t = lx_index lx /\ t_size t = JS.strlen text /\
    t_line t = lx_line lx /\ t_col t = lx_col lx /\
    lx_index lx' = lx_index lx + t_size t /\
    lx_line lx' = lx_line lx + t_lineBreaks t /\
    lx_col lx' = (if t_lineBreaks t =? 0 then lx_col lx + t_size t else lx_col lx') /\
    ((exists r v, firstRule rules (lx_rest lx) = Some (r, (text, v, lx_rest lx')) /\
                  t_type t = tokenType r text /\ t_value t = v /\
                  (rule_lineBreaks r = false -> t_lineBreaks t = 0)) \/
     (firstRule rules (lx_rest lx) = None /\ t_type t = errorType /\
      t_value t = lx_rest lx /\ lx_rest lx' = EmptyString)).
Proof.
  unfold next. destruct (lx_rest lx) as [|c s] eqn:Erest; [discriminate|].
  destruct (firstRule rules (String c s)) as [[r [[text v] rest]]|] eqn:E.
  - pose proof E as E'.
    apply firstRule_sound in E' as [Eq Hne]; [|apply rules_sound].
    destruct (if rule_lineBreaks r then countNL text 0%Z (0%Z, 1%Z) else (0%Z, 1%Z))
      as [lb nl] eqn:Elb.
    intros H; inversion H; subst t lx'; clear H; cbn.
    exists text. repeat split; try assumption; try reflexivity.
    + destruct (lb =? 0); reflexivity.
    + left. exists r, v. repeat split; try reflexivity.
      intros Hf. rewrite Hf in Elb. inversion Elb. reflexivity.
  - destruct (countNL (String c s) 0%Z (0%Z, 1%Z)) as [lb nl] eqn:Elb.
    intros H; inversion H; subst t lx'; clear H; cbn.
    exists (String c s). repeat split; try reflexivity.
    + rewrite append_nil_r. reflexivity.
    + discriminate.
    + destruct (lb =? 0); reflexivity.
    + right. repeat split.
Qed.

Lemma strlen_append a b : JS.strlen (a +:+ b) = JS.strlen a + JS.strlen b.
Proof. unfold JS.strlen. rewrite length_append. lia. Qed.

Lemma strlen_pos s : s <> EmptyString -> 1 <= JS.strlen s.
Proof. destruct s; [congruence|]. unfold JS.strlen. simpl. lia. Qed.

(** Induction on the stream of a scanner state. *)
Lemma stream_ind (P : Lexer -> list (Token * Lexer) -> Prop) :
  (forall lx, next lx = None -> P lx []) ->
  (forall lx t lx', next lx = Some (t, lx') -> P lx' (stream lx') ->
                    P lx ((t, lx') :: stream lx')) ->
  forall lx, P lx (stream lx).
Proof.
  intros Hnil Hcons lx.
  remember (String.length (lx_rest lx)) as n eqn:En.
  revert lx En. induction (lt_wf n) as [n _ IH]. intros lx En.
  rewrite stream_next. destruct (next lx) as [[t lx']|] eqn:E.
  - apply Hcons; [assumption|]. eapply IH; [|reflexivity].
    apply next_consumes in E. lia.
  - apply Hnil. assumption.
Qed.

Lemma stream_tiled lx :
  tiled (lx_index lx) (map fst (stream lx)) /\
  sizes (map fst (stream lx)) = JS.strlen (lx_rest lx).
Proof.
  apply (stream_ind (fun lx l =>
    tiled (lx_index lx) (map fst l) /\ sizes (map fst l) = JS.strlen (lx_rest lx))).
  - clear lx. intros lx H. split; [exact I|]. unfold next in H.
    destruct (lx_rest lx); [reflexivity|].
    destruct (firstRule rules _) as [[r [[text v] rest]]|];
      [destruct (if rule_lineBreaks r then _ else _)|destruct (countNL _ _ _)];
      discriminate.
  - clear lx. intros lx t lx' H [IH1 IH2].
    apply next_inv in H as (text & Eq & Hne & Hoff & Hsz & _ & _ & Hidx & _).
    cbn [map fst tiled sizes foldr]. fold (sizes (map fst (stream lx'))).
    rewrite <- Hidx. repeat split; try assumption.
    + rewrite Hsz. apply strlen_pos. assumption.
    + rewrite IH2, Eq, strlen_append, Hsz. reflexivity.
Qed.

(** Every element of a stream was returned by [next], and the stream
    goes on from the state that [next] left. *)
Lemma stream_elem lx pre t lx' post :
  stream lx = pre ++ (t, lx') :: post ->
  exists lx0, next lx0 = Some (t, lx') /\ post = stream lx'.
Proof.
  revert pre.
  apply (stream_ind (fun lx l => forall pre, l = pre ++ (t, lx') :: post ->
           exists lx0, next lx0 = Some (t, lx') /\ post = stream lx')).
  - intros lx1 _ pre H. destruct pre; discriminate.
  - intros lx1 t1 lx1' Hn IH pre H. destruct pre as [|p pre]; cbn [app] in H.
    + injection H as H1 H2 H3. subst. exists lx1. split; [assumption | reflexivity].
    + injection H as H1 H2. eapply IH. eassumption.
Qed.

Lemma tokenize_elem code t :
  t ∈ tokenize code -> exists lx0 lx', next lx0 = Some (t, lx').
Proof.
  unfold tokenize. intros H. apply list_elem_of_fmap in H as [[t' lx'] [-> H]].
  apply list_elem_of_split in H as (pre & post & H).
  apply stream_elem in H as (lx0 & H & _). exists lx0, lx'. exact H.
Qed.

Lemma tokenize_split code pre t post :
  tokenize code = pre ++ t :: post ->
  exists lx0 lx', next lx0 = Some (t, lx') /\ post = map fst (stream lx').
Proof.
  unfold tokenize. intros H.
  apply fmap_app_inv in H as (pre' & post' & -> & Hpost & H).
  destruct post' as [|[t' lx'] post']; [discriminate|]. simpl in Hpost.
  inversion Hpost; subst.
  apply stream_elem in H as (lx0 & H & ->). exists lx0, lx'. split; [exact H | reflexivity].
Qed.

Lemma stream_nil lx : lx_rest lx = EmptyString -> stream lx = [].
Proof. intros H. rewrite stream_next. unfold next. rewrite H. reflexivity. Qed.

(** The types of the table are pairwise different, and none is the type
    of the error rule. *)
Lemma table_types : NoDup (errorType :: map rule_type rules).
Proof. vm_compute. apply NoDup_ListNoDup. repeat constructor; cbn; intuition discriminate. Qed.

Lemma rule_type_not_error r : r ∈ rules -> rule_type r <> errorType.
Proof.
  intros Hr. rewrite rules_eq in Hr.
  repeat (apply elem_of_cons in Hr as [->|Hr]; [cbn; discriminate|]).
  apply elem_of_nil in Hr. contradiction.
Qed.

(** The type of a token is the type of its rule, but for the two
    keywords of the identifier rule. *)
Lemma tokenType_cases r text :
  r ∈ rules ->
  tokenType r text = rule_type r \/
  (rule_type r = "identifier" /\ tokenType r text = "bool" /\ text ∈ ["true"; "false"]).
Proof.
  intros Hr. rewrite rules_eq in Hr.
  repeat (apply elem_of_cons in Hr as [->|Hr]; [try (left; reflexivity)|]).
  - unfold tokenType. cbn [rule_keywords rule_type List.find fst snd].
    destruct (String.eqb_spec "true" text) as [<-|_].
    { right. split; [reflexivity|]. split; [reflexivity|]. left. }
    destruct (String.eqb_spec "false" text) as [<-|_].
    { right. split; [reflexivity|]. split; [reflexivity|]. right; left. }
    left. reflexivity.
  - apply elem_of_nil in Hr. contradiction.
Qed.

Lemma tokenType_not_error r text : r ∈ rules -> tokenType r text <> errorType.
Proof.
  intros Hr. destruct (tokenType_cases r text Hr) as [-> | (_ & -> & _)].
  - apply rule_type_not_error. assumption.
  - discriminate.
Qed.

Lemma tokenType_rule r text ty :
  r ∈ rules -> tokenType r text = ty -> ty <> "bool" -> rule_type r = ty.
Proof.
  intros Hr <- Hb. destruct (tokenType_cases r text Hr) as [-> | (_ & E & _)];
    [reflexivity | contradiction].
Qed.

(** The token of a given table type comes from the rule of that type,
    at a position where no earlier rule of the table matches. *)
Lemma firstRule_split rules s r m :
  firstRule rules s = Some (r, m) ->
  exists l1 l2, rules = l1 ++ r :: l2 /\
    Forall (fun r0 => rule_match r0 s = None) l1 /\ rule_match r s = Some m.
Proof.
  induction rules as [|r0 rules IH]; simpl; [discriminate|].
  destruct (rule_match r0 s) as [m0|] eqn:E.
  - intros H; inversion H; subst. exists [], rules. repeat split; [constructor | assumption].
  - intros H. destruct (IH H) as (l1 & l2 & -> & Hl1 & Hm).
    exists (r0 :: l1), l2. repeat split; [constructor|]; assumption.
Qed.

Lemma lit_prefix l a rest : String.prefix l a = true -> is_Some (lit l (a +:+ rest)).
Proof.
  revert a. induction l as [|x l IH]; intros a; [eexists; reflexivity|].
  destruct a as [|y a]; simpl; [discriminate|].
  destruct (ascii_dec x y) as [->|Hne]; [|discriminate].
  rewrite Ascii.eqb_refl. apply IH.
Qed.

Lemma tokenize_tiled code :
  tiled 0 (tokenize code) /\ sizes (tokenize code) = JS.strlen code.
Proof. exact (stream_tiled (mkLexer code 0 1 1)). Qed.

Lemma sizes_app l1 l2 : sizes (l1 ++ l2) = sizes l1 + sizes l2.
Proof. induction l1 as [|t l1 IH]; cbn [app sizes foldr]; [reflexivity|]. fold (sizes (l1 ++ l2)). fold (sizes l1). lia. Qed.

Lemma tiled_app from pre t post :
  tiled from (pre ++ t :: post) ->
  t_offset t = from + sizes pre /\ 1 <= t_size t.
Proof.
  revert from. induction pre as [|p pre IH]; intros from; cbn [app tiled sizes foldr].
  - intros (Ho & Hs & _). split; [lia | assumption].
  - fold (sizes pre). intros (Ho & _ & Ht). apply IH in Ht as [Ht Hs].
    split; [lia | assumption].
Qed.

(** The rule that produced a match is the one rule of its type, and no
    rule before it in the table matches there. *)
Lemma firstRule_lookup (rs : list Rule) s r m (j : nat) rj :
  NoDup (map rule_type rs) ->
  firstRule rs s = Some (r, m) ->
  rs !! j = Some rj -> rule_type rj = rule_type r ->
  r = rj /\ rule_match rj s = Some m /\
  forall (i : nat) r0, (i < j)%nat -> rs !! i = Some r0 -> rule_match r0 s = None.
Proof.
  intros Hnd H Hj Hty. apply firstRule_split in H as (l1 & l2 & Heq & Hl1 & Hm).
  assert (rs !! List.length l1 = Some r) as Hr.
  { rewrite Heq. apply list_lookup_middle. reflexivity. }
  assert (j = List.length l1) as ->.
  { eapply NoDup_lookup; [exact Hnd| |].
    - rewrite list_lookup_fmap, Hj. reflexivity.
    - rewrite list_lookup_fmap, Hr. simpl. rewrite Hty. reflexivity. }
  rewrite Hr in Hj. inversion Hj; subst rj. split; [reflexivity|]. split; [assumption|].
  intros i r0 Hi Hr0. rewrite Heq, lookup_app_l in Hr0 by assumption.
  eapply Forall_lookup in Hl1; [|exact Hr0]. exact Hl1.
Qed.

Lemma firstRule_at s r m (j : nat) rj :
  firstRule rules s = Some (r, m) ->
  rules !! j = Some rj -> rule_type rj = rule_type r ->
  r = rj /\ rule_match rj s = Some m /\
  forall (i : nat) r0, (i < j)%nat -> rules !! i = Some r0 -> rule_match r0 s = None.
Proof.
  apply firstRule_lookup. pose proof table_types as Hnd.
  apply NoDup_cons in Hnd as [_ Hnd]. exact Hnd.
Qed.







End ScanFacts.

(** X1: the tokens of a text tile it: the first starts at offset 0, each
    next one starts where the previous one ends, none is empty, and the
    sizes add up to the length of the text. *)
Theorem tokens_tile_the_code (code : string) :
  tiled 0 (Tokens.tokenize code) /\
  sizes (Tokens.tokenize code) = JS.strlen code.
Proof. exact (ScanFacts.stream_tiled (Tokens.mkLexer code 0 1 1)). Qed.

Section ScanTheorems.
Import Tokens TokenSpec TokenFacts ScanFacts.

(** X2: a token of the error type ends the stream and reaches the end
    of the text; its value is what was left of the text. *)
Theorem lexer_error_token_is_last (code : string) (pre post : list Token) (t : Token) :
  tokenize code = pre ++ t :: post ->
  t_type t = "LexerError" ->
  post = [] /\
  t_offset t + t_size t = JS.strlen code /\
  t_size t = JS.strlen (t_value t).
Proof.
  intros Hsplit Hty.
  pose proof (tokenize_tiled code) as [Htile Hsum].
  destruct (tokenize_split _ _ _ _ Hsplit) as (lx0 & lx' & Hnext & Hpost).
  apply next_inv in Hnext
    as (text & Eq & Hne & Hoff & Hsz & _ & _ & _ & _ & _ & [Hrule | Herr]).
  - destruct Hrule as (r & v & Hr & Hty' & _).
    apply firstRule_elem in Hr as [Hr _]. apply (tokenType_not_error _ text) in Hr.
    rewrite <- Hty' in Hr. contradiction.
  - destruct Herr as (_ & _ & Hval & Hrest).
    assert (post = []) as -> by (rewrite Hpost, stream_nil; [reflexivity | assumption]).
    split; [reflexivity|]. split.
    + rewrite Hsplit in Hsum, Htile. apply tiled_app in Htile as [Ho _].
      rewrite sizes_app in Hsum. cbn [sizes foldr] in Hsum. lia.
    + rewrite Hval, Eq, Hrest, append_nil_r. assumption.
Qed.




(** X5: for every action-call token that the scanner yields, the
    ActionNode made from the token's value has the leading modifier
    character, if any, for modifier and the rest for name. *)
Theorem actionCall_token_modifier_and_name (code : string) (t : Token) :
  t ∈ tokenize code ->
  t_type t = "actionCall" ->
  Nodes.actionModifier (t_value t) = leadingModifier (t_value t) /\
  Nodes.actionName (t_value t) = stripModifier (t_value t) /\
  Nodes.actionModifier (t_value t) +:+ Nodes.actionName (t_value t) = t_value t.
Proof.
  intros Hin Hty. apply tokenize_elem in Hin as (lx0 & lx' & Hnext).
  apply next_inv in Hnext as (text & _ & _ & _ & _ & _ & _ & _ & _ & _ & [Hrule | Herr]).
  2: { destruct Herr as (_ & He & _). rewrite Hty in He. discriminate. }
  destruct Hrule as (r & v & Hr & Hty' & Hv & _). rewrite Hv.
  pose proof (proj1 (firstRule_elem _ _ _ _ Hr)) as Hin.
  apply (tokenType_rule _ text "actionCall") in Hin;
    [|rewrite <- Hty'; exact Hty | discriminate].
  eapply (firstRule_at _ _ _ 4) in Hr as (_ & Hm & _);
    [|rewrite rules_eq; reflexivity | rewrite Hin; reflexivity].
  cbn [rule_match] in Hm. apply actionCall_value_singleLine in Hm.
  unfold Nodes.actionModifier, Nodes.actionName.
  rewrite (actionMatch_singleLine _ Hm), !append_nil_r.
  repeat split. apply modifier_strip.
Qed.

(** C5: for every action-call token that the scanner yields, the
    ActionNode constructed from the token's text, the value that the
    rule captures, has for modifier the leading modifier character when
    the text starts with one of the four and the empty string
    otherwise, and for name the text without that modifier; modifier
    followed by name is the text. *)
Theorem ActionNode_modifier_and_name {Value : Type} (code : string) (t : Token)
    (token : option Token) (params : Value) (h : Nodes.Heap Value) :
  t ∈ tokenize code ->
  t_type t = "actionCall" ->
  (Nodes.new_ActionNode token (t_value t) params h).2
    !! (Nodes.new_ActionNode token (t_value t) params h).1 =
  Some (Nodes.mkObj [] None (Nodes.tokenLocation token)
          (Nodes.FAction (stripModifier (t_value t)) (leadingModifier (t_value t))
                         params None)) /\
  leadingModifier (t_value t) ∈ [EmptyString; "!"; "#"; "*"; "%"] /\
  leadingModifier (t_value t) +:+ stripModifier (t_value t) = t_value t.
Proof.
  intros Hin Hty. apply tokenize_elem in Hin as (lx0 & lx' & Hnext).
  apply next_inv in Hnext as (text & _ & _ & _ & _ & _ & _ & _ & _ & _ & [Hrule | Herr]).
  2: { destruct Herr as (_ & He & _). rewrite Hty in He. discriminate. }
  destruct Hrule as (r & v & Hr & Hty' & Hv & _). rewrite Hv.
  pose proof (proj1 (firstRule_elem _ _ _ _ Hr)) as Hin.
  apply (tokenType_rule _ text "actionCall") in Hin;
    [|rewrite <- Hty'; exact Hty | discriminate].
  eapply (firstRule_at _ _ _ 4) in Hr as (_ & Hm & _);
    [|rewrite rules_eq; reflexivity | rewrite Hin; reflexivity].
  cbn [rule_match] in Hm. apply actionCall_value_singleLine in Hm.
  split; [|split; [apply leadingModifier_cases | apply modifier_strip]].
  unfold Nodes.new_ActionNode. rewrite NodeFacts.construct_fst.
  rewrite (NodeFacts.construct_lookup_new _ None) by constructor.
  unfold Nodes.actionName, Nodes.actionModifier.
  rewrite (actionMatch_singleLine _ Hm), !append_nil_r. reflexivity.
Qed.

End ScanTheorems.

Lemma lexer_error_token_is_last_witness :
  @nil Token = [] /\
  t_offset tokAmp + t_size tokAmp = JS.strlen "a&" /\
  t_size tokAmp = JS.strlen (t_value tokAmp).
Proof.
  apply (lexer_error_token_is_last "a&" [tokA] [] tokAmp); [vm_compute|]; reflexivity.
Defined.



Lemma ActionNode_modifier_and_name_witness :
  (Nodes.new_ActionNode (Some tokCube) (t_value tokCube) "[1]" []).2
    !! (Nodes.new_ActionNode (Some tokCube) (t_value tokCube) "[1]" []).1 =
  Some (Nodes.mkObj [] None (Nodes.tokenLocation (Some tokCube))
          (Nodes.FAction (stripModifier (t_value tokCube))
                         (leadingModifier (t_value tokCube)) "[1]" None)) /\
  leadingModifier (t_value tokCube) ∈ [EmptyString; "!"; "#"; "*"; "%"] /\
  leadingModifier (t_value tokCube) +:+ stripModifier (t_value tokCube) = t_value tokCube.
Proof.
  apply (ActionNode_modifier_and_name (Value := string) "#cube(" tokCube (Some tokCube)
           "[1]" []); [|reflexivity].
  apply list_elem_of_In. vm_compute. left. reflexivity.
Defined.


Lemma actionCall_token_modifier_and_name_witness :
  Nodes.actionModifier (t_value tokCube) = leadingModifier (t_value tokCube) /\
  Nodes.actionName (t_value tokCube) = stripModifier (t_value tokCube) /\
  Nodes.actionModifier (t_value tokCube) +:+ Nodes.actionName (t_value tokCube)
  = t_value tokCube.
Proof.
  apply (actionCall_token_modifier_and_name "#cube(" tokCube); [|reflexivity].
  apply list_elem_of_In. vm_compute. left. reflexivity.
Defined.

(** ** The scanner: lines and columns *)

Module PosFacts.
Import Tokens TokenSpec TokenFacts ScanFacts.

Lemma advance_app a b p : advance (a +:+ b) p = advance b (advance a p).
Proof.
  revert p. induction a as [|c a IH]; intros p; [reflexivity|].
  rewrite append_cons. simpl. apply IH.
Qed.

Lemma advance_noLF s p : noLF s = true -> advance s p = (fst p, snd p + JS.strlen s).
Proof.
  revert p. induction s as [|c s IH]; intros [l c0]; simpl.
  - intros _. unfold JS.strlen. simpl. f_equal. lia.
  - intros H. apply andb_true_iff in H as [Hc Hs]. apply negb_true_iff in Hc.
    rewrite Hc, (IH _ Hs). unfold JS.strlen. simpl. f_equal. lia.
Qed.

Lemma noLF_app a b : noLF (a +:+ b) = noLF a && noLF b.
Proof.
  induction a as [|c a IH]; [reflexivity|]. rewrite append_cons. simpl.
  rewrite IH, andb_assoc. reflexivity.
Qed.

(** [countNL] counts the line feeds, and remembers the index that
    follows the last one. *)
Lemma countNL_mono s pos lb0 nl0 :
  lb0 <= fst (countNL s pos (lb0, nl0)) /\
  (fst (countNL s pos (lb0, nl0)) = lb0 -> snd (countNL s pos (lb0, nl0)) = nl0).
Proof.
  revert pos lb0 nl0. induction s as [|c s IH]; intros pos lb0 nl0; simpl.
  - split; [lia | reflexivity].
  - destruct (c =? JS.LF)%char; simpl.
    + destruct (IH (pos + 1) (lb0 + 1) (pos + 1)) as [H1 H2]. split; lia.
    + apply IH.
Qed.

Lemma countNL_advance s pos lb0 nl0 line col :
  advance s (line, col) =
  (line + (fst (countNL s pos (lb0, nl0)) - lb0),
   if fst (countNL s pos (lb0, nl0)) =? lb0 then col + JS.strlen s
   else pos + JS.strlen s - snd (countNL s pos (lb0, nl0)) + 1).
Proof.
  revert pos lb0 nl0 line col. induction s as [|c s IH]; intros pos lb0 nl0 line col.
  - simpl. rewrite Z.eqb_refl. unfold JS.strlen. simpl. f_equal; lia.
  - cbn [advance countNL fst snd]. destruct (c =? JS.LF)%char.
    + rewrite (IH (pos + 1) (lb0 + 1) (pos + 1)).
      destruct (countNL_mono s (pos + 1) (lb0 + 1) (pos + 1)) as [H1 H2].
      assert (JS.strlen (String c s) = 1 + JS.strlen s) as ->
        by (unfold JS.strlen; simpl; lia).
      destruct (Z.eqb_spec (fst (countNL s (pos + 1) (lb0 + 1, pos + 1))) lb0); [lia|].
      destruct (Z.eqb_spec (fst (countNL s (pos + 1) (lb0 + 1, pos + 1))) (lb0 + 1)).
      * rewrite (H2 e). f_equal; lia.
      * f_equal; lia.
    + rewrite (IH (pos + 1) lb0 nl0).
      assert (JS.strlen (String c s) = 1 + JS.strlen s) as ->
        by (unfold JS.strlen; simpl; lia).
      destruct (_ =? lb0); f_equal; lia.
Qed.

(** The texts matched by the rules that do not declare line breaks:
    all but the string rule match no line feed. *)
Lemma literal_quiet l : noLF l = true -> quiet (literal l).
Proof.
  intros Hl s text v rest. unfold literal.
  destruct (lit l s); cbn [mbind option_bind]; [|discriminate].
  intros H; inversion H; subst. assumption.
Qed.

Lemma firstOf_quiet ms : Forall quiet ms -> quiet (firstOf ms).
Proof.
  induction 1 as [|m ms Hm Hms IH]; intros s text v rest; simpl; [discriminate|].
  destruct (m s) as [[[t' v'] r']|] eqn:E.
  - intros H; inversion H; subst. eapply Hm. eassumption.
  - apply IH.
Qed.

Lemma span_noLF p s a b :
  (forall c, p c = true -> (c =? JS.LF)%char = false) ->
  span p s = (a, b) -> noLF a = true.
Proof.
  intros Hp. revert a b. induction s as [|c s IH]; intros a b H; simpl in H.
  - inversion H. reflexivity.
  - destruct (p c) eqn:Ec.
    + destruct (span p s) as [a' b'] eqn:E. inversion H; subst. simpl.
      rewrite (Hp _ Ec), (IH a' b) by reflexivity. reflexivity.
    + inversion H. reflexivity.
Qed.

Lemma isIdentChar_noLF c : isIdentChar c = true -> (c =? JS.LF)%char = false.
Proof. destruct c as [[] [] [] [] [] [] [] []]; (discriminate || reflexivity). Qed.

Lemma isDigit_noLF c : isDigit c = true -> (c =? JS.LF)%char = false.
Proof. destruct c as [[] [] [] [] [] [] [] []]; (discriminate || reflexivity). Qed.

Lemma isBlank_noLF c : isBlank c = true -> (c =? JS.LF)%char = false.
Proof. destruct c as [[] [] [] [] [] [] [] []]; (discriminate || reflexivity). Qed.

Lemma isIdentStart_noLF c : isIdentStart c = true -> (c =? JS.LF)%char = false.
Proof. destruct c as [[] [] [] [] [] [] [] []]; (discriminate || reflexivity). Qed.

Lemma ident_noLF s a b : ident s = Some (a, b) -> noLF a = true.
Proof.
  unfold ident. destruct s as [|c s]; [discriminate|].
  destruct (isIdentStart c) eqn:Ec; [|discriminate].
  destruct (span isIdentChar s) as [a' b'] eqn:E. intros H; inversion H; subst.
  simpl. rewrite (isIdentStart_noLF _ Ec).
  rewrite (span_noLF _ _ _ _ isIdentChar_noLF E). reflexivity.
Qed.

Lemma identifier_quiet : quiet identifier.
Proof.
  intros s text v rest. unfold identifier.
  destruct (ident s) as [[a b]|] eqn:E; cbn [mbind option_bind]; [|discriminate].
  intros H; inversion H; subst. eapply ident_noLF. eassumption.
Qed.

Lemma eos_quiet : quiet eos.
Proof.
  intros s text v rest. unfold eos.
  destruct (span isBlank s) as [ws r1] eqn:E.
  destruct (lit ";" r1); cbn [mbind option_bind]; [|discriminate].
  intros H; inversion H; subst. rewrite noLF_app.
  rewrite (span_noLF _ _ _ _ isBlank_noLF E). reflexivity.
Qed.

Lemma whitespace_quiet : quiet whitespace.
Proof.
  intros s text v rest. unfold whitespace.
  destruct (span isBlank s) as [[|c ws] r1] eqn:E; [discriminate|].
  intros H; inversion H; subst. eapply span_noLF; [|exact E]. exact isBlank_noLF.
Qed.

Lemma exponent_noLF s e r : exponent s = Some (e, r) -> noLF e = true.
Proof.
  unfold exponent. destruct s as [|x r1]; [discriminate|].
  destruct ((x =? "e")%char || (x =? "E")%char) eqn:Ex; [|discriminate].
  assert ((x =? JS.LF)%char = false) as Hx.
  { destruct x as [[] [] [] [] [] [] [] []]; (discriminate || reflexivity). }
  destruct (match r1 with
            | String c r0 => if (c =? "-")%char || (c =? "+")%char
                             then (String c EmptyString, r0) else (EmptyString, r1)
            | EmptyString => (EmptyString, r1)
            end) as [sg r2] eqn:Esg.
  assert (noLF sg = true) as Hsg.
  { destruct r1 as [|c r0]; [inversion Esg; reflexivity|].
    destruct ((c =? "-")%char || (c =? "+")%char) eqn:Ec; inversion Esg; subst;
      [|reflexivity].
    destruct c as [[] [] [] [] [] [] [] []]; (discriminate || reflexivity). }
  destruct (span isDigit r2) as [[|d ds] r3] eqn:Ed; [discriminate|].
  intros H; inversion H; subst.
  rewrite append_cons. simpl. rewrite Hx, noLF_app, Hsg.
  rewrite (span_noLF _ _ _ _ isDigit_noLF Ed). reflexivity.
Qed.

Lemma float_quiet : quiet float.
Proof.
  intros s text v rest. unfold float.
  destruct (span isDigit s) as [[|d ds] r1] eqn:Ed; [discriminate|].
  destruct (match r1 with
            | String c r => if (c =? ".")%char then (String c EmptyString, r)
                            else (EmptyString, r1)
            | EmptyString => (EmptyString, r1)
            end) as [dot r2] eqn:Edot.
  assert (noLF dot = true) as Hdot.
  { destruct r1 as [|c r0]; [inversion Edot; reflexivity|].
    destruct (c =? ".")%char eqn:Ec; inversion Edot; subst; [|reflexivity].
    destruct c as [[] [] [] [] [] [] [] []]; (discriminate || reflexivity). }
  destruct (span isDigit r2) as [frac r3] eqn:Ef.
  destruct (match exponent r3 with
            | Some (e, r) => (e, r)
            | None => (EmptyString, r3)
            end) as [ex r4] eqn:Eex.
  assert (noLF ex = true) as Hex.
  { destruct (exponent r3) as [[e r]|] eqn:Ee; inversion Eex; subst; [|reflexivity].
    eapply exponent_noLF. eassumption. }
  intros H; inversion H; subst.
  rewrite !noLF_app, Hdot, Hex.
  rewrite (span_noLF _ _ _ _ isDigit_noLF Ed), (span_noLF _ _ _ _ isDigit_noLF Ef).
  reflexivity.
Qed.

Lemma stringLit_text s text v rest :
  stringLit s = Some (text, v, rest) -> noLF text = noLF v.
Proof.
  unfold stringLit. destruct s as [|c r1]; [discriminate|].
  destruct (c =? JS.DQUOTE)%char; [|discriminate].
  destruct (span _ r1) as [t r2]. destruct r2 as [|x r3]; [discriminate|].
  intros H; inversion H; subst. rewrite append_cons. simpl.
  rewrite noLF_app. simpl. rewrite andb_true_r. reflexivity.
Qed.

(** A token of a rule without declared line breaks has a text without
    line feed, unless it is a string whose value has one. *)
Lemma undeclared_quiet r s text v rest :
  r ∈ rules -> rule_lineBreaks r = false ->
  rule_match r s = Some (text, v, rest) ->
  noLF text = true \/ (rule_type r = "string" /\ noLF text = noLF v).
Proof.
  intros Hr Hlb Hm. rewrite rules_eq in Hr.
  repeat (apply elem_of_cons in Hr as [->|Hr];
          [cbn [rule_lineBreaks rule_match rule_type] in *; try discriminate;
           first [ right; split; [reflexivity|]; eapply stringLit_text; eassumption
                 | left; revert Hm;
                   first [ apply literal_quiet; reflexivity
                         | apply firstOf_quiet;
                           repeat (apply List.Forall_cons; [apply literal_quiet; reflexivity|]);
                           apply List.Forall_nil
                         | apply identifier_quiet | apply float_quiet
                         | apply eos_quiet | apply whitespace_quiet ] ]|]).
  apply elem_of_nil in Hr. contradiction.
Qed.

(** One step of the scanner moves its line and column as the text of
    the token says, unless the token is a string with a line feed. *)
Lemma next_advance lx t lx' :
  next lx = Some (t, lx') ->
  (t_type t = "string" -> noLF (t_value t) = true) ->
  exists text,
    lx_rest lx = text +:+ lx_rest lx' /\
    t_offset t = lx_index lx /\ (t_line t, t_col t) = (lx_line lx, lx_col lx) /\
    lx_index lx' = lx_index lx + JS.strlen text /\
    (lx_line lx', lx_col lx') = advance text (lx_line lx, lx_col lx).
Proof.
  intros Hnext Hstr. unfold next in Hnext.
  destruct (lx_rest lx) as [|c s] eqn:Erest; [discriminate|].
  destruct (firstRule rules (String c s)) as [[r [[text v] rest]]|] eqn:E.
  - pose proof E as E'.
    apply firstRule_sound in E' as [Eq Hne]; [|apply rules_sound].
    apply firstRule_elem in E as [Hr Hm].
    destruct (rule_lineBreaks r) eqn:Hlb.
    + destruct (countNL text 0 (0, 1)) as [lb nl] eqn:Ec.
      inversion Hnext; subst t lx'; clear Hnext; cbn.
      exists text. repeat split; try assumption.
      rewrite (countNL_advance text 0 0 1), Ec. cbn [fst snd].
      destruct (lb =? 0); f_equal; lia.
    + inversion Hnext; subst t lx'; clear Hnext; cbn in *.
      exists text. repeat split; try assumption.
      destruct (undeclared_quiet _ _ _ _ _ Hr Hlb Hm) as [Hq | [Hty Hq]].
      * rewrite (advance_noLF _ _ Hq). cbn [fst snd]. f_equal; lia.
      * rewrite advance_noLF; [cbn [fst snd]; f_equal; lia|].
        rewrite Hq. apply Hstr.
        destruct (tokenType_cases r text Hr) as [-> | (Hid & _)]; [assumption | congruence].
  - destruct (countNL (String c s) 0 (0, 1)) as [lb nl] eqn:Ec.
    inversion Hnext; subst t lx'; clear Hnext; cbn.
    exists (String c s). repeat split.
    + rewrite append_nil_r. reflexivity.
    + rewrite (countNL_advance (String c s) 0 0 1), Ec. cbn [fst snd].
      destruct (lb =? 0); f_equal; lia.
Qed.

Lemma substring_app_prefix a b : substring 0 (String.length a) (a +:+ b) = a.
Proof.
  induction a as [|c a IH]; simpl.
  - destruct b; reflexivity.
  - rewrite IH. reflexivity.
Qed.

Lemma stream_positions lx :
  Forall (fun t => t_type t = "string" -> noLF (t_value t) = true) (map fst (stream lx)) ->
  forall t, t ∈ map fst (stream lx) ->
    exists consumed rest,
      lx_rest lx = consumed +:+ rest /\
      t_offset t = lx_index lx + JS.strlen consumed /\
      (t_line t, t_col t) = advance consumed (lx_line lx, lx_col lx).
Proof.
  apply (stream_ind (fun lx l =>
    Forall (fun t => t_type t = "string" -> noLF (t_value t) = true) (map fst l) ->
    forall t, t ∈ map fst l ->
      exists consumed rest,
        lx_rest lx = consumed +:+ rest /\
        t_offset t = lx_index lx + JS.strlen consumed /\
        (t_line t, t_col t) = advance consumed (lx_line lx, lx_col lx))).
  - intros lx0 _ _ t Ht. apply elem_of_nil in Ht. contradiction.
  - intros lx0 t0 lx1 Hnext IH Hall t Ht. cbn [map fst] in Hall, Ht.
    apply Forall_cons in Hall as [H0 Hall].
    apply next_advance in Hnext as (text & Eq & Hoff & Hpos & Hidx & Hadv); [|assumption].
    apply elem_of_cons in Ht as [-> | Ht].
    + exists EmptyString, (lx_rest lx0). repeat split.
      * rewrite Hoff. unfold JS.strlen. simpl. lia.
      * exact Hpos.
    + destruct (IH Hall t Ht) as (consumed & rest & Eq' & Hoff' & Hpos').
      exists (text +:+ consumed), rest. repeat split.
      * rewrite Eq, Eq', append_assoc. reflexivity.
      * rewrite Hoff', Hidx, strlen_append. lia.
      * rewrite advance_app, <- Hadv. exact Hpos'.
Qed.

End PosFacts.

Section PosTheorems.
Import Tokens PosFacts.

(** X6: when no string token holds a line feed, the line and the column
    of every token are those of its first character in the text: the
    position reached from line 1, column 1 over the characters before
    the token's offset. *)
Theorem token_line_and_column (code : string) (t : Token) :
  Forall (fun s => t_type s = "string" -> noLF (t_value s) = true) (tokenize code) ->
  t ∈ tokenize code ->
  (t_line t, t_col t) = advance (before (t_offset t) code) (1, 1).
Proof.
  intros Hall Ht. unfold tokenize in *.
  destruct (stream_positions _ Hall t Ht) as (consumed & rest & Eq & Hoff & Hpos).
  cbn [lx_rest lx_index lx_line lx_col] in *.
  unfold before. rewrite Hoff, Eq. unfold JS.strlen.
  rewrite Z.add_0_l, Nat2Z.id, substring_app_prefix. exact Hpos.
Qed.

End PosTheorems.

Lemma token_line_and_column_witness :
  (t_line tokB, t_col tokB) = advance (before (t_offset tokB) twoLines) (1, 1).
Proof.
  apply (token_line_and_column twoLines tokB).
  - vm_compute. repeat (constructor; [intros E; discriminate E|]). constructor.
  - apply list_elem_of_In. vm_compute. right. right. left. reflexivity.
Defined.

(** A string over two lines is the exception: its rule declares no
    line breaks, and the tokens after it keep the line of its start. *)
Example string_over_two_lines :
  map (fun t => (t_type t, t_line t, t_col t))
      (Tokens.tokenize (QUOTE +:+ NL +:+ QUOTE +:+ "a")) =
  [("string", 1, 1); ("identifier", 1, 4)].
Proof. vm_compute. reflexivity. Qed.

(** ** The testers that registerTokens registers *)

Module RegisterFacts.
Import Tokens TokenFacts ScanFacts.

Lemma tableKeys_types : map fst tableKeys = map entry_type tokens ++ [errorType].
Proof. reflexivity. Qed.

Lemma tokenType_in_table r text : r ∈ rules -> tokenType r text ∈ map entry_type tokens.
Proof.
  intros Hr.
  assert (forall ty, In ty (map entry_type tokens) -> ty ∈ map entry_type tokens) as Hin
    by (intros ty; apply list_elem_of_In).
  destruct (tokenType_cases r text Hr) as [-> | (_ & -> & _)].
  - rewrite rules_eq in Hr.
    repeat (apply elem_of_cons in Hr as [->|Hr]; [apply Hin; cbn; tauto|]).
    apply elem_of_nil in Hr. contradiction.
  - apply Hin. cbn. tauto.
Qed.

Lemma registerTokens_registrations global :
  registerTokens global = foldl (fun g '(k, v) => <[k := v]> g) global registrations.
Proof.
  unfold registerTokens, registrations. generalize tableKeys as keys. intros keys.
  revert global. induction keys as [|[key keywords] keys IH]; intros global; [reflexivity|].
  cbn [foldl flat_map]. rewrite foldl_app, IH. f_equal. cbn [foldl]. f_equal.
  generalize global. clear. induction keywords as [|kw kws IH]; intros g; [reflexivity|].
  cbn [foldl map]. apply IH.
Qed.

Lemma foldl_insert_lookup (regs : list (string * Tester)) (g : gmap string Tester) k v :
  NoDup (map fst regs) -> (k, v) ∈ regs ->
  foldl (fun g '(k, v) => <[k := v]> g) g regs !! k = Some v.
Proof.
  revert g. induction regs as [|[k0 v0] regs IH]; intros g Hnd Hin.
  - apply elem_of_nil in Hin. contradiction.
  - cbn [map fst] in Hnd. apply NoDup_cons in Hnd as [Hk0 Hnd]. cbn [foldl].
    apply elem_of_cons in Hin as [Heq | Hin].
    + inversion Heq; subst. clear IH.
      assert (forall g' : gmap string Tester, g' !! k0 = Some v0 ->
                foldl (fun g '(k, v) => <[k := v]> g) g' regs !! k0 = Some v0) as H.
      { clear Hnd. induction regs as [|[k1 v1] regs IH]; intros g' Hg'; [exact Hg'|].
        cbn [foldl]. apply IH.
        - intros Hin. apply Hk0. cbn [map fst]. right. exact Hin.
        - rewrite lookup_insert_ne; [exact Hg'|].
          intros ->. apply Hk0. cbn [map fst]. left. }
      apply H. apply lookup_insert_eq.
    + apply IH; assumption.
Qed.

Lemma registrations_NoDup : NoDup (map fst registrations).
Proof.
  apply NoDup_ListNoDup. vm_compute.
  repeat (constructor; [cbn; intuition discriminate|]). constructor.
Qed.

Lemma key_registered key keywords :
  (key, keywords) ∈ tableKeys ->
  (key, fun tok : Token => String.eqb (t_type tok) key) ∈ registrations /\
  forall kw, kw ∈ keywords ->
    (key +:+ "_" +:+ kw,
     fun tok : Token => String.eqb (t_type tok) key && String.eqb (t_value tok) kw)
    ∈ registrations.
Proof.
  intros Hin. unfold registrations. split.
  - apply list_elem_of_In, in_flat_map. exists (key, keywords).
    split; [apply list_elem_of_In; exact Hin|].
    apply in_or_app. right. left. reflexivity.
  - intros kw Hkw. apply list_elem_of_In, in_flat_map. exists (key, keywords).
    split; [apply list_elem_of_In; exact Hin|].
    apply in_or_app. left. apply in_map_iff. exists kw.
    split; [reflexivity | apply list_elem_of_In; exact Hkw].
Qed.

Lemma token_type_in_table lx t lx' :
  next lx = Some (t, lx') -> t_type t ∈ map fst tableKeys.
Proof.
  intros H. rewrite tableKeys_types.
  apply next_inv in H as (text & _ & _ & _ & _ & _ & _ & _ & _ & _ & [Hrule | Herr]).
  - destruct Hrule as (r & v & Hr & -> & _). apply firstRule_elem in Hr as [Hr _].
    apply elem_of_app. left. apply tokenType_in_table. exact Hr.
  - destruct Herr as (_ & -> & _). apply elem_of_app. right. left.
Qed.

Lemma bool_token_value lx t lx' :
  next lx = Some (t, lx') -> t_type t = "bool" -> t_value t ∈ ["true"; "false"].
Proof.
  intros H Hty.
  apply next_inv in H as (text & _ & _ & _ & _ & _ & _ & _ & _ & _ & [Hrule | Herr]).
  2: { destruct Herr as (_ & He & _). rewrite Hty in He. discriminate. }
  destruct Hrule as (r & v & Hr & Hty' & Hv & _). rewrite Hv.
  pose proof (proj1 (firstRule_elem _ _ _ _ Hr)) as Hin.
  destruct (tokenType_cases r text Hin) as [E | (Hid & _ & Htext)].
  { exfalso. rewrite Hty', E in Hty. clear -Hin Hty. rewrite rules_eq in Hin.
    repeat (apply elem_of_cons in Hin as [->|Hin]; [discriminate Hty|]).
    apply elem_of_nil in Hin. contradiction. }
  eapply (firstRule_at _ _ _ 19) in Hr as (_ & Hm & _);
    [|rewrite rules_eq; reflexivity | rewrite Hid; reflexivity].
  cbn [rule_match] in Hm. unfold identifier in Hm.
  destruct (ident (lx_rest lx)) as [[a b]|]; cbn [mbind option_bind] in Hm; [|discriminate].
  injection Hm as <- <- _. exact Htext.
Qed.

End RegisterFacts.

Section RegisterTheorems.
Import Tokens ScanFacts RegisterFacts.

(** X7: whatever the global object holds before, after [registerTokens]
    every token that the scanner yields is accepted by the tester
    registered under the name of its type, and a token of the boolean
    literals by the tester registered for its keyword as well. *)
Theorem registered_testers_accept_the_tokens (code : string) (t : Token)
    (global : gmap string Tester) :
  t ∈ tokenize code ->
  (exists tester, registerTokens global !! t_type t = Some tester /\ tester t = true) /\
  (t_type t = "bool" ->
   exists tester,
     registerTokens global !! ("bool_" +:+ t_value t) = Some tester /\ tester t = true).
Proof.
  intros Hin. apply tokenize_elem in Hin as (lx0 & lx' & Hnext).
  rewrite registerTokens_registrations. split.
  - pose proof (token_type_in_table _ _ _ Hnext) as Hty.
    apply list_elem_of_fmap in Hty as ([key keywords] & Hkey & Hin). cbn [fst] in Hkey.
    apply key_registered in Hin as [Hreg _]. rewrite <- Hkey in Hreg.
    eexists. split; [apply foldl_insert_lookup; [apply registrations_NoDup | exact Hreg]|].
    cbv beta. apply String.eqb_refl.
  - intros Hty. pose proof (bool_token_value _ _ _ Hnext Hty) as Hv.
    assert (("bool", ["true"; "false"]) ∈ tableKeys) as Hin
      by (unfold tableKeys; set_solver).
    apply key_registered in Hin as [_ Hreg]. specialize (Hreg _ Hv).
    eexists. split; [apply foldl_insert_lookup; [apply registrations_NoDup | exact Hreg]|].
    cbv beta. rewrite Hty, !String.eqb_refl. reflexivity.
Qed.

End RegisterTheorems.

Lemma registered_testers_accept_the_tokens_witness :
  (exists tester, registerTokens ∅ !! t_type tokTrue = Some tester /\ tester tokTrue = true) /\
  (t_type tokTrue = "bool" ->
   exists tester,
     registerTokens ∅ !! ("bool_" +:+ t_value tokTrue) = Some tester /\
     tester tokTrue = true).
Proof.
  apply (registered_testers_accept_the_tokens "true" tokTrue ∅).
  apply list_elem_of_In. vm_compute. left. reflexivity.
Defined.

(** ** getToken and findTokens after a parse *)

Module OrderFacts.
Import Tokens TokenSpec TokenFacts ScanFacts PosFacts.

Lemma next_lineBreaks lx t lx' : next lx = Some (t, lx') -> 0 <= t_lineBreaks t.
Proof.
  unfold next. destruct (lx_rest lx) as [|c s]; [discriminate|].
  destruct (firstRule rules (String c s)) as [[r [[text v] rest]]|].
  - destruct (rule_lineBreaks r).
    + pose proof (countNL_mono text 0 0 1) as [H _].
      destruct (countNL text 0 (0, 1)) as [lb nl]. intros E; inversion E; subst. exact H.
    + intros E; inversion E; subst. simpl. lia.
  - pose proof (countNL_mono (String c s) 0 0 1) as [H _].
    destruct (countNL (String c s) 0 (0, 1)) as [lb nl]. intros E; inversion E; subst. exact H.
Qed.

Lemma stream_ordered lx :
  Forall (fun t => lx_line lx < t_line t \/ (lx_line lx = t_line t /\ lx_col lx <= t_col t))
         (map fst (stream lx)) /\
  ordered (map fst (stream lx)).
Proof.
  apply (stream_ind (fun lx l =>
    Forall (fun t => lx_line lx < t_line t \/
                     (lx_line lx = t_line t /\ lx_col lx <= t_col t)) (map fst l) /\
    ordered (map fst l))).
  - intros lx0 _. split; constructor.
  - intros lx0 t0 lx1 Hnext [IH1 IH2]. cbn [map fst ordered].
    pose proof (next_lineBreaks _ _ _ Hnext) as Hlb.
    apply next_inv in Hnext
      as (text & _ & Hne & _ & Hsz & Hline & Hcol & _ & Hline' & Hcol' & _).
    assert (1 <= t_size t0) as Hpos by (rewrite Hsz; apply strlen_pos; assumption).
    assert (Forall (precedes t0) (map fst (stream lx1))) as Hprec.
    { eapply Forall_impl; [exact IH1|]. cbv beta. intros t Ht. unfold precedes.
      destruct (Z.eqb_spec (t_lineBreaks t0) 0) as [E|E]; lia. }
    split; [|split; assumption].
    constructor; [lia|].
    eapply Forall_impl; [exact Hprec|]. cbv beta. unfold precedes. intros t Ht. lia.
Qed.

Lemma ordered_app_inv l1 l2 :
  ordered (l1 ++ l2) ->
  ordered l1 /\ ordered l2 /\ Forall (fun t1 => Forall (precedes t1) l2) l1.
Proof.
  induction l1 as [|t l1 IH]; cbn [app ordered].
  - intros H. repeat split; [assumption | constructor].
  - intros [Hall H]. apply IH in H as (H1 & H2 & H3).
    apply Forall_app in Hall as [Ha Hb].
    repeat split; try assumption. constructor; assumption.
Qed.

Lemma ordered_filter (f : Token -> bool) l : ordered l -> ordered (List.filter f l).
Proof.
  induction l as [|t l IH]; cbn [List.filter ordered]; [auto|].
  intros [Hall H]. destruct (f t); [|auto].
  cbn [ordered]. split; [|auto].
  apply Forall_forall. intros t' Ht'. apply list_elem_of_In, List.filter_In in Ht' as [Ht' _].
  rewrite Forall_forall in Hall. apply Hall. apply list_elem_of_In. assumption.
Qed.

Lemma each_first_covering column line (l1 l2 : list Token) (t : Token) (out : option Token) :
  Forall (fun t' => ~ covers column line t') l1 -> covers column line t ->
  each (l1 ++ t :: l2)
       (fun token out =>
          if (line =? t_line token) &&
             ((column >=? t_col token) && (column <? t_col token + t_size token))
          then (Some token, false)
          else (out, true)) out = Some t.
Proof.
  intros Hall Hc. induction Hall as [|t' l1 Hn Hall IH]; cbn [app each].
  - apply covers_test in Hc. rewrite Hc. reflexivity.
  - destruct ((line =? t_line t') && _) eqn:E; [|exact IH].
    apply covers_test in E. contradiction.
Qed.

Lemma getToken_ordered column (file : string) (this : SCADParser) (captured : list Token)
    (t : Token) :
  tokenCache this !! file = Some captured -> ordered captured -> t ∈ captured ->
  t_col t <= column < t_col t + t_size t ->
  getToken column (t_line t) file this = Some t.
Proof.
  intros Hc Hord Hin Hcol. unfold getToken. rewrite Hc. cbn [default].
  apply list_elem_of_split in Hin as (l1 & l2 & ->).
  apply each_first_covering; [|split; [reflexivity | assumption]].
  apply ordered_app_inv in Hord as (_ & _ & Hall).
  eapply Forall_impl; [exact Hall|]. cbv beta. intros t' Ht'.
  apply Forall_cons in Ht' as [Hp _]. unfold precedes in Hp. unfold covers. lia.
Qed.

End OrderFacts.

Module TreeFacts.
Import Nodes NodeSpec.

Section Facts.
Context {Value : Type}.
Implicit Types (h : Heap Value).

Lemma Tree_nested_ind (P : Tree Value -> Prop) :
  (forall f loc ts, Forall P ts -> P (TNode f loc ts)) -> forall t, P t.
Proof.
  intros H. fix IH 1. intros [f loc ts]. apply H.
  induction ts as [|t ts IHts]; constructor; [apply IH | exact IHts].
Qed.


End Facts.

End TreeFacts.

Section IndexTheorems.
Context {Value : Type}.
Variable G : Grammar Value.
Variable readFileSync : string -> option string.
Import OrderFacts.

(** X8: after a parse, whether it returned or threw, [getToken] finds
    every token captured for the file from each of the columns that the
    token covers on its line. *)
Theorem getToken_finds_every_captured_token (code file : string) (this : SCADParser)
    (w : World Value) (t : Token) (column : Z) :
  let this' := (parse G code file this w).1.2 in
  t ∈ default [] (tokenCache this' !! file) ->
  t_col t <= column < t_col t + t_size t ->
  getToken column (t_line t) file this' = Some t.
Proof.
  intros this' Hin Hcol. subst this'.
  destruct (ParseFacts.parse_spec G code file this w)
    as [consumed Hpre _ _ Htok _ _ _ _].
  rewrite Htok, lookup_insert_eq in Hin. cbn [default] in Hin.
  eapply getToken_ordered; [rewrite Htok; apply lookup_insert_eq | | exact Hin | exact Hcol].
  apply ordered_filter. destruct Hpre as [k Hk].
  pose proof (stream_ordered (Tokens.mkLexer code 0 1 1)) as [_ Hord].
  fold (Tokens.tokenize code) in Hord. rewrite Hk in Hord.
  apply ordered_app_inv in Hord as [Hord _]. exact Hord.
Qed.


End IndexTheorems.

Lemma getToken_finds_every_captured_token_witness :
  getToken 5 (t_line tokOne) "f.scad"
    (parse Fragment.grammar "a = 1;" "f.scad" new_SCADParser Fragment.world0).1.2
  = Some tokOne.
Proof.
  apply (getToken_finds_every_captured_token Fragment.grammar "a = 1;" "f.scad"
           new_SCADParser Fragment.world0 tokOne 5).
  - apply list_elem_of_In. vm_compute. right. right. left. reflexivity.
  - vm_compute. split; [discriminate | reflexivity].
Defined.

Section FindTheorems.
Context {Value : Type}.
Variable G : Grammar Value.
Import Tokens ScanFacts RegisterFacts.

(** X10: after a parse, [findTokens] finds tokens of the parsed text only,
    none of an ignored type, each with the value and the type asked for
    (an empty string asks for nothing); asked for an ignored type, it
    finds nothing. *)
Theorem findTokens_after_parse (code file : string) (this : SCADParser) (w : World Value)
    (value type : Arg) :
  let this' := (parse G code file this w).1.2 in
  Forall (fun t =>
            t ∈ tokenize code /\ kept this t = true /\
            (forall v, truthyString value = Some v -> t_value t = v) /\
            (forall ty, truthyString type = Some ty -> t_type t = ty))
         (findTokens value type file this') /\
  (forall ty, truthyString type = Some ty -> ty ∈ ignoredTokens this ->
              findTokens value type file this' = []).
Proof.
  intros this'. subst this'.
  destruct (ParseFacts.parse_spec G code file this w)
    as [consumed Hpre _ _ Htok _ _ _ _].
  assert (Forall (fun t =>
            t ∈ tokenize code /\ kept this t = true /\
            (forall v, truthyString value = Some v -> t_value t = v) /\
            (forall ty, truthyString type = Some ty -> t_type t = ty))
         (findTokens value type file (parse G code file this w).1.2)) as Hall.
  { unfold findTokens. rewrite Htok, lookup_insert_eq. cbn [default].
    apply Forall_forall. intros t Ht.
    apply list_elem_of_In, List.filter_In in Ht as [Ht Hm].
    apply List.filter_In in Ht as [Ht Hk].
    apply andb_true_iff in Hm as [Hv Hty].
    split. { destruct Hpre as [k ->]. apply elem_of_app. left. apply list_elem_of_In. exact Ht. }
    split; [exact Hk|]. split.
    - intros v Hv'. rewrite Hv' in Hv. apply String.eqb_eq. exact Hv.
    - intros ty Hty'. rewrite Hty' in Hty. apply String.eqb_eq. exact Hty. }
  split; [exact Hall|].
  intros ty Hty Hign.
  destruct (findTokens value type file (parse G code file this w).1.2) as [|t l] eqn:E;
    [reflexivity|].
  exfalso. apply Forall_cons in Hall as [(_ & Hk & _ & Ht) _].
  specialize (Ht ty Hty). unfold kept in Hk. apply negb_true_iff in Hk.
  assert (existsb (String.eqb (t_type t)) (ignoredTokens this) = true) as Hex.
  { apply existsb_exists. exists ty. split; [apply list_elem_of_In; exact Hign|].
    apply String.eqb_eq. exact Ht. }
  congruence.
Qed.

End FindTheorems.

(** ** parseAST: what it caches and what it leaves *)

Module EntryFacts.

Section Facts.
Context {Value : Type}.
Variable G : Grammar Value.
Variable readFileSync : string -> option string.

(** The three ways through [parseAST]. *)
Lemma parseAST_cases (file code : Arg) (this : SCADParser) (w : World Value) :
  let r := parseAST G readFileSync file code this w in
  (isString file = false /\ isString code = false /\
   r = (Throw (Error "You have to pass either code or file parameter!"), this, w)) \/
  (exists e, sourceOf readFileSync file code = Throw e /\ r = (Throw e, this, w)) \/
  (exists src,
     sourceOf readFileSync file code = Return src /\
     let p := parse G src (toKey file) (with_codeCache (insert (toKey file) src) this) w in
     r = match p.1.1 with
         | Return root => (Return root, with_cache (insert (toKey file) root) p.1.2, p.2)
         | Throw e => (Throw e, p.1.2, p.2)
         end).
Proof.
  cbv zeta. unfold parseAST.
  destruct (negb (isString file) && negb (isString match code with Undefined => Null | _ => code end))
    eqn:Eg.
  - left. apply andb_true_iff in Eg as [E1 E2]. apply negb_true_iff in E1, E2.
    repeat split; [assumption | destruct code; simpl in *; congruence].
  - right.
    assert (match match code with Undefined => Null | _ => code end with
            | Str (String c s) => Return (String c s)
            | _ =>
                match file with
                | Str path =>
                    match readFileSync path with
                    | Some src => Return src
                    | None => Throw FsError
                    end
                | _ => Throw TypeError
                end
            end = sourceOf readFileSync file code) as -> by (destruct code; reflexivity).
    destruct (sourceOf readFileSync file code) as [src|e] eqn:Es.
    + right. exists src. split; [reflexivity|].
      destruct (parse G src (toKey file) _ w) as [[[root|e] this1] w1]; reflexivity.
    + left. exists e. split; reflexivity.
Qed.

End Facts.

End EntryFacts.

Section EntryTheorems.
Context {Value : Type}.
Variable G : Grammar Value.
Variable readFileSync : string -> option string.
Import EntryFacts.

(** X11: what a successful [parseAST] leaves in the instance, for a file
    whose name is neither length nor __proto__: under the key of the
    file, the text that was parsed (the code, or the content of the
    file when the code is empty or absent), the kept tokens of that
    text, and the root that is returned, which is the last object of
    the store. *)
Theorem parseAST_success_is_cached (file code : Arg) (this : SCADParser) (w : World Value)
    (root : Nodes.ref) (this' : SCADParser) (w' : World Value) :
  plainKey (toKey file) = true ->
  parseAST G readFileSync file code this w = (Return root, this', w') ->
  exists src,
    sourceOf readFileSync file code = Return src /\
    codeCache this' = <[toKey file := src]> (codeCache this) /\
    tokenCache this' =
      <[toKey file := List.filter (kept this) (Tokens.tokenize src)]> (tokenCache this) /\
    cache this' = <[toKey file := root]> (cache this) /\
    cache this' !! toKey file = Some root /\
    ignoredTokens this' = ignoredTokens this /\
    List.length (heap w') = S root.
Proof.
  intros _ H.
  destruct (parseAST_cases G readFileSync file code this w)
    as [(_ & _ & E) | [(e & _ & E) | (src & Hsrc & E)]];
    cbv zeta in E; rewrite H in E; try discriminate.
  set (this0 := with_codeCache (insert (toKey file) src) this) in *.
  pose proof (ParseFacts.parse_spec G src (toKey file) this0 w) as Hspec.
  destruct (parse G src (toKey file) this0 w) as [[out this1] w1].
  cbn [fst snd] in Hspec, E.
  destruct Hspec as [consumed _ _ _ Htok Hign Hcache Hcode Hres].
  destruct out as [r|e]; [|discriminate]. inversion E; subst root this' w'; clear E.
  destruct Hres as (-> & parser' & _ & Hlen & _).
  exists src. split; [exact Hsrc|]. cbn.
  repeat split; try assumption.
  - rewrite Hcache. reflexivity.
  - apply lookup_insert_eq.
Qed.

(** X12: what a failed parse leaves behind when [parseAST] was given a
    code, for a file whose name is neither length nor __proto__: the
    code is cached for the file, and so are the tokens up to the
    rejected one, at least one; the cached trees are not updated, so a
    tree cached for the file by an earlier call stays, beside the new
    code, and every tree that stood in the store still stands in it. *)
Theorem parseAST_failure_keeps_the_old_tree (file : Arg) (c : ascii) (s : string)
    (this : SCADParser) (w : World Value) (e : Exn)
    (this' : SCADParser) (w' : World Value) :
  plainKey (toKey file) = true ->
  parseAST G readFileSync file (Str (String c s)) this w = (Throw e, this', w') ->
  cache this' = cache this /\
  (forall par n t, Nodes.tree_at (heap w) par n t -> Nodes.tree_at (heap w') par n t) /\
  codeCache this' = <[toKey file := String c s]> (codeCache this) /\
  exists pre t,
    tokenCache this' = <[toKey file := pre ++ [t]]> (tokenCache this) /\
    (pre ++ [t]) `prefix_of` List.filter (kept this) (Tokens.tokenize (String c s)).
Proof.
  intros _ H.
  destruct (parseAST_cases G readFileSync file (Str (String c s)) this w)
    as [(_ & E & _) | [(e' & E & _) | (src & Hsrc & E)]]; try discriminate.
  cbv zeta in E; rewrite H in E. inversion Hsrc; subst src; clear Hsrc.
  set (this0 := with_codeCache (insert (toKey file) (String c s)) this) in *.
  pose proof (ParseFacts.parse_spec G (String c s) (toKey file) this0 w) as Hspec.
  destruct (parse G (String c s) (toKey file) this0 w) as [[out this1] w1].
  cbn [fst snd] in Hspec, E.
  destruct Hspec as [consumed Hpre _ _ Htok Hign Hcache Hcode Hres].
  destruct out as [r|e0]; [discriminate|]. inversion E; subst e0 this' w'; clear E.
  destruct Hres as (Hheap & _ & pre & t & parser0 & Hcap & _).
  change (kept this0) with (kept this) in *.
  split; [exact Hcache|]. split; [rewrite Hheap; intros par n t0 Ht; exact Ht|].
  split; [exact Hcode|].
  exists pre, t. rewrite <- Hcap. split; [exact Htok|].
  destruct Hpre as [k ->]. rewrite List.filter_app. apply prefix_app_r. reflexivity.
Qed.


(** X14: [parse] called on its own, for a file whose code [parseAST] has
    not cached, cannot report the failure of a parse: the excerpt of
    the report needs the cached code, and the call ends in a
    TypeError. *)
Theorem parse_without_cached_code (code file : string) (this : SCADParser) (w : World Value)
    (e : Exn) (this' : SCADParser) (w' : World Value) :
  codeCache this !! file = None ->
  parse G code file this w = (Throw e, this', w') ->
  e = TypeError.
Proof.
  intros Hnone H.
  pose proof (ParseFacts.parse_spec G code file this w) as Hspec.
  rewrite H in Hspec. cbn [fst snd] in Hspec.
  destruct Hspec as [consumed _ _ _ Htok _ _ Hcode (_ & -> & _)].
  unfold parse_catch. rewrite Htok, lookup_insert_eq.
  unfold getCodeExcerpt. rewrite Hcode, Hnone. cbn [mbind option_bind].
  destruct (match last _ with Some l => _ | None => false end); reflexivity.
Qed.

(** X15: for a file whose name is neither length nor __proto__, the
    error of a failed parse points at the token that the parser
    rejected: the tokens before it were accepted one after the other,
    and the location of the error is the location of that token; the
    error is a LexerError exactly when that token is an
    unrecognized-input token. *)
Theorem parse_error_points_at_the_rejected_token (file : Arg) (c : ascii) (s : string)
    (this : SCADParser) (w : World Value) (e : Exn)
    (this' : SCADParser) (w' : World Value) :
  plainKey (toKey file) = true ->
  parseAST G readFileSync file (Str (String c s)) this w = (Throw e, this', w') ->
  exists pre t parser0,
    (pre ++ [t]) `prefix_of` List.filter (kept this) (Tokens.tokenize (String c s)) /\
    feeds G (start G) pre = Some parser0 /\ feed G parser0 t = None /\
    match e with
    | LexerError _ location =>
        t_type t = "LexerError" /\ location = Loc.new (Some t)
    | ParserError _ _ location _ =>
        String.eqb (t_type t) "LexerError" = false /\ location = Loc.new (Some t)
    | _ => False
    end.
Proof.
  intros Hkey H. apply parseAST_failure_classified in H
    as (captured & _ & Hclass & Hpre & pre & t & parser0 & -> & Hf & Hr);
    [|exact Hkey].
  exists pre, t, parser0. split; [assumption|]. split; [assumption|]. split; [assumption|].
  unfold classified, lastIsLexerError in Hclass. rewrite last_snoc in Hclass.
  destruct e; try contradiction.
  - destruct Hclass as (Hl & -> & _). split; [apply String.eqb_eq; assumption | reflexivity].
  - destruct Hclass as (Hl & -> & _). split; [assumption | reflexivity].
Qed.

End EntryTheorems.

Lemma parseAST_success_is_cached_witness :
  let r := parseAST Fragment.grammar Fragment.noFiles (Str "a.scad") (Str "x = 1;")
             new_SCADParser Fragment.world0 in
  exists src,
    sourceOf Fragment.noFiles (Str "a.scad") (Str "x = 1;") = Return src /\
    codeCache r.1.2 = <[toKey (Str "a.scad") := src]> (codeCache new_SCADParser) /\
    tokenCache r.1.2 =
      <[toKey (Str "a.scad") := List.filter (kept new_SCADParser) (Tokens.tokenize src)]>
        (tokenCache new_SCADParser) /\
    cache r.1.2 = <[toKey (Str "a.scad") := 1%nat]> (cache new_SCADParser) /\
    cache r.1.2 !! toKey (Str "a.scad") = Some 1%nat /\
    ignoredTokens r.1.2 = ignoredTokens new_SCADParser /\
    List.length (heap r.2) = 2%nat.
Proof.
  intros r.
  apply (parseAST_success_is_cached Fragment.grammar Fragment.noFiles (Str "a.scad")
           (Str "x = 1;") new_SCADParser Fragment.world0 1%nat r.1.2 r.2);
    vm_compute; reflexivity.
Defined.

Lemma parseAST_failure_keeps_the_old_tree_witness :
  let first := parseAST Fragment.grammar Fragment.noFiles (Str "a.scad") (Str "x = 1;")
                 new_SCADParser Fragment.world0 in
  let second := parseAST Fragment.grammar Fragment.noFiles (Str "a.scad")
                  (Str "myVar module ;") first.1.2 first.2 in
  cache first.1.2 !! "a.scad" = Some 1%nat /\
  cache second.1.2 = cache first.1.2 /\
  (forall par n t, Nodes.tree_at (heap first.2) par n t ->
                   Nodes.tree_at (heap second.2) par n t) /\
  codeCache second.1.2 = <[toKey (Str "a.scad") := "myVar module ;"]> (codeCache first.1.2) /\
  exists pre t,
    tokenCache second.1.2 = <[toKey (Str "a.scad") := pre ++ [t]]> (tokenCache first.1.2) /\
    (pre ++ [t]) `prefix_of`
      List.filter (kept first.1.2) (Tokens.tokenize "myVar module ;").
Proof.
  intros first second. split; [vm_compute; reflexivity|].
  apply (parseAST_failure_keeps_the_old_tree Fragment.grammar Fragment.noFiles (Str "a.scad")
           "m" "yVar module ;" first.1.2 first.2
           (match second.1.1 with Throw e => e | Return _ => TypeError end)
           second.1.2 second.2); vm_compute; reflexivity.
Defined.

Lemma parse_without_cached_code_witness :
  match (parse Fragment.grammar "myVar module ;" "f.scad" new_SCADParser
           Fragment.world0).1.1 with
  | Throw e => e
  | Return _ => FsError
  end = TypeError.
Proof.
  set (r := parse Fragment.grammar "myVar module ;" "f.scad" new_SCADParser Fragment.world0).
  apply (parse_without_cached_code Fragment.grammar "myVar module ;" "f.scad"
           new_SCADParser Fragment.world0 _ r.1.2 r.2); vm_compute; reflexivity.
Defined.

Lemma parse_error_points_at_the_rejected_token_witness :
  let r := parseAST Fragment.grammar Fragment.noFiles (Str "f.scad") (Str "myVar module ;")
             new_SCADParser Fragment.world0 in
  exists pre t parser0,
    (pre ++ [t]) `prefix_of`
      List.filter (kept new_SCADParser) (Tokens.tokenize "myVar module ;") /\
    feeds Fragment.grammar (start Fragment.grammar) pre = Some parser0 /\
    feed Fragment.grammar parser0 t = None /\
    match match r.1.1 with Throw e => e | Return _ => TypeError end with
    | LexerError _ location =>
        t_type t = "LexerError" /\ location = Loc.new (Some t)
    | ParserError _ _ location _ =>
        String.eqb (t_type t) "LexerError" = false /\ location = Loc.new (Some t)
    | _ => False
    end.
Proof.
  intros r.
  apply (parse_error_points_at_the_rejected_token Fragment.grammar Fragment.noFiles
           (Str "f.scad") "m" "yVar module ;" new_SCADParser Fragment.world0
           (match r.1.1 with Throw e => e | Return _ => TypeError end) r.1.2 r.2);
    vm_compute; reflexivity.
Defined.

(** ** getCodeExcerpt: the window and the marker *)

Module ExcerptFacts.
Import TokenFacts.

Lemma numbered_app width k line x :
  pad k width +:+ ": " +:+ line +:+ x = numbered width k line +:+ x.
Proof. unfold numbered. rewrite !append_assoc. reflexivity. Qed.

Lemma slice_from_0 {A} (l : list A) (e : Z) :
  0 <= e -> JS.slice l 0 e = take (Z.to_nat e) l.
Proof.
  intros He. unfold JS.slice. cbn [Z.ltb Z.compare].
  destruct (Z.ltb_spec e 0); [lia|].
  rewrite (Z.min_l 0) by lia. change (Z.to_nat 0) with 0%nat. rewrite drop_0, Z.sub_0_r.
  destruct (Z.le_ge_cases e (Z.of_nat (List.length l))).
  - rewrite Z.min_l by lia. reflexivity.
  - rewrite Z.min_r by lia. rewrite Nat2Z.id.
    rewrite !take_ge by lia. reflexivity.
Qed.

Lemma slice_length {A} (l : list A) (s e : Z) :
  0 <= s -> 0 <= e -> (List.length (JS.slice l s e) <= Z.to_nat (e - s))%nat.
Proof.
  intros Hs He. unfold JS.slice.
  destruct (Z.ltb_spec s 0); [lia|]. destruct (Z.ltb_spec e 0); [lia|].
  rewrite length_take. lia.
Qed.


Lemma strlen_times (n : Z) (c : ascii) : JS.strlen (JS.times n c) = Z.max n 0.
Proof.
  unfold JS.strlen, JS.times.
  assert (forall k, String.length (string_of_list_ascii (replicate k c)) = k) as H.
  { induction k as [|k IH]; simpl; [reflexivity | rewrite IH; reflexivity]. }
  rewrite H. lia.
Qed.

Lemma times_add (a b : Z) (c : ascii) :
  0 <= a -> 0 <= b -> JS.times (a + b) c = JS.times a c +:+ JS.times b c.
Proof.
  intros Ha Hb. unfold JS.times. rewrite Z2Nat.inj_add by assumption.
  generalize (Z.to_nat a) as n. intros n. induction n as [|n IH]; [reflexivity|].
  cbn [Nat.add replicate string_of_list_ascii]. rewrite append_cons, IH. reflexivity.
Qed.

Lemma strlen_pad (k width : Z) :
  JS.strlen (pad k width) = Z.max width (JS.strlen (JS.numToString k)).
Proof.
  unfold pad. destruct (Z.geb_spec (JS.strlen (JS.numToString k)) width); [lia|].
  rewrite ScanFacts.strlen_append, strlen_times. lia.
Qed.

(** What the excerpt is made of, before any case analysis. *)
Lemma getCodeExcerpt_unfold file location this src :
  codeCache this !! file = Some src ->
  let code := JS.splitLines src in
  let L := loc_line location in
  let start := if L - 5 <? 0 then 0 else L - 5 in
  let width := excerptWidth (Z.of_nat (List.length code)) L in
  getCodeExcerpt file location 3 this =
  Some (JS.join NL
    (imap (fun index line =>
       if negb (Z.of_nat index =? L - 1)
       then numbered width (Z.of_nat index + start + 1) line
       else numbered width (Z.of_nat index + start + 1) line +:+ NL
            +:+ drawMarker location width)
     (JS.slice code start (L + 2)))).
Proof.
  intros Hc. cbv zeta. unfold getCodeExcerpt. rewrite Hc. cbn [mbind option_bind].
  replace (loc_line location - (3 + 2)) with (loc_line location - 5) by lia.
  replace (loc_line location + (3 - 1)) with (loc_line location + 2) by lia.
  f_equal. f_equal. apply imap_ext. intros i x _. cbv beta.
  unfold excerptWidth. destruct (negb _); [reflexivity|].
  apply numbered_app.
Qed.

End ExcerptFacts.

Section ExcerptTheorems.
Import TokenFacts ExcerptFacts.

(** X16: for a failure on one of the first five lines, the excerpt is the
    text from its first line to the second line after the failing one,
    every line under its own number, with the marker under the failing
    line. *)
Theorem excerpt_near_the_top (file : string) (location : Location) (this : SCADParser)
    (src lineL : string) :
  let code := JS.splitLines src in
  let L := loc_line location in
  let width := excerptWidth (Z.of_nat (List.length code)) L in
  codeCache this !! file = Some src ->
  1 <= L <= 5 ->
  code !! Z.to_nat (L - 1) = Some lineL ->
  getCodeExcerpt file location 3 this =
  Some (JS.join NL
          (numberedFrom width 1 (take (Z.to_nat (L - 1)) code) ++
           [numbered width L lineL +:+ NL +:+ drawMarker location width] ++
           numberedFrom width (L + 1) (take 2 (drop (Z.to_nat L) code)))).
Proof.
  intros code L width Hc HL Hline.
  rewrite (getCodeExcerpt_unfold _ _ _ _ Hc). fold code L width. cbv zeta.
  assert ((if L - 5 <? 0 then 0 else L - 5) = 0) as ->
    by (destruct (Z.ltb_spec (L - 5) 0); lia).
  rewrite slice_from_0 by lia.
  assert (take (Z.to_nat (L + 2)) code =
          take (Z.to_nat (L - 1)) code ++ lineL :: take 2 (drop (Z.to_nat L) code)) as ->.
  { replace (Z.to_nat (L + 2)) with (Z.to_nat (L - 1) + 3)%nat by lia.
    rewrite <- take_take_drop. f_equal.
    rewrite (drop_S _ _ _ Hline). cbn [take]. f_equal.
    replace (S (Z.to_nat (L - 1))) with (Z.to_nat L) by lia. reflexivity. }
  assert (List.length (take (Z.to_nat (L - 1)) code) = Z.to_nat (L - 1)) as Hlen.
  { apply length_take_le. apply lookup_lt_Some in Hline. lia. }
  f_equal. f_equal. rewrite imap_app, imap_cons. rewrite Hlen.
  apply (f_equal2 app); [|cbn [app]; apply (f_equal2 cons)].
  - apply imap_ext. intros i x Hi. cbv beta.
    apply lookup_lt_Some in Hi. rewrite Hlen in Hi.
    destruct (Z.eqb_spec (Z.of_nat i) (L - 1)); [lia|]. cbn [negb].
    f_equal. lia.
  - replace (Z.of_nat (Z.to_nat (L - 1) + 0)) with (L - 1) by lia.
    rewrite Z.eqb_refl. cbn [negb].
    replace (L - 1 + 0 + 1) with L by lia. reflexivity.
  - apply imap_ext. intros i x Hi. unfold compose. cbv beta.
    destruct (Z.eqb_spec (Z.of_nat (Z.to_nat (L - 1) + S i)) (L - 1)); [lia|]. cbn [negb].
    f_equal. lia.
Qed.

(** X17: for a failure on line 8 or below, the excerpt has no marker:
    it is made of numbered lines of the text only. *)
Theorem excerpt_without_marker (file : string) (location : Location) (this : SCADParser)
    (src : string) :
  let code := JS.splitLines src in
  let L := loc_line location in
  let width := excerptWidth (Z.of_nat (List.length code)) L in
  codeCache this !! file = Some src ->
  8 <= L ->
  getCodeExcerpt file location 3 this =
  Some (JS.join NL (numberedFrom width (L - 4) (JS.slice code (L - 5) (L + 2)))).
Proof.
  intros code L width Hc HL.
  rewrite (getCodeExcerpt_unfold _ _ _ _ Hc). fold code L width. cbv zeta.
  assert ((if L - 5 <? 0 then 0 else L - 5) = L - 5) as ->
    by (destruct (Z.ltb_spec (L - 5) 0); lia).
  f_equal. f_equal. apply imap_ext. intros i x Hi. cbv beta.
  apply lookup_lt_Some in Hi.
  pose proof (slice_length code (L - 5) (L + 2) ltac:(lia) ltac:(lia)) as Hlen.
  destruct (Z.eqb_spec (Z.of_nat i) (L - 1)); [lia|]. cbn [negb].
  f_equal. lia.
Qed.


(** X19: the marker is aligned with the numbered line above it whenever
    the line number fits the width: its first caret stands under the
    character of the line at the column of the location, and it spans
    the size of the location, or two columns when the size is less. *)
Theorem marker_stands_under_the_token (location : Location) (width k : Z) :
  JS.strlen (JS.numToString k) <= width ->
  1 <= loc_column location ->
  drawMarker location width =
    JS.times (JS.strlen (pad k width +:+ ": ") + (loc_column location - 1)) " "
    +:+ "^" +:+ JS.times (loc_size location - 2) "-" +:+ "^" /\
  JS.strlen (drawMarker location width) =
    JS.strlen (pad k width +:+ ": ") + (loc_column location - 1)
    + Z.max 2 (loc_size location).
Proof.
  intros Hk Hcol.
  assert (0 <= JS.strlen (JS.numToString k)) as Hnn by (unfold JS.strlen; lia).
  assert (JS.strlen (pad k width +:+ ": ") = width + 2) as Hprefix.
  { rewrite ScanFacts.strlen_append, strlen_pad. unfold JS.strlen at 2. simpl. lia. }
  assert (drawMarker location width =
          JS.times (width + 2 + (loc_column location - 1)) " "
          +:+ "^" +:+ JS.times (loc_size location - 2) "-" +:+ "^") as Hm.
  { unfold drawMarker.
    replace (width + 2 + (loc_column location - 1))
      with (width + (loc_column location + 1)) by lia.
    rewrite (times_add width (loc_column location + 1)) by lia.
    rewrite !append_assoc. reflexivity. }
  rewrite Hprefix. split; [exact Hm|].
  rewrite Hm, !ScanFacts.strlen_append, !strlen_times.
  unfold JS.strlen. simpl. lia.
Qed.

End ExcerptTheorems.

Lemma excerpt_near_the_top_witness :
  getCodeExcerpt "f.scad" (mkLocation 6 2 0 3 1) 3 withTenLines =
  Some (JS.join NL ["1: l1"; "2: l2"; "3: l3" +:+ NL +:+ "   ^^"; "4: l4"; "5: l5"]).
Proof.
  exact (excerpt_near_the_top "f.scad" (mkLocation 6 2 0 3 1) withTenLines tenLines "l3"
           eq_refl ltac:(vm_compute; split; discriminate) eq_refl).
Defined.

Lemma excerpt_without_marker_witness :
  getCodeExcerpt "f.scad" (mkLocation 21 2 0 8 1) 3 withTenLines =
  Some (JS.join NL ["4: l4"; "5: l5"; "6: l6"; "7: l7"; "8: l8"; "9: l9"; "10: l10"]).
Proof.
  exact (excerpt_without_marker "f.scad" (mkLocation 21 2 0 8 1) withTenLines tenLines
           eq_refl ltac:(vm_compute; discriminate)).
Defined.


Lemma marker_stands_under_the_token_witness :
  drawMarker (Loc.new (Some tokModule)) 1 =
    JS.times (JS.strlen (pad 1 1 +:+ ": ") + (7 - 1)) " "
    +:+ "^" +:+ JS.times (6 - 2) "-" +:+ "^" /\
  JS.strlen (drawMarker (Loc.new (Some tokModule)) 1) =
    JS.strlen (pad 1 1 +:+ ": ") + (7 - 1) + Z.max 2 6.
Proof.
  exact (marker_stands_under_the_token (Loc.new (Some tokModule)) 1 1
           ltac:(vm_compute; discriminate) ltac:(vm_compute; discriminate)).
Defined.

(** ** render *)

Section RenderTheorems.
Variable basename : string -> string.

(** X20: [render] makes no use of the text of the code: two codes that
    are not empty get the same job, and the temporary file of that job
    is written with the text utf8, under a name in /tmp taken from the
    file argument; the command is run on that file. *)
Theorem render_never_writes_the_code (c c' : ascii) (s s' : string) (file : Arg)
    (options : RenderOptions) :
  render basename (Str (String c s)) file options =
  render basename (Str (String c' s')) file options /\
  match render basename (Str (String c s)) file options with
  | Return (Some (WriteThenExec path data command)) =>
      data = "utf8" /\
      String.prefix "/tmp/" path = true /\
      command = commandLine (with_inputFile (Str path) (mergeOptions options))
  | Return _ => False
  | Throw e => isString file = false /\ e = TypeError
  end.
Proof.
  split; [reflexivity|]. unfold render. cbn [truthyString].
  destruct file as [| |f]; try (split; reflexivity).
  split; [reflexivity|]. split; [|reflexivity].
  destruct (basename f); reflexivity.
Qed.

End RenderTheorems.

(** ** setChildren: what it leaves in place *)

Section SetChildrenTheorems.
Context {Value : Type}.
Implicit Types (h : Nodes.Heap Value).
Import Nodes NodeSpec.

(** X21: [setChildren] replaces the list of children and does not tell
    the children it drops: a child of the old list that is not in the
    new one is no longer listed, and still has the node for parent. *)
Theorem setChildren_keeps_the_parent_of_a_dropped_child
    (this c : ref) (old new : list (option ref)) h :
  is_Some (h !! this) -> is_Some (h !! c) ->
  c ∈ truthy old -> c ∉ truthy new ->
  exists o oc,
    setChildren this new (setChildren this old h) !! this = Some o /\
    setChildren this new (setChildren this old h) !! c = Some oc /\
    children o = truthy new /\ (c ∉ children o) /\ parent oc = Some this.
Proof.
  intros [o0 Ho] [oc0 Hc] Hold Hnew.
  rewrite !NodeFacts.setChildren_lookup, Ho, Hc. cbn [fmap option_fmap option_map].
  eexists _, _. split; [reflexivity|]. split; [reflexivity|].
  unfold attached; cbn. rewrite decide_True by reflexivity.
  split; [reflexivity|]. split; [assumption|].
  rewrite (decide_False (P := (c ∈ truthy new))) by assumption.
  rewrite decide_True by assumption. reflexivity.
Qed.

(** X22: [setChildren] does not take a child away from the node that has
    it: a node given to a second parent is listed by both, and has the
    second for parent. *)
Theorem setChildren_shares_an_adopted_child
    (first second c : ref) (arr arr' : list (option ref)) h :
  is_Some (h !! first) -> is_Some (h !! second) -> is_Some (h !! c) ->
  first <> second ->
  c ∈ truthy arr -> c ∈ truthy arr' ->
  exists o o' oc,
    setChildren second arr' (setChildren first arr h) !! first = Some o /\
    setChildren second arr' (setChildren first arr h) !! second = Some o' /\
    setChildren second arr' (setChildren first arr h) !! c = Some oc /\
    c ∈ children o /\ c ∈ children o' /\ parent oc = Some second.
Proof.
  intros [o1 H1] [o2 H2] [oc0 Hc] Hne Harr Harr'.
  rewrite !NodeFacts.setChildren_lookup, H1, H2, Hc. cbn [fmap option_fmap option_map].
  eexists _, _, _. split; [reflexivity|]. split; [reflexivity|]. split; [reflexivity|].
  unfold attached; cbn.
  rewrite (decide_False (P := (first = second))) by assumption.
  rewrite !decide_True by (assumption || reflexivity).
  repeat split; assumption.
Qed.

End SetChildrenTheorems.

Lemma setChildren_keeps_the_parent_of_a_dropped_child_witness :
  exists o oc,
    Nodes.setChildren 0%nat [] (Nodes.setChildren 0%nat [Some 1%nat] threeNodes) !! 0%nat
      = Some o /\
    Nodes.setChildren 0%nat [] (Nodes.setChildren 0%nat [Some 1%nat] threeNodes) !! 1%nat
      = Some oc /\
    Nodes.children o = Nodes.truthy [] /\ (1%nat ∉ Nodes.children o) /\
    Nodes.parent oc = Some 0%nat.
Proof.
  apply (setChildren_keeps_the_parent_of_a_dropped_child 0%nat 1%nat [Some 1%nat] []
           threeNodes).
  - eexists. reflexivity.
  - eexists. reflexivity.
  - apply list_elem_of_In. vm_compute. left. reflexivity.
  - intros E. apply list_elem_of_In in E. exact E.
Defined.

Lemma setChildren_shares_an_adopted_child_witness :
  exists o o' oc,
    Nodes.setChildren 2%nat [Some 1%nat] (Nodes.setChildren 0%nat [Some 1%nat] threeNodes)
      !! 0%nat = Some o /\
    Nodes.setChildren 2%nat [Some 1%nat] (Nodes.setChildren 0%nat [Some 1%nat] threeNodes)
      !! 2%nat = Some o' /\
    Nodes.setChildren 2%nat [Some 1%nat] (Nodes.setChildren 0%nat [Some 1%nat] threeNodes)
      !! 1%nat = Some oc /\
    1%nat ∈ Nodes.children o /\ 1%nat ∈ Nodes.children o' /\
    Nodes.parent oc = Some 2%nat.
Proof.
  apply (setChildren_shares_an_adopted_child 0%nat 2%nat 1%nat [Some 1%nat] [Some 1%nat]
           threeNodes).
  - eexists. reflexivity.
  - eexists. reflexivity.
  - eexists. reflexivity.
  - discriminate.
  - apply list_elem_of_In. vm_compute. left. reflexivity.
  - apply list_elem_of_In. vm_compute. left. reflexivity.
Defined.

(** ** The strings of nodes *)

Module PrintFacts.
Import Nodes Printing TreeFacts.

Section Facts.
Context {Value : Type} {view : ValueView Value}.

Lemma printArray_ext (p1 p2 : ref -> option Z -> option string) n (l1 l2 : list ref) :
  Forall2 (fun c1 c2 => forall o, p1 c1 o = p2 c2 o /\ is_Some (p1 c1 o)) l1 l2 ->
  printArray p1 n l1 = printArray p2 n l2 /\ is_Some (printArray p1 n l1).
Proof.
  induction 1 as [|c1 c2 l1 l2 Hc Hl [IH1 IH2]]; cbn [printArray].
  - split; [reflexivity | eexists; reflexivity].
  - destruct (Hc (Some (n + 1))) as [E [s Hs]]. rewrite <- E, <- IH1, Hs.
    destruct IH2 as [rest Hrest]. rewrite Hrest. cbn [mbind option_bind].
    split; [reflexivity | eexists; reflexivity].
Qed.

Lemma childrenToString_ext (p1 p2 : ref -> option Z -> option string) n (l1 l2 : list ref) :
  Forall2 (fun c1 c2 => forall o, p1 c1 o = p2 c2 o /\ is_Some (p1 c1 o)) l1 l2 ->
  childrenToString p1 n (NodeArray l1) = childrenToString p2 n (NodeArray l2) /\
  is_Some (childrenToString p1 n (NodeArray l1)).
Proof.
  intros Hl. pose proof (printArray_ext p1 p2 n l1 l2 Hl) as [E [s Hs]].
  unfold childrenToString. destruct Hl as [|c1 c2 l1 l2 Hc Hl].
  - split; [reflexivity | eexists; reflexivity].
  - rewrite <- E, Hs. cbn [mbind option_bind].
    split; [reflexivity | eexists; reflexivity].
Qed.

Lemma Node_toString_ext (p1 p2 : ref -> option Z -> option string) name n params
    (l1 l2 : list ref) :
  Forall2 (fun c1 c2 => forall o, p1 c1 o = p2 c2 o /\ is_Some (p1 c1 o)) l1 l2 ->
  Node_toString p1 name n params (NodeArray l1) = Node_toString p2 name n params (NodeArray l2)
  /\ is_Some (Node_toString p1 name n params (NodeArray l1)).
Proof.
  intros Hl. pose proof (childrenToString_ext p1 p2 n l1 l2 Hl) as [E [s Hs]].
  unfold Node_toString. rewrite <- E, Hs. cbn [mbind option_bind].
  split; [reflexivity | eexists; reflexivity].
Qed.

Lemma Node_toString_leaf (p1 p2 : ref -> option Z -> option string) name n params children :
  match children with NodeArray (_ :: _) => False | _ => True end ->
  Node_toString p1 name n params children = Node_toString p2 name n params children
  /\ is_Some (Node_toString p1 name n params children).
Proof.
  intros Hc. unfold Node_toString, childrenToString.
  destruct children as [|s|[|c l]|v]; try contradiction; cbn [mbind option_bind];
    (split; [reflexivity | eexists; reflexivity]).
Qed.

Lemma height_child (t : Tree Value) f loc ts :
  t ∈ ts -> (height t < height (TNode f loc ts))%nat.
Proof.
  cbn [height]. induction ts as [|t' ts IH]; intros Hin.
  - apply elem_of_nil in Hin. contradiction.
  - cbn [foldr]. apply elem_of_cons in Hin as [->|Hin]; [lia|].
    specialize (IH Hin). lia.
Qed.

Lemma toString_shape (t : Tree Value) :
  forall h1 h2 par1 par2 r1 r2 fuel1 fuel2 options,
    tree_at h1 par1 r1 t -> tree_at h2 par2 r2 t ->
    (height t <= fuel1)%nat -> (height t <= fuel2)%nat ->
    toString fuel1 h1 r1 options = toString fuel2 h2 r2 options /\
    is_Some (toString fuel1 h1 r1 options).
Proof.
  induction t as [f loc ts IH] using Tree_nested_ind.
  intros h1 h2 par1 par2 r1 r2 fuel1 fuel2 options Ht1 Ht2 Hf1 Hf2.
  inversion Ht1 as [p1 x1 f1 loc1 cs1 ts1 Hr1 Hsub1]; subst.
  inversion Ht2 as [p2 x2 f2 loc2 cs2 ts2 Hr2 Hsub2]; subst.
  destruct fuel1 as [|fuel1]; [cbn [height] in Hf1; lia|].
  destruct fuel2 as [|fuel2]; [cbn [height] in Hf2; lia|].
  cbn [toString]. rewrite Hr1, Hr2. cbn [mbind option_bind].
  assert (Forall2 (fun c1 c2 => forall o,
                     toString fuel1 h1 c1 o = toString fuel2 h2 c2 o /\
                     is_Some (toString fuel1 h1 c1 o)) cs1 cs2) as Hcs.
  { assert (Forall (fun t => (height t <= fuel1)%nat /\ (height t <= fuel2)%nat) ts) as Hh.
    { apply Forall_forall. intros t Ht.
      pose proof (height_child t f loc ts Ht). lia. }
    clear Hr1 Hr2 Ht1 Ht2 Hf1 Hf2. revert cs2 Hsub2.
    induction Hsub1 as [|c1 t cs1 ts Hc1 Hsub1 IHsub]; intros cs2 Hsub2.
    - inversion Hsub2; subst. constructor.
    - inversion Hsub2 as [|c2 t' cs2' ts' Hc2 Hsub2']; subst.
      apply Forall_cons in IH as [IHt IHts]. apply Forall_cons in Hh as [[Ha Hb] Hh].
      constructor; [|apply IHsub; assumption].
      intros o. eapply IHt; eassumption. }
  unfold toStringOf. cbn [fields children].
  destruct f; first [ apply Node_toString_ext; exact Hcs
                    | apply Node_toString_leaf; destruct options; exact I
                    | apply Node_toString_leaf; exact I ].
Qed.

End Facts.

End PrintFacts.

Section PrintTheorems.
Context {Value : Type} {view : Printing.ValueView Value}.
Import Nodes Printing.

(** X23: the string of a node is a function of the shape of the tree
    under it: two nodes that head trees of one shape, in one store or
    in two, whatever their parents, have the same string, and they have
    one as soon as the depth allowed for the calls reaches the height
    of the tree. *)
Theorem toString_depends_on_the_shape_only (t : Tree Value)
    (h1 h2 : list (Obj Value)) (par1 par2 : option ref) (r1 r2 : ref)
    (fuel1 fuel2 : nat) (options : option Z) :
  tree_at h1 par1 r1 t -> tree_at h2 par2 r2 t ->
  (height t <= fuel1)%nat -> (height t <= fuel2)%nat ->
  toString fuel1 h1 r1 options = toString fuel2 h2 r2 options /\
  is_Some (toString fuel1 h1 r1 options).
Proof. apply PrintFacts.toString_shape. Qed.

(** X24: the string of a ForLoopNode never shows the statements of the
    loop: the class has no [toString] of its own, and the one it
    inherits prints the children of its options, which a caller
    leaves out. *)
Theorem ForLoopNode_is_printed_without_its_body (h : list (Obj Value)) (this : ref)
    (o : Obj Value) (params : Value) (fuel : nat) (n : Z) :
  h !! this = Some o -> fields o = FForLoop params ->
  toString (S fuel) h this (Some n) =
    Some (indentToString n +:+ "<ForLoop>(null)</ForLoop>") /\
  toString (S fuel) h this None = Some "<ForLoop></ForLoop>".
Proof.
  intros Ho Hf. cbn [toString]. rewrite Ho. cbn [mbind option_bind].
  unfold toStringOf. rewrite Hf. split; reflexivity.
Qed.

(** X25: an ActionNode whose label was never set is printed with the
    label undefined: the constructor leaves the property out, and
    [toString] leaves a label out only when it is null. *)
Theorem ActionNode_without_label_is_printed_as_undefined (token : option Token)
    (text : string) (params : Value) (h : list (Obj Value)) (n : Z) :
  let r := new_ActionNode token text params h in
  toString 1 r.2 r.1 (Some n) =
  Some (indentToString n +:+ "<Action"
        +:+ paramsToString ([("name", actionName text); ("label", "undefined");
                             ("modifier", actionModifier text)] ++ listedParams params)
        +:+ "></Action>").
Proof.
  cbv zeta. unfold new_ActionNode. rewrite NodeFacts.construct_fst.
  cbn [toString]. rewrite (NodeFacts.construct_lookup_new _ None) by constructor.
  cbn [mbind option_bind]. reflexivity.
Qed.

End PrintTheorems.

Lemma toString_depends_on_the_shape_only_witness :
  Printing.toString (view := string_view) 1 twoComments 0%nat (Some 0) =
  Printing.toString (view := string_view) 1 twoComments 1%nat (Some 0) /\
  is_Some (Printing.toString (view := string_view) 1 twoComments 0%nat (Some 0)).
Proof.
  apply (toString_depends_on_the_shape_only (view := string_view)
           (Nodes.TNode (Nodes.FComment "x" false) None [])
           twoComments twoComments None None 0%nat 1%nat 1 1 (Some 0)).
  - econstructor; [reflexivity | constructor].
  - econstructor; [reflexivity | constructor].
  - vm_compute. constructor.
  - vm_compute. constructor.
Defined.

Lemma ForLoopNode_is_printed_without_its_body_witness :
  loopOverComment !! 1%nat =
    Some (Nodes.mkObj [0%nat] None None (Nodes.FForLoop "[i]")) /\
  Printing.toString (view := string_view) 1 loopOverComment 1%nat (Some 2) =
    Some (Printing.indentToString 2 +:+ "<ForLoop>(null)</ForLoop>") /\
  Printing.toString (view := string_view) 1 loopOverComment 1%nat None =
    Some "<ForLoop></ForLoop>".
Proof.
  split; [reflexivity|].
  exact (ForLoopNode_is_printed_without_its_body (view := string_view) loopOverComment 1%nat
           (Nodes.mkObj [0%nat] None None (Nodes.FForLoop "[i]")) "[i]" 0 2
           eq_refl eq_refl).
Defined.

(** ** ExpressionNode *)

Module ExprFacts.
Import Nodes Printing Expressions ExprSpec.

Section Facts.
Context {Value : Type} {view : ValueView Value}.
Implicit Types (h : list (ExprObj Value)) (o : ExprObj Value) (x : Operand Value).

Lemma operandString_ext (p1 p2 : ref -> option (option string)) (bound : nat) x :
  operand_below bound x ->
  (forall r, (r < bound)%nat -> p1 r = p2 r) ->
  operandString p1 x = operandString p2 x.
Proof.
  intros Hx Hp. destruct x as [v|r]; [reflexivity|].
  cbn [operandString]. rewrite (Hp r Hx). reflexivity.
Qed.

(** The string of an expression depends on the objects up to it, and
    on their parents not at all. *)
Lemma toString_frame h h' (n : nat) :
  bottom_up h ->
  (forall i o, (i <= n)%nat -> h !! i = Some o ->
               exists o', h' !! i = Some o' /\ same_expression o o') ->
  forall this fuel fuel', (this <= n)%nat -> (this < fuel)%nat -> (this < fuel')%nat ->
    is_Some (h !! this) ->
    toString fuel h this = toString fuel' h' this /\ is_Some (toString fuel h this).
Proof.
  intros Hwf Hsame this. induction (lt_wf this) as [this _ IH].
  intros fuel fuel' Hn Hf Hf' [o Ho].
  destruct fuel as [|fuel]; [lia|]. destruct fuel' as [|fuel']; [lia|].
  cbn [toString]. rewrite Ho.
  destruct (Hsame this o Hn Ho) as (o' & Ho' & Hl & Hr & Hop & Hneg). rewrite Ho'.
  cbn [mbind option_bind]. unfold toStringOf. rewrite Hl, Hr, Hop, Hneg.
  destruct (Hwf this o Ho) as [Hleft Hright].
  assert (forall x, operand_below this x ->
            operandString (toString fuel h) x = operandString (toString fuel' h') x /\
            is_Some (operandString (toString fuel h) x)) as Hx.
  { intros [v|r] Hb; [split; [reflexivity | eexists; reflexivity]|].
    cbn [operand_below] in Hb. cbn [operandString].
    assert (is_Some (h !! r)) as Hsome.
    { apply lookup_lt_is_Some. apply lookup_lt_Some in Ho. lia. }
    destruct (IH r Hb fuel fuel' ltac:(lia) ltac:(lia) ltac:(lia) Hsome) as [E [s Hs]].
    rewrite <- E, Hs. split; [reflexivity | eexists; reflexivity]. }
  destruct (Hx _ Hleft) as [El [l Hl']].
  destruct (rightExpression o) as [rhs|].
  - destruct (operator o) as [op|]; [|split; [reflexivity | eexists; reflexivity]].
    destruct (Hx _ Hright) as [Er [r Hr']].
    rewrite <- El, <- Er, Hl', Hr'. cbn [mbind option_bind].
    split; [reflexivity | eexists; reflexivity].
  - rewrite <- El, Hl'. cbn [mbind option_bind].
    split; [reflexivity | eexists; reflexivity].
Qed.

Lemma same_expression_refl o : same_expression o o.
Proof. repeat split. Qed.

(** The constructor, object by object. *)
Lemma new_ExpressionNode_lookup lhs rhs op neg h i :
  (new_ExpressionNode lhs rhs op neg h).2 !! i =
  (fun o => if refers i lhs || from_option (refers i) false rhs
            then set_e_parent (List.length h) o else o)
  <$> (h ++ [mkExprObj None lhs rhs op neg]) !! i.
Proof.
  unfold new_ExpressionNode. cbn [snd].
  set (h0 := h ++ [mkExprObj None lhs rhs op neg]).
  set (this := List.length h).
  destruct rhs as [[v|r]|]; destruct lhs as [v'|l];
    rewrite ?list_lookup_alter; cbn [refers from_option orb];
    repeat case_bool_decide; repeat case_decide; subst;
    destruct (h0 !! i) as [o|]; cbn; try reflexivity; try congruence.
Qed.

(** The string of an operand that was there before [this], in a store
    that keeps the expressions before [this]. *)
Lemma operandString_frame h h' (this : nat) x :
  bottom_up h -> (this <= List.length h)%nat ->
  (forall i o, (i < this)%nat -> h !! i = Some o ->
               exists o', h' !! i = Some o' /\ same_expression o o') ->
  operand_below this x ->
  operandString (toString this h') x = operandString (toString this h) x /\
  is_Some (operandString (toString this h) x).
Proof.
  intros Hwf Hlen Hsame Hx. destruct x as [v|r].
  - split; [reflexivity | eexists; reflexivity].
  - cbn [operand_below] in Hx. cbn [operandString].
    assert (is_Some (h !! r)) as Hsome by (apply lookup_lt_is_Some; lia).
    destruct (toString_frame h h' r Hwf) with (this := r) (fuel := this) (fuel' := this)
      as [E [s Hs]]; try lia; try assumption.
    { intros i o Hi Ho. apply Hsame; [lia | assumption]. }
    rewrite <- E, Hs. split; [reflexivity | eexists; reflexivity].
Qed.

Lemma new_ExpressionNode_length lhs rhs op neg h :
  List.length (new_ExpressionNode lhs rhs op neg h).2 = S (List.length h).
Proof.
  unfold new_ExpressionNode. cbn [snd].
  destruct rhs as [[v|r]|]; destruct lhs as [v'|l];
    rewrite ?length_alter, length_app; cbn; lia.
Qed.

Lemma refers_below (bound : nat) x i :
  operand_below bound x -> (bound <= i)%nat -> refers i x = false.
Proof.
  destruct x as [v|r]; [reflexivity|]. cbn. intros Hr Hi.
  apply bool_decide_eq_false. lia.
Qed.

End Facts.

End ExprFacts.

Section ExprTheorems.
Context {Value : Type} {view : Printing.ValueView Value}.
Import Nodes Printing Expressions ExprSpec ExprFacts.

(** X26: an expression made of two operands and an operator is printed
    as the strings of its operands around the operator, in
    parentheses, after a minus sign when it is negative; the operands
    print as they did before; those that are expressions get the new
    object for parent; the store stays one in which operands precede
    the expressions that hold them. *)
Theorem ExpressionNode_prints_its_operands (lhs rhs : Operand Value) (op : string)
    (neg : bool) (h : list (ExprObj Value)) :
  bottom_up h ->
  operand_below (List.length h) lhs -> operand_below (List.length h) rhs ->
  let r := new_ExpressionNode lhs (Some rhs) (Some op) neg h in
  exists L R,
    operandString (toString (List.length h) h) lhs = Some L /\
    operandString (toString (List.length h) h) rhs = Some R /\
    toString (S r.1) r.2 r.1 =
      Some (Some ((if neg then "- " else EmptyString) +:+ "(" +:+ L +:+ op +:+ R +:+ ")")) /\
    bottom_up r.2 /\
    (forall i, refers i lhs || refers i rhs = true ->
               exists o, r.2 !! i = Some o /\ e_parent o = Some r.1).
Proof.
  intros Hwf Hl Hr r.
  assert (forall i o, (i < List.length h)%nat -> h !! i = Some o ->
            exists o', r.2 !! i = Some o' /\ same_expression o o') as Hsame.
  { intros i o Hi Ho. subst r. rewrite new_ExpressionNode_lookup.
    rewrite lookup_app_l, Ho by assumption. cbn [fmap option_fmap option_map].
    eexists. split; [reflexivity|]. destruct (_ || _); repeat split. }
  assert (r.2 !! List.length h = Some (mkExprObj None lhs (Some rhs) (Some op) neg)) as Hnew.
  { subst r. rewrite new_ExpressionNode_lookup, list_lookup_middle by reflexivity.
    cbn [fmap option_fmap option_map from_option].
    rewrite (refers_below _ _ _ Hl), (refers_below _ _ _ Hr) by lia. reflexivity. }
  destruct (operandString_frame h r.2 (List.length h) lhs Hwf (le_n _) Hsame Hl)
    as [El [L HL]].
  destruct (operandString_frame h r.2 (List.length h) rhs Hwf (le_n _) Hsame Hr)
    as [Er [R HR]].
  exists L, R. split; [exact HL|]. split; [exact HR|]. split; [|split].
  - change (r.1) with (List.length h). cbn [toString]. rewrite Hnew.
    cbn [mbind option_bind]. unfold toStringOf.
    cbn [rightExpression operator leftExpression negative].
    rewrite El, Er, HL, HR. reflexivity.
  - intros i o Ho. destruct (Nat.lt_ge_cases i (List.length h)) as [Hi|Hi].
    + destruct (h !! i) as [o0|] eqn:Ho0; [|apply lookup_ge_None in Ho0; lia].
      destruct (Hsame i o0 Hi Ho0) as (o' & Ho' & Hl' & Hr' & _).
      rewrite Ho in Ho'. inversion Ho'; subst o'. rewrite Hl', Hr'.
      exact (Hwf i o0 Ho0).
    + assert (i = List.length h) as ->.
      { apply lookup_lt_Some in Ho. subst r.
        rewrite new_ExpressionNode_length in Ho. lia. }
      rewrite Hnew in Ho. inversion Ho; subst o. split; assumption.
  - intros i Hi. subst r. rewrite new_ExpressionNode_lookup. cbn [from_option]. rewrite Hi.
    assert ((i < List.length h)%nat) as Hlt.
    { apply orb_true_iff in Hi as [Hi|Hi];
        [destruct lhs as [|x] | destruct rhs as [|x]]; cbn in Hi; try discriminate;
        apply bool_decide_eq_true in Hi; subst; assumption. }
    destruct (lookup_lt_is_Some_2 h i Hlt) as [o Ho].
    rewrite lookup_app_l, Ho by assumption. eexists. split; reflexivity.
Qed.

(** X27: [setNegative] puts and removes the minus sign and changes
    nothing else of the string. *)
Theorem setNegative_puts_the_sign (h : list (ExprObj Value)) (this : ref) (s : string) :
  bottom_up h ->
  toString (S this) (setNegative this false h) this = Some (Some s) ->
  toString (S this) (setNegative this true h) this = Some (Some ("- " +:+ s)).
Proof.
  intros Hwf. unfold setNegative. cbn [toString].
  rewrite !list_lookup_alter_eq. destruct (h !! this) as [o|] eqn:Ho; [|discriminate].
  cbn [fmap option_fmap option_map mbind option_bind].
  destruct (Hwf this o Ho) as [Hleft Hright].
  assert (forall b i o0, (i < this)%nat -> h !! i = Some o0 ->
            exists o', alter (set_negative b) this h !! i = Some o' /\ same_expression o0 o')
    as Hsame.
  { intros b i o0 Hi Ho0. rewrite list_lookup_alter_ne by lia.
    exists o0. split; [assumption | apply same_expression_refl]. }
  assert ((this <= List.length h)%nat) as Hlen by (apply lookup_lt_Some in Ho; lia).
  assert (forall x, operand_below this x ->
            operandString (toString this (alter (set_negative true) this h)) x =
            operandString (toString this (alter (set_negative false) this h)) x) as Hx.
  { intros x Hb.
    destruct (operandString_frame h _ this x Hwf Hlen (Hsame true) Hb) as [-> _].
    destruct (operandString_frame h _ this x Hwf Hlen (Hsame false) Hb) as [-> _].
    reflexivity. }
  unfold toStringOf. cbn [set_negative rightExpression operator leftExpression negative].
  rewrite (Hx _ Hleft).
  destruct (rightExpression o) as [rhs|].
  - destruct (operator o) as [op|]; [|discriminate]. rewrite (Hx _ Hright).
    destruct (operandString _ (leftExpression o)) as [l|]; [|discriminate].
    destruct (operandString _ rhs) as [r|]; [|discriminate].
    cbn [mbind option_bind]. intros E; inversion E; subst. reflexivity.
  - destruct (operandString _ (leftExpression o)) as [l|]; [|discriminate].
    cbn [mbind option_bind]. intros E; inversion E; subst. reflexivity.
Qed.

(** X28: [toString] of an expression returns undefined exactly when the
    expression has a right operand and no operator; in every other
    case it returns a string. *)
Theorem ExpressionNode_string_is_undefined_without_operator (h : list (ExprObj Value))
    (this : ref) (o : ExprObj Value) :
  bottom_up h -> h !! this = Some o ->
  is_Some (toString (S this) h this) /\
  (toString (S this) h this = Some None <->
   is_Some (rightExpression o) /\ operator o = None).
Proof.
  intros Hwf Ho.
  destruct (toString_frame h h this Hwf) with (this := this) (fuel := S this) (fuel' := S this)
    as [_ Hsome]; try lia; [|eexists; exact Ho|].
  { intros i o0 _ Ho0. exists o0. split; [assumption | apply same_expression_refl]. }
  split; [exact Hsome|].
  cbn [toString] in *. rewrite Ho in *. cbn [mbind option_bind] in *.
  unfold toStringOf in *.
  destruct (rightExpression o) as [rhs|].
  - destruct (operator o) as [op|].
    + destruct (operandString _ (leftExpression o)) as [l|];
        [|destruct Hsome; discriminate].
      destruct (operandString _ rhs) as [r|]; [|destruct Hsome; discriminate].
      cbn [mbind option_bind]. split; [discriminate | intros [_ E]; discriminate].
    + split; [intros _; split; [eexists; reflexivity | reflexivity] | reflexivity].
  - destruct (operandString _ (leftExpression o)) as [l|];
      [|destruct Hsome; discriminate].
    cbn [mbind option_bind]. split; [discriminate | intros [[x E] _]; discriminate].
Qed.

End ExprTheorems.

Lemma ExpressionNode_prints_its_operands_witness :
  let r := Expressions.new_ExpressionNode (Expressions.OExpr 0%nat)
             (Some (Expressions.OValue "c")) (Some "+") true product in
  exists L R,
    Expressions.operandString (view := string_view) (Expressions.toString (view := string_view) 1 product)
      (Expressions.OExpr 0%nat) = Some L /\
    Expressions.operandString (view := string_view) (Expressions.toString (view := string_view) 1 product)
      (Expressions.OValue "c") = Some R /\
    Expressions.toString (view := string_view) (S r.1) r.2 r.1 =
      Some (Some ("- " +:+ "(" +:+ L +:+ "+" +:+ R +:+ ")")) /\
    ExprSpec.bottom_up r.2 /\
    (forall i, ExprSpec.refers (Value := string) i (Expressions.OExpr 0%nat)
               || ExprSpec.refers i (Expressions.OValue "c") = true ->
               exists o, r.2 !! i = Some o /\ Expressions.e_parent o = Some r.1).
Proof.
  apply (ExpressionNode_prints_its_operands (view := string_view) (Expressions.OExpr 0%nat)
           (Expressions.OValue "c") "+" true product).
  - intros [|i] o E; [|destruct i; discriminate E].
    injection E as <-. split; exact I.
  - vm_compute. constructor.
  - exact I.
Defined.

Lemma setNegative_puts_the_sign_witness :
  Expressions.toString (view := string_view) 1 (Expressions.setNegative 0%nat true product) 0%nat
  = Some (Some ("- " +:+ "(a*b)")).
Proof.
  apply (setNegative_puts_the_sign (view := string_view) product 0%nat "(a*b)").
  - intros [|i] o E; [|destruct i; discriminate E].
    injection E as <-. split; exact I.
  - reflexivity.
Defined.

Lemma ExpressionNode_string_is_undefined_without_operator_witness :
  is_Some (Expressions.toString (view := string_view) 1 noOperator 0%nat) /\
  (Expressions.toString (view := string_view) 1 noOperator 0%nat = Some None <->
   is_Some (Some (Expressions.OValue "b")) /\ @None string = None).
Proof.
  apply (ExpressionNode_string_is_undefined_without_operator (view := string_view)
           noOperator 0%nat
           (Expressions.mkExprObj None (Expressions.OValue "a")
              (Some (Expressions.OValue "b")) None false)).
  - intros [|i] o E; [|destruct i; discriminate E].
    injection E as <-. split; exact I.
  - reflexivity.
Defined.
